(** * Resilience layer of the MCP media server

    A shallow embedding of the circuit breaker and error monitor
    ([src/utils/error_monitor.py]), the tiered cache ([src/utils/cache.py]),
    the two local fallback engines ([src/db/fallbacks/]) and the failover
    orchestrator ([src/db/connection_manager.py]).

    Conventions used throughout:
    - a reading of [time.time()] is an integer number of clock ticks ([Z]);
      every operation that reads the clock takes the reading as [now];
    - Python [int] is [Z];
    - a Python [dict] whose iteration order is observable is an association
      list in insertion order; one that is only looked up is a [gmap];
    - a call that may raise returns an [outcome]. *)

From Stdlib Require Import ZArith Lia PrimFloat.
From Stdlib Require SpecFloat FloatOps FloatAxioms.
From stdpp Require Import base option list strings gmap pretty sorting.

Local Open Scope Z_scope.

(** ** Exceptions *)

(** Instances of Python's [Exception]: the class name and the message. *)
Record exn := Exn { exn_type : string; exn_msg : string }.

Inductive outcome (A : Type) :=
| Ok (a : A)
| Raised (e : exn).
Arguments Ok {A} a.
Arguments Raised {A} e.

Definition RuntimeError (msg : string) : exn := Exn "RuntimeError" msg.
Definition KeyError (msg : string) : exn := Exn "KeyError" msg.

(** ** Stateful code that may raise

    A method body is a function from the state it mutates to the state it
    leaves behind and either its return value or the exception that escapes
    it.  [try_except] is [try: ... except Exception as e: ...]. *)

Section Eff.
Context {S : Type}.

Definition M (A : Type) : Type := S -> S * outcome A.

Definition ret {A} (a : A) : M A := fun s => (s, Ok a).

Definition bind {A B} (m : M A) (k : A -> M B) : M B :=
  fun s =>
    match m s with
    | (s', Ok a) => k a s'
    | (s', Raised e) => (s', Raised e)
    end.

Definition raise {A} (e : exn) : M A := fun s => (s, Raised e).

Definition try_except {A} (body : M A) (handler : exn -> M A) : M A :=
  fun s =>
    match body s with
    | (s', Ok a) => (s', Ok a)
    | (s', Raised e) => handler e s'
    end.

Definition read : M S := fun s => (s, Ok s).
Definition modify (f : S -> S) : M unit := fun s => (f s, Ok tt).

(** [m] returns normally from every state. *)
Definition never_raises {A} (m : M A) : Prop :=
  forall s, exists s' a, m s = (s', Ok a).

Lemma never_raises_ret {A} (a : A) : never_raises (ret a).
Proof. intros s. exists s, a. reflexivity. Qed.

Lemma never_raises_modify (f : S -> S) : never_raises (modify f).
Proof. intros s. exists (f s), tt. reflexivity. Qed.

Lemma never_raises_bind {A B} (m : M A) (k : A -> M B) :
  never_raises m -> (forall a, never_raises (k a)) -> never_raises (bind m k).
Proof.
  intros Hm Hk s. unfold bind.
  destruct (Hm s) as (s1 & a & ->). apply Hk.
Qed.

(** A [try] whose handler cannot raise cannot raise, whatever the body does. *)
Lemma never_raises_try_except {A} (body : M A) (handler : exn -> M A) :
  (forall e, never_raises (handler e)) -> never_raises (try_except body handler).
Proof.
  intros Hh s. unfold try_except.
  destruct (body s) as [s1 [a | e]].
  - exists s1, a. reflexivity.
  - apply Hh.
Qed.
End Eff.
Arguments M : clear implicits.

Declare Scope eff_scope.
Delimit Scope eff_scope with eff.
Notation "x <- m ;; k" := (bind m (fun x => k))
  (at level 100, m at next level, right associativity) : eff_scope.
Notation "m ;; k" := (bind m (fun _ => k))
  (at level 100, right associativity) : eff_scope.

(** ** Circuit breaker ([CircuitBreaker], error_monitor.py 34-125) *)

Module Breaker.

Inductive CircuitState := CLOSED | OPEN | HALF_OPEN.

Record CircuitBreaker := Build {
  name : string;
  failure_threshold : Z;
  recovery_timeout : Z;
  reset_timeout : Z;
  state : CircuitState;
  failure_count : Z;
  last_failure_time : Z;
  last_success_time : Z
}.

Definition CircuitState_eqb (a b : CircuitState) : bool :=
  match a, b with
  | CLOSED, CLOSED | OPEN, OPEN | HALF_OPEN, HALF_OPEN => true
  | _, _ => false
  end.

Definition set_state (s : CircuitState) (cb : CircuitBreaker) : CircuitBreaker :=
  Build (name cb) (failure_threshold cb) (recovery_timeout cb) (reset_timeout cb)
        s (failure_count cb) (last_failure_time cb) (last_success_time cb).

Definition set_failure_count (n : Z) (cb : CircuitBreaker) : CircuitBreaker :=
  Build (name cb) (failure_threshold cb) (recovery_timeout cb) (reset_timeout cb)
        (state cb) n (last_failure_time cb) (last_success_time cb).

Definition set_last_failure_time (t : Z) (cb : CircuitBreaker) : CircuitBreaker :=
  Build (name cb) (failure_threshold cb) (recovery_timeout cb) (reset_timeout cb)
        (state cb) (failure_count cb) t (last_success_time cb).

Definition set_last_success_time (t : Z) (cb : CircuitBreaker) : CircuitBreaker :=
  Build (name cb) (failure_threshold cb) (recovery_timeout cb) (reset_timeout cb)
        (state cb) (failure_count cb) (last_failure_time cb) t.

(** [__init__]: the breaker starts CLOSED with no failures;
    [last_success_time] is the clock reading at construction. *)
Definition init (now : Z) (nm : string)
    (threshold recovery reset : Z) : CircuitBreaker :=
  Build nm threshold recovery reset CLOSED 0 0 now.

(** [record_failure]: the statements in source order.  The timestamp is
    stored first, so the window test reads the value just written. *)
Definition record_failure (now : Z) (cb : CircuitBreaker) : CircuitBreaker :=
  let current_time := now in
  let cb := set_last_failure_time current_time cb in
  let cb :=
    if current_time - last_failure_time cb >? reset_timeout cb
    then set_failure_count 0 cb
    else cb in
  let cb := set_failure_count (failure_count cb + 1) cb in
  if failure_count cb >=? failure_threshold cb
  then set_state OPEN cb
  else cb.

(** [record_success] *)
Definition record_success (now : Z) (cb : CircuitBreaker) : CircuitBreaker :=
  let cb := set_last_success_time now cb in
  if CircuitState_eqb (state cb) HALF_OPEN
  then set_failure_count 0 (set_state CLOSED cb)
  else cb.

(** [allow_request]: the answer and the breaker after the call. *)
Definition allow_request (now : Z) (cb : CircuitBreaker) : bool * CircuitBreaker :=
  let current_time := now in
  match state cb with
  | CLOSED => (true, cb)
  | OPEN =>
      if current_time - last_failure_time cb >? recovery_timeout cb
      then (true, set_state HALF_OPEN cb)
      else (false, cb)
  | HALF_OPEN => (true, cb)
  end.

(** A run of [record_failure] calls at the given clock readings. *)
Definition record_failures (times : list Z) (cb : CircuitBreaker) : CircuitBreaker :=
  foldl (fun b t => record_failure t b) cb times.

(** The rule of the specification, in its words: the count restarts from
    zero when the time since the previous recorded failure exceeds
    [reset_timeout].  Used only to show where the code departs from it. *)
Definition record_failure_windowed (now : Z) (cb : CircuitBreaker) : CircuitBreaker :=
  let previous := last_failure_time cb in
  let cb := set_last_failure_time now cb in
  let cb :=
    if now - previous >? reset_timeout cb
    then set_failure_count 0 cb
    else cb in
  let cb := set_failure_count (failure_count cb + 1) cb in
  if failure_count cb >=? failure_threshold cb
  then set_state OPEN cb
  else cb.

(** *** Properties *)

Lemma record_failure_count (now : Z) (cb : CircuitBreaker) :
  0 <= reset_timeout cb ->
  failure_count (record_failure now cb) = failure_count cb + 1.
Proof.
  intros Hreset. unfold record_failure. cbn.
  replace (now - now) with 0 by lia.
  destruct (0 >? reset_timeout cb) eqn:Hgt; [lia|].
  cbn. destruct (failure_count cb + 1 >=? failure_threshold cb); reflexivity.
Qed.

(** C1 (the code departs from the claim).  A breaker with threshold 2 and a
    reset window of 300 ticks receives one failure at tick 0 and the next at
    tick 1000, long after the window closed.  The code still counts two
    failures and opens the breaker; under the claimed rule the count would
    have restarted, leaving one failure and a CLOSED breaker. *)
Theorem C1_record_failure_ignores_reset_window :
  let cb := record_failures [0; 1000] (init 0 "svc" 2 60 300) in
  state cb = OPEN /\ failure_count cb = 2 /\
  let cb' := record_failure_windowed 1000
               (record_failure_windowed 0 (init 0 "svc" 2 60 300)) in
  state cb' = CLOSED /\ failure_count cb' = 1.
Proof. vm_compute. repeat split. Qed.

(** C3.  [allow_request] answers true in CLOSED and HALF_OPEN and leaves the
    breaker as it was; in OPEN it answers false, again without change, while
    the time since the last failure does not exceed [recovery_timeout], and
    otherwise it answers true and leaves the breaker in state HALF_OPEN,
    every other field being what it was. *)
Theorem C3_allow_request (now : Z) (cb : CircuitBreaker) :
  (state cb = CLOSED \/ state cb = HALF_OPEN ->
     allow_request now cb = (true, cb)) /\
  (state cb = OPEN -> now - last_failure_time cb <= recovery_timeout cb ->
     allow_request now cb = (false, cb)) /\
  (state cb = OPEN -> recovery_timeout cb < now - last_failure_time cb ->
     fst (allow_request now cb) = true /\
     state (snd (allow_request now cb)) = HALF_OPEN /\
     snd (allow_request now cb)
       = Build (name cb) (failure_threshold cb) (recovery_timeout cb) (reset_timeout cb)
               HALF_OPEN (failure_count cb) (last_failure_time cb) (last_success_time cb)).
Proof.
  unfold allow_request. split; [|split].
  - intros [-> | ->]; reflexivity.
  - intros -> Hle.
    destruct (now - last_failure_time cb >? recovery_timeout cb) eqn:E; [lia | reflexivity].
  - intros -> Hlt.
    destruct (now - last_failure_time cb >? recovery_timeout cb) eqn:E; [|lia].
    split; [reflexivity|]. split; reflexivity.
Qed.

(** C6.  A success recorded in HALF_OPEN closes the breaker and clears the
    failure count. *)
Theorem C6_record_success_half_open (now : Z) (cb : CircuitBreaker) :
  state cb = HALF_OPEN ->
  state (record_success now cb) = CLOSED /\
  failure_count (record_success now cb) = 0.
Proof.
  intros H. unfold record_success. cbn. rewrite H. cbn. split; reflexivity.
Qed.

(** C9.  A success recorded in CLOSED changes only [last_success_time]: the
    state stays CLOSED and the failure count is what it was. *)
Theorem C9_record_success_closed (now : Z) (cb : CircuitBreaker) :
  state cb = CLOSED ->
  record_success now cb = set_last_success_time now cb /\
  state (record_success now cb) = CLOSED /\
  failure_count (record_success now cb) = failure_count cb.
Proof.
  intros H. unfold record_success. cbn. rewrite H. cbn. repeat split. exact H.
Qed.

Definition opened : CircuitBreaker := record_failures [0; 1] (init 0 "svc" 2 60 300).
Definition probing : CircuitBreaker := snd (allow_request 100 opened).

Lemma C3_allow_request_witness :
  allow_request 0 (init 0 "svc" 2 60 300) = (true, init 0 "svc" 2 60 300) /\
  allow_request 100 probing = (true, probing) /\
  (state opened = OPEN /\ 30 - last_failure_time opened <= recovery_timeout opened /\
   allow_request 30 opened = (false, opened)) /\
  (state opened = OPEN /\ recovery_timeout opened < 100 - last_failure_time opened /\
   fst (allow_request 100 opened) = true /\
   state (snd (allow_request 100 opened)) = HALF_OPEN /\
   snd (allow_request 100 opened)
     = Build (name opened) (failure_threshold opened) (recovery_timeout opened)
             (reset_timeout opened) HALF_OPEN (failure_count opened)
             (last_failure_time opened) (last_success_time opened)).
Proof.
  split; [apply (C3_allow_request 0 (init 0 "svc" 2 60 300)); left; reflexivity|].
  split; [apply (C3_allow_request 100 probing); right; reflexivity|].
  split.
  - split; [reflexivity|]. split; [vm_compute; discriminate|].
    apply (C3_allow_request 30 opened); [reflexivity | vm_compute; discriminate].
  - split; [reflexivity|]. split; [vm_compute; reflexivity|].
    apply (C3_allow_request 100 opened); [reflexivity | vm_compute; reflexivity].
Defined.

Lemma C6_record_success_half_open_witness :
  state probing = HALF_OPEN /\
  state (record_success 101 probing) = CLOSED /\
  failure_count (record_success 101 probing) = 0.
Proof.
  split; [reflexivity|]. apply (C6_record_success_half_open 101 probing). reflexivity.
Defined.

Lemma C9_record_success_closed_witness :
  let cb := record_failure 5 (init 0 "svc" 3 60 300) in
  state cb = CLOSED /\
  record_success 7 cb = set_last_success_time 7 cb /\
  state (record_success 7 cb) = CLOSED /\
  failure_count (record_success 7 cb) = failure_count cb.
Proof.
  split; [reflexivity|].
  apply (C9_record_success_closed 7 (record_failure 5 (init 0 "svc" 3 60 300))). reflexivity.
Defined.

(** *** Sequences of calls *)

(** A call on a breaker, with the clock reading at which it is made. *)
Inductive call :=
| Failure (t : Z)
| Success (t : Z)
| Request (t : Z).

Definition step (cb : CircuitBreaker) (c : call) : CircuitBreaker :=
  match c with
  | Failure t => record_failure t cb
  | Success t => record_success t cb
  | Request t => snd (allow_request t cb)
  end.

Definition run (calls : list call) (cb : CircuitBreaker) : CircuitBreaker :=
  foldl step cb calls.

(** A breaker that is not CLOSED has its failure count at the threshold. *)
Definition tripped_ok (cb : CircuitBreaker) : Prop :=
  state cb <> CLOSED -> failure_threshold cb <= failure_count cb.

Lemma step_settings (cb : CircuitBreaker) (c : call) :
  failure_threshold (step cb c) = failure_threshold cb /\
  recovery_timeout (step cb c) = recovery_timeout cb /\
  reset_timeout (step cb c) = reset_timeout cb.
Proof.
  destruct c as [t|t|t]; cbn.
  - unfold record_failure. cbn.
    destruct (t - t >? reset_timeout cb); cbn;
      destruct (_ >=? _); cbn; auto.
  - unfold record_success. cbn. destruct (CircuitState_eqb _ _); cbn; auto.
  - unfold allow_request. destruct (state cb); cbn; auto.
    destruct (_ >? _); cbn; auto.
Qed.

Lemma record_failure_state (now : Z) (cb : CircuitBreaker) :
  0 <= reset_timeout cb ->
  state (record_failure now cb)
  = if failure_count cb + 1 >=? failure_threshold cb then OPEN else state cb.
Proof.
  intros Hreset. unfold record_failure. cbn.
  replace (now - now) with 0 by lia.
  destruct (0 >? reset_timeout cb) eqn:Hgt; [lia|].
  cbn. destruct (failure_count cb + 1 >=? failure_threshold cb); reflexivity.
Qed.

Lemma record_success_state (now : Z) (cb : CircuitBreaker) :
  state (record_success now cb)
  = match state cb with HALF_OPEN => CLOSED | s => s end /\
  failure_count (record_success now cb)
  = match state cb with HALF_OPEN => 0 | _ => failure_count cb end.
Proof. unfold record_success. cbn. by destruct (state cb) eqn:Hs; cbn; rewrite ?Hs. Qed.

Lemma allow_request_state (now : Z) (cb : CircuitBreaker) :
  failure_count (snd (allow_request now cb)) = failure_count cb /\
  (state (snd (allow_request now cb)) = state cb \/
   (state cb = OPEN /\ state (snd (allow_request now cb)) = HALF_OPEN)).
Proof.
  unfold allow_request. destruct (state cb) eqn:Hs; cbn; auto.
  destruct (_ >? _); cbn; auto.
Qed.

Lemma step_tripped_ok (cb : CircuitBreaker) (c : call) :
  0 <= reset_timeout cb -> tripped_ok cb -> tripped_ok (step cb c).
Proof.
  intros Hreset Hok. unfold tripped_ok in *.
  destruct (step_settings cb c) as (-> & _ & _).
  destruct c as [t|t|t]; cbn [step].
  - rewrite record_failure_count, record_failure_state by done.
    destruct (failure_count cb + 1 >=? failure_threshold cb) eqn:E; [lia|].
    intros H. specialize (Hok H). lia.
  - destruct (record_success_state t cb) as [-> ->].
    destruct (state cb); [done | by auto | done].
  - destruct (allow_request_state t cb) as [-> [-> | [Hs ->]]]; [done|].
    intros _. apply Hok. by rewrite Hs.
Qed.

Lemma run_settings (calls : list call) (cb : CircuitBreaker) :
  failure_threshold (run calls cb) = failure_threshold cb.
Proof.
  revert cb. induction calls as [|c calls IH]; intros cb; [done|].
  change (run (c :: calls) cb) with (run calls (step cb c)).
  rewrite IH. by destruct (step_settings cb c) as (-> & _).
Qed.

Lemma run_tripped_ok (calls : list call) (cb : CircuitBreaker) :
  0 <= reset_timeout cb -> tripped_ok cb ->
  tripped_ok (run calls cb) /\ reset_timeout (run calls cb) = reset_timeout cb.
Proof.
  revert cb. induction calls as [|c calls IH]; intros cb Hreset Hok; [done|].
  change (run (c :: calls) cb) with (run calls (step cb c)).
  destruct (step_settings cb c) as (_ & _ & Hr).
  destruct (IH (step cb c)) as [H1 H2]; [lia | by apply step_tripped_ok |].
  split; [done | congruence].
Qed.

Lemma record_failures_spec (times : list Z) (cb : CircuitBreaker) :
  0 <= reset_timeout cb ->
  failure_count (record_failures times cb) = failure_count cb + Z.of_nat (length times) /\
  state (record_failures times cb)
  = match times with
    | [] => state cb
    | _ => if failure_count cb + Z.of_nat (length times) >=? failure_threshold cb
           then OPEN else state cb
    end.
Proof.
  revert cb. induction times as [|t times IH]; intros cb Hreset; [cbn; split; [lia | done]|].
  change (record_failures (t :: times) cb) with (record_failures times (record_failure t cb)).
  destruct (step_settings cb (Failure t)) as (Ht & _ & Hr). cbn [step] in Ht, Hr.
  destruct (IH (record_failure t cb)) as [Hc Hs]; [lia|].
  rewrite Hc, Hs, Ht, record_failure_count, record_failure_state by done.
  split; [cbn [length]; lia|].
  destruct times as [|t' times]; [reflexivity|].
  cbn [length] in *.
  destruct (failure_count cb + 1 + _ >=? _) eqn:E1;
    destruct (failure_count cb + Z.of_nat _ >=? _) eqn:E2; try lia; try reflexivity.
  all: destruct (failure_count cb + 1 >=? failure_threshold cb) eqn:E3; try reflexivity.
  all: exfalso; revert E1 E2 E3; rewrite ?Z.geb_leb, ?Z.leb_le, ?Z.leb_gt; lia.
Qed.

(** X1.  On a fresh breaker whose reset window is not negative, every
    recorded failure counts, whatever the clock readings: after the calls
    the count is their number, and the breaker is OPEN exactly when at
    least one failure was recorded and their number has reached the
    threshold. *)
Theorem X1_failures_trip_at_threshold (times : list Z) (now : Z) (nm : string)
    (threshold recovery reset : Z) :
  0 <= reset ->
  let cb := record_failures times (init now nm threshold recovery reset) in
  failure_count cb = Z.of_nat (length times) /\
  (state cb = OPEN <-> times <> [] /\ threshold <= Z.of_nat (length times)).
Proof.
  intros Hreset.
  destruct (record_failures_spec times (init now nm threshold recovery reset) Hreset)
    as [Hc Hs].
  cbv zeta. rewrite Hc, Hs. cbn [failure_count failure_threshold state init].
  split; [lia|].
  destruct times as [|t times]; [split; [done | by intros [? _]]|].
  destruct (0 + Z.of_nat (length (t :: times)) >=? threshold) eqn:E.
  - split; [intros _; split; [done | lia] | done].
  - split; [done | intros [_ ?]; lia].
Qed.

Lemma X1_failures_trip_at_threshold_witness :
  0 <= 300 /\
  let cb := record_failures [3; 500; 9000] (init 0 "svc" 3 60 300) in
  failure_count cb = Z.of_nat (length [3; 500; 9000]) /\
  (state cb = OPEN <-> [3; 500; 9000] <> [] /\ 3 <= Z.of_nat (length [3; 500; 9000])).
Proof.
  split; [lia|]. apply (X1_failures_trip_at_threshold [3; 500; 9000] 0 "svc" 3 60 300). lia.
Defined.

(** X2.  Through every sequence of [record_failure], [record_success] and
    [allow_request] calls on a fresh breaker whose reset window is not
    negative, a breaker that is OPEN or HALF_OPEN has its failure count at
    or above the threshold. *)
Theorem X2_not_closed_means_threshold_reached (calls : list call) (now : Z) (nm : string)
    (threshold recovery reset : Z) :
  0 <= reset ->
  let cb := run calls (init now nm threshold recovery reset) in
  state cb <> CLOSED -> threshold <= failure_count cb.
Proof.
  intros Hreset cb.
  destruct (run_tripped_ok calls (init now nm threshold recovery reset)) as [Hok _];
    [done | by intros [] |].
  unfold tripped_ok in Hok. fold cb in Hok. unfold cb in Hok at 2.
  rewrite run_settings in Hok. exact Hok.
Qed.

Definition outage_and_probe : list call :=
  [Failure 1; Failure 2; Request 3; Request 100].

Lemma X2_not_closed_means_threshold_reached_witness :
  0 <= 300 /\
  let cb := run outage_and_probe (init 0 "svc" 2 60 300) in
  state cb <> CLOSED /\ 2 <= failure_count cb.
Proof.
  split; [lia|]. split; [discriminate|].
  apply (X2_not_closed_means_threshold_reached outage_and_probe 0 "svc" 2 60 300);
    [lia | discriminate].
Defined.

(** X3.  On a breaker reached from a fresh one (reset window not negative)
    by any calls, a failure recorded while HALF_OPEN re-opens it. *)
Theorem X3_failure_while_probing_reopens (calls : list call) (now t : Z) (nm : string)
    (threshold recovery reset : Z) :
  0 <= reset ->
  let cb := run calls (init now nm threshold recovery reset) in
  state cb = HALF_OPEN ->
  state (record_failure t cb) = OPEN.
Proof.
  intros Hreset cb Hhalf.
  destruct (run_tripped_ok calls (init now nm threshold recovery reset)) as [Hok Hr];
    [done | by intros [] |].
  fold cb in Hok, Hr. cbn in Hr.
  rewrite record_failure_state by lia.
  assert (failure_threshold cb <= failure_count cb) by (apply Hok; by rewrite Hhalf).
  destruct (_ >=? _) eqn:E; [done | lia].
Qed.

Lemma X3_failure_while_probing_reopens_witness :
  0 <= 300 /\
  let cb := run outage_and_probe (init 0 "svc" 2 60 300) in
  state cb = HALF_OPEN /\ state (record_failure 101 cb) = OPEN.
Proof.
  split; [lia|]. split; [reflexivity|].
  apply (X3_failure_while_probing_reopens outage_and_probe 0 101 "svc" 2 60 300);
    [lia | reflexivity].
Defined.

(** X4.  Once [allow_request] has let a request through, it lets every
    further request through, at any clock reading and without changing the
    breaker again, until a failure or a success is recorded: HALF_OPEN does
    not ration its probes. *)
Theorem X4_permission_is_not_rationed (t t' : Z) (cb : CircuitBreaker) :
  fst (allow_request t cb) = true ->
  allow_request t' (snd (allow_request t cb)) = (true, snd (allow_request t cb)).
Proof.
  unfold allow_request at 1 3 4.
  destruct (state cb) eqn:Hs; cbn [fst snd].
  - intros _. unfold allow_request. by rewrite Hs.
  - destruct (_ >? _); [|discriminate]. intros _. reflexivity.
  - intros _. unfold allow_request. by rewrite Hs.
Qed.

Lemma X4_permission_is_not_rationed_witness :
  let cb := record_failures [0; 1] (init 0 "svc" 2 60 300) in
  fst (allow_request 100 cb) = true /\
  allow_request 100 (snd (allow_request 100 cb)) = (true, snd (allow_request 100 cb)).
Proof.
  split; [reflexivity|].
  apply (X4_permission_is_not_rationed 100 100
           (record_failures [0; 1] (init 0 "svc" 2 60 300))).
  reflexivity.
Defined.

End Breaker.

(** ** Error monitor ([ErrorMonitor], error_monitor.py 128-330) *)

Module Monitor.
Import Breaker.
Local Open Scope eff_scope.

Inductive ErrorSeverity := LOW | MEDIUM | HIGH | CRITICAL.

Definition severity_value (s : ErrorSeverity) : string :=
  match s with
  | LOW => "low" | MEDIUM => "medium" | HIGH => "high" | CRITICAL => "critical"
  end.

(** An entry of [last_errors]. *)
Record LastError := {
  le_type : string;
  le_message : string;
  le_context : string;
  le_severity : string;
  le_traceback : string;
  le_timestamp : string;
  le_count : Z
}.

Inductive LogLevel := LInfo | LWarning | LError | LCritical.

(** The monitor together with what it leaves on disk under [logs/errors]
    and in the log.  A file is the list of strings written to it. *)
Record ErrorMonitor := {
  error_counts : gmap string Z;
  last_errors : gmap string LastError;
  circuit_breakers : gmap string CircuitBreaker;
  errors_dir : gmap string (list string);
  error_summary : option (gmap string Z * gmap string LastError * string);
  log : list (LogLevel * string)
}.

Definition empty_monitor : ErrorMonitor :=
  {| error_counts := ∅; last_errors := ∅; circuit_breakers := ∅;
     errors_dir := ∅; error_summary := None; log := [] |}.

Definition set_error_counts (f : gmap string Z -> gmap string Z) (m : ErrorMonitor) :=
  {| error_counts := f (error_counts m); last_errors := last_errors m;
     circuit_breakers := circuit_breakers m; errors_dir := errors_dir m;
     error_summary := error_summary m; log := log m |}.

Definition set_last_errors (f : gmap string LastError -> gmap string LastError)
    (m : ErrorMonitor) :=
  {| error_counts := error_counts m; last_errors := f (last_errors m);
     circuit_breakers := circuit_breakers m; errors_dir := errors_dir m;
     error_summary := error_summary m; log := log m |}.

Definition set_circuit_breakers
    (f : gmap string CircuitBreaker -> gmap string CircuitBreaker) (m : ErrorMonitor) :=
  {| error_counts := error_counts m; last_errors := last_errors m;
     circuit_breakers := f (circuit_breakers m); errors_dir := errors_dir m;
     error_summary := error_summary m; log := log m |}.

Definition set_errors_dir
    (f : gmap string (list string) -> gmap string (list string)) (m : ErrorMonitor) :=
  {| error_counts := error_counts m; last_errors := last_errors m;
     circuit_breakers := circuit_breakers m; errors_dir := f (errors_dir m);
     error_summary := error_summary m; log := log m |}.

Definition set_error_summary
    (v : option (gmap string Z * gmap string LastError * string)) (m : ErrorMonitor) :=
  {| error_counts := error_counts m; last_errors := last_errors m;
     circuit_breakers := circuit_breakers m; errors_dir := errors_dir m;
     error_summary := v; log := log m |}.

Definition add_log (l : LogLevel) (msg : string) (m : ErrorMonitor) :=
  {| error_counts := error_counts m; last_errors := last_errors m;
     circuit_breakers := circuit_breakers m; errors_dir := errors_dir m;
     error_summary := error_summary m; log := log m ++ [(l, msg)] |}.

(** The points of [track_error] and its helpers at which Python can raise:
    reading the exception ([type(error).__name__], [str(error)]), the update
    of [error_counts], building the [last_errors] entry ([severity.value],
    [traceback.format_exc()]), the call into the breaker, formatting the log
    line, and the file operations of the two [_save_*] helpers. *)
Inductive step :=
| DescribeError | IncrementCount | StoreLastError | InvokeBreaker | FormatLog
| DetailOpen | DetailWrite | SummaryOpen | SummaryDump.

(** What the surroundings supply to one call: the clock in the three forms
    the code reads it, the text of the current traceback, and which steps
    fail, with what exception. *)
Record Env := {
  now : Z;
  now_iso : string;
  now_stamp : string;
  traceback : string;
  faults : step -> option exn
}.

Definition colon : Ascii.ascii := Ascii.ascii_of_nat 58.
Definition underscore : Ascii.ascii := Ascii.ascii_of_nat 95.

(** [error_key.replace(':', '_')] *)
Definition replace_colon (s : string) : string :=
  String.string_of_list_ascii
    (map (fun c => if Ascii.eqb c colon then underscore else c) (String.list_ascii_of_string s)).

Section Methods.
Variable env : Env.

Definition at_step (s : step) : M ErrorMonitor unit :=
  match faults env s with
  | Some e => raise e
  | None => ret tt
  end.

Definition logger (l : LogLevel) (msg : string) : M ErrorMonitor unit :=
  modify (add_log l msg).

(** [_save_error_details] *)
Definition _save_error_details (error_key : string) (error : exn)
    : M ErrorMonitor unit :=
  try_except
    (m <- read ;;
     match error_counts m !! error_key with
     | None => raise (KeyError error_key)
     | Some error_count =>
         let timestamp := now_stamp env in
         let filename := replace_colon error_key +:+ "_" +:+ timestamp +:+ ".txt" in
         at_step DetailOpen ;;
         modify (set_errors_dir <[filename := []]>) ;;
         at_step DetailWrite ;;
         modify (set_errors_dir <[filename :=
           [ "Error: " +:+ exn_type error;
             "Message: " +:+ exn_msg error;
             "Occurrence: " +:+ pretty error_count;
             "Timestamp: " +:+ timestamp;
             "Traceback:";
             traceback env ]]>)
     end)
    (fun e => logger LError ("Error saving error details: " +:+ exn_msg e)).

(** [_save_error_summary] *)
Definition _save_error_summary : M ErrorMonitor unit :=
  try_except
    (m <- read ;;
     let data := (error_counts m, last_errors m, now_iso env) in
     at_step SummaryOpen ;;
     modify (set_error_summary None) ;;
     at_step SummaryDump ;;
     modify (set_error_summary (Some data)))
    (fun e => logger LError ("Error saving error summary: " +:+ exn_msg e)).

(** [track_error] *)
Definition track_error (error : exn) (context : string) (severity : ErrorSeverity)
    : M ErrorMonitor unit :=
  try_except
    (at_step DescribeError ;;
     let error_type := exn_type error in
     let error_message := exn_msg error in
     let error_key := context +:+ ":" +:+ error_type in
     at_step IncrementCount ;;
     modify (set_error_counts (fun c =>
       let c := match c !! error_key with None => <[error_key := 0]> c | Some _ => c end in
       <[error_key := default 0 (c !! error_key) + 1]> c)) ;;
     at_step StoreLastError ;;
     modify (fun m => set_last_errors <[error_key :=
       {| le_type := error_type; le_message := error_message;
          le_context := context; le_severity := severity_value severity;
          le_traceback := traceback env; le_timestamp := now_iso env;
          le_count := default 0 (error_counts m !! error_key) |}]> m) ;;
     at_step InvokeBreaker ;;
     modify (fun m =>
       match circuit_breakers m !! context with
       | Some cb => set_circuit_breakers <[context := record_failure (now env) cb]> m
       | None => m
       end) ;;
     at_step FormatLog ;;
     m <- read ;;
     logger (match severity with CRITICAL => LCritical | _ => LError end)
       ("Error in " +:+ context +:+ ": " +:+ error_type +:+ ": " +:+ error_message
        +:+ " (occurred " +:+ pretty (default 0 (error_counts m !! error_key))
        +:+ " times)") ;;
     _save_error_details error_key error ;;
     _save_error_summary)
    (fun e => logger LError ("Error in error tracking: " +:+ exn_msg e)).

(** [register_circuit_breaker]: the breaker is built with the default
    [reset_timeout] of 300. *)
Definition register_circuit_breaker (context : string)
    (failure_threshold recovery_timeout : Z) : M ErrorMonitor CircuitBreaker :=
  m <- read ;;
  match circuit_breakers m !! context with
  | Some cb => ret cb
  | None =>
      let cb := Breaker.init (now env) context failure_threshold recovery_timeout 300 in
      modify (set_circuit_breakers <[context := cb]>) ;;
      ret cb
  end.

(** [circuit_is_closed] *)
Definition circuit_is_closed (context : string) : M ErrorMonitor bool :=
  m <- read ;;
  match circuit_breakers m !! context with
  | None => ret true
  | Some cb =>
      let '(allowed, cb') := allow_request (now env) cb in
      modify (set_circuit_breakers <[context := cb']>) ;;
      ret allowed
  end.

(** [record_success] *)
Definition record_success (context : string) : M ErrorMonitor unit :=
  modify (fun m =>
    match circuit_breakers m !! context with
    | Some cb => set_circuit_breakers <[context := Breaker.record_success (now env) cb]> m
    | None => m
    end).

(** *** Properties *)

Lemma logger_never_raises (l : LogLevel) (msg : string) : never_raises (logger l msg).
Proof. apply never_raises_modify. Qed.

Lemma track_error_never_raises (error : exn) (context : string)
    (severity : ErrorSeverity) :
  never_raises (track_error error context severity).
Proof.
  unfold track_error. apply never_raises_try_except.
  intros e. apply logger_never_raises.
Qed.

Lemma _save_error_details_never_raises (error_key : string) (error : exn) :
  never_raises (_save_error_details error_key error).
Proof.
  unfold _save_error_details. apply never_raises_try_except.
  intros e. apply logger_never_raises.
Qed.

Lemma _save_error_summary_never_raises : never_raises _save_error_summary.
Proof.
  unfold _save_error_summary. apply never_raises_try_except.
  intros e. apply logger_never_raises.
Qed.
End Methods.

(** The handler is not idle: when the update of [error_counts] fails, the
    count is not recorded and the failure ends up in the log. *)
Definition count_fails : Env :=
  {| now := 0; now_iso := "2024-01-01T00:00:00"; now_stamp := "20240101_000000";
     traceback := "NoneType: None";
     faults := fun s => match s with
                        | IncrementCount => Some (Exn "TypeError" "unsupported operand")
                        | _ => None
                        end |}.

Example track_error_absorbs_fault :
  let r := track_error count_fails (Exn "ValueError" "boom") "db" HIGH empty_monitor in
  snd r = Ok tt /\
  error_counts (fst r) !! "db:ValueError" = None /\
  log (fst r) = [(LError, "Error in error tracking: unsupported operand")].
Proof. vm_compute. repeat split. Qed.

(** C10.  Whatever exception is tracked, in whatever context and severity,
    from whatever monitor state, and whichever of the recording steps fail,
    [track_error] returns normally: nothing escapes to the caller. *)
Theorem C10_track_error_never_propagates (env : Env) (error : exn) (context : string)
    (severity : ErrorSeverity) (m : ErrorMonitor) :
  exists m', track_error env error context severity m = (m', Ok tt).
Proof.
  destruct (track_error_never_raises env error context severity m) as (m' & [] & H).
  exists m'. exact H.
Qed.

(** *** More on the monitor *)

(** X5.  [register_circuit_breaker] is idempotent: a second registration
    of the same context, with whatever parameters and at whatever time,
    returns the breaker of the first and changes nothing. *)
Theorem X5_register_is_idempotent (env env' : Env) (context : string)
    (threshold recovery threshold' recovery' : Z) (m : ErrorMonitor) :
  let first := register_circuit_breaker env context threshold recovery m in
  register_circuit_breaker env' context threshold' recovery' (fst first) = first /\
  exists cb, snd first = Ok cb /\ circuit_breakers (fst first) !! context = Some cb.
Proof.
  unfold register_circuit_breaker, bind, read, modify, ret.
  destruct (circuit_breakers m !! context) as [cb|] eqn:Hcb; cbn.
  - rewrite Hcb. eauto.
  - rewrite lookup_insert_eq. eauto.
Qed.

(** The steps of [track_error] that precede the call into the breaker. *)
Definition recorded (env : Env) : Prop :=
  faults env DescribeError = None /\ faults env IncrementCount = None /\
  faults env StoreLastError = None /\ faults env InvokeBreaker = None.

(** [self.error_counts[error_key] += 1], after the key has been given a
    zero when missing. *)
Definition bump (error_key : string) (c : gmap string Z) : gmap string Z :=
  let c := match c !! error_key with None => <[error_key := 0]> c | Some _ => c end in
  <[error_key := default 0 (c !! error_key) + 1]> c.

Lemma bump_lookup (error_key k : string) (c : gmap string Z) :
  bump error_key c !! k
  = if decide (error_key = k) then Some (default 0 (c !! error_key) + 1) else c !! k.
Proof.
  unfold bump. destruct (decide (error_key = k)) as [->|Hne].
  - rewrite lookup_insert_eq. destruct (c !! k) eqn:E; [by rewrite E|].
    by rewrite lookup_insert_eq.
  - rewrite lookup_insert_ne by done. destruct (c !! error_key); [done|].
    by rewrite lookup_insert_ne.
Qed.

Definition feed (env : Env) (context : string)
    (bs : gmap string CircuitBreaker) : gmap string CircuitBreaker :=
  match bs !! context with
  | Some cb => <[context := record_failure (now env) cb]> bs
  | None => bs
  end.

(** The counters, the last-error table and the breakers: what the steps
    after the call into the breaker (logging and the two files) leave alone. *)
Definition same_core (m m' : ErrorMonitor) : Prop :=
  error_counts m' = error_counts m /\ last_errors m' = last_errors m /\
  circuit_breakers m' = circuit_breakers m.

Definition keeps_core {A} (c : M ErrorMonitor A) : Prop :=
  forall m, same_core m (fst (c m)).

Lemma keeps_core_ret {A} (a : A) : keeps_core (ret a).
Proof. by intros m. Qed.

Lemma keeps_core_raise {A} (e : exn) : keeps_core (@raise ErrorMonitor A e).
Proof. by intros m. Qed.

Lemma keeps_core_read : keeps_core (@read ErrorMonitor).
Proof. by intros m. Qed.

Lemma keeps_core_modify (f : ErrorMonitor -> ErrorMonitor) :
  (forall m, same_core m (f m)) -> keeps_core (modify f).
Proof. intros Hf m. apply Hf. Qed.

Lemma keeps_core_bind {A B} (c : M ErrorMonitor A) (k : A -> M ErrorMonitor B) :
  keeps_core c -> (forall a, keeps_core (k a)) -> keeps_core (bind c k).
Proof.
  intros Hc Hk m. unfold bind. specialize (Hc m).
  destruct (c m) as [m1 [a|e]]; cbn in *; [|done].
  specialize (Hk a m1). destruct Hc as (? & ? & ?), Hk as (? & ? & ?).
  repeat split; congruence.
Qed.

Lemma keeps_core_try_except {A} (c : M ErrorMonitor A) (h : exn -> M ErrorMonitor A) :
  keeps_core c -> (forall e, keeps_core (h e)) -> keeps_core (try_except c h).
Proof.
  intros Hc Hh m. unfold try_except. specialize (Hc m).
  destruct (c m) as [m1 [a|e]]; cbn in *; [done|].
  specialize (Hh e m1). destruct Hc as (? & ? & ?), Hh as (? & ? & ?).
  repeat split; congruence.
Qed.

Lemma keeps_core_at_step (env : Env) (s : step) : keeps_core (at_step env s).
Proof. unfold at_step. destruct (faults env s); [apply keeps_core_raise | apply keeps_core_ret]. Qed.

Lemma keeps_core_logger (l : LogLevel) (msg : string) : keeps_core (logger l msg).
Proof. by intros m. Qed.

Lemma keeps_core__save_error_details (env : Env) (error_key : string) (error : exn) :
  keeps_core (_save_error_details env error_key error).
Proof.
  unfold _save_error_details.
  apply keeps_core_try_except; [|intros e; apply keeps_core_logger].
  apply keeps_core_bind; [apply keeps_core_read|]. intros m.
  destruct (error_counts m !! error_key); [|apply keeps_core_raise].
  repeat (apply keeps_core_bind; [|intros ?]);
    auto using keeps_core_at_step; by apply keeps_core_modify.
Qed.

Lemma keeps_core__save_error_summary (env : Env) : keeps_core (_save_error_summary env).
Proof.
  unfold _save_error_summary.
  apply keeps_core_try_except; [|intros e; apply keeps_core_logger].
  repeat (apply keeps_core_bind; [|intros ?]);
    auto using keeps_core_at_step, keeps_core_read; by apply keeps_core_modify.
Qed.

Section TrackError.
Variable env : Env.
Variables (error : exn) (context : string) (severity : ErrorSeverity).
Let error_key := context +:+ ":" +:+ exn_type error.

(** [track_error] up to and including the call into the breaker ... *)
Definition early : M ErrorMonitor unit :=
  (at_step env DescribeError ;;
   at_step env IncrementCount ;;
   modify (set_error_counts (bump error_key)) ;;
   at_step env StoreLastError ;;
   modify (fun m => set_last_errors <[error_key :=
     {| le_type := exn_type error; le_message := exn_msg error;
        le_context := context; le_severity := severity_value severity;
        le_traceback := traceback env; le_timestamp := now_iso env;
        le_count := default 0 (error_counts m !! error_key) |}]> m) ;;
   at_step env InvokeBreaker ;;
   modify (fun m => set_circuit_breakers (feed env context) m))%eff.

(** ... and from there on. *)
Definition late : M ErrorMonitor unit :=
  (at_step env FormatLog ;;
   m <- read ;;
   logger (match severity with CRITICAL => LCritical | _ => LError end)
     ("Error in " +:+ context +:+ ": " +:+ exn_type error +:+ ": " +:+ exn_msg error
      +:+ " (occurred " +:+ pretty (default 0 (error_counts m !! error_key))
      +:+ " times)") ;;
   _save_error_details env error_key error ;;
   _save_error_summary env)%eff.

Lemma set_circuit_breakers_feed (m : ErrorMonitor) :
  set_circuit_breakers (feed env context) m
  = match circuit_breakers m !! context with
    | Some cb => set_circuit_breakers <[context := record_failure (now env) cb]> m
    | None => m
    end.
Proof.
  unfold feed, set_circuit_breakers.
  destruct (circuit_breakers m !! context) eqn:E; [done | by destruct m].
Qed.

Lemma track_error_split (m : ErrorMonitor) :
  track_error env error context severity m
  = try_except (bind early (fun _ => late))
      (fun e => logger LError ("Error in error tracking: " +:+ exn_msg e)) m.
Proof.
  unfold track_error, early, late, try_except, bind, at_step, modify.
  fold error_key.
  destruct (faults env DescribeError); [done|]. cbn [ret raise].
  destruct (faults env IncrementCount); [done|]. cbn [ret raise].
  destruct (faults env StoreLastError); [done|]. cbn [ret raise].
  destruct (faults env InvokeBreaker); [done|]. cbn [ret raise].
  by rewrite set_circuit_breakers_feed.
Qed.

Lemma keeps_core_late : keeps_core late.
Proof.
  unfold late.
  repeat (apply keeps_core_bind; [|intros ?]);
    auto using keeps_core_at_step, keeps_core_read, keeps_core_logger,
      keeps_core__save_error_details, keeps_core__save_error_summary.
Qed.

(** What [track_error] leaves in the counters and in the breakers,
    according to the first of its early steps that fails. *)
Lemma track_error_core (m : ErrorMonitor) :
  let m' := fst (track_error env error context severity m) in
  error_counts m'
  = match faults env DescribeError, faults env IncrementCount with
    | None, None => bump error_key (error_counts m)
    | _, _ => error_counts m
    end /\
  circuit_breakers m'
  = match faults env DescribeError, faults env IncrementCount,
          faults env StoreLastError, faults env InvokeBreaker with
    | None, None, None, None => feed env context (circuit_breakers m)
    | _, _, _, _ => circuit_breakers m
    end.
Proof.
  cbv zeta. rewrite track_error_split.
  assert (Hrest : same_core (fst (early m))
            (fst (try_except (bind early (fun _ => late))
               (fun e => logger LError ("Error in error tracking: " +:+ exn_msg e)) m))).
  { unfold try_except, bind. destruct (early m) as [m1 [[]|e]]; cbn [fst].
    - pose proof (keeps_core_late m1) as Hl.
      destruct (late m1) as [m2 [[]|e]]; cbn [fst] in *; [done|].
      destruct Hl as (? & ? & ?). repeat split; cbn; congruence.
    - done. }
  destruct Hrest as (-> & _ & ->).
  unfold early, bind, at_step, modify.
  destruct (faults env DescribeError); [done|]. cbn [ret raise].
  destruct (faults env IncrementCount); [done|]. cbn [ret raise].
  destruct (faults env StoreLastError); [done|]. cbn [ret raise].
  destruct (faults env InvokeBreaker); done.
Qed.
End TrackError.

Definition all_fail_but_counting : Env :=
  {| now := 7; now_iso := "2024-01-01T00:00:07"; now_stamp := "20240101_000007";
     traceback := "NoneType: None";
     faults := fun s => match s with
                        | DescribeError | IncrementCount => None
                        | _ => Some (Exn "OSError" "disk full")
                        end |}.

(** X6.  When reading the exception and updating the counter succeed,
    [track_error] raises the count of the key [context:type] by exactly
    one (from zero for a new key) and leaves every other count as it was,
    whichever of the later steps fail. *)
Theorem X6_track_error_counts_once (env : Env) (error : exn) (context : string)
    (severity : ErrorSeverity) (m : ErrorMonitor) :
  faults env DescribeError = None -> faults env IncrementCount = None ->
  let m' := fst (track_error env error context severity m) in
  let error_key := context +:+ ":" +:+ exn_type error in
  error_counts m' !! error_key = Some (default 0 (error_counts m !! error_key) + 1) /\
  forall k, k <> error_key -> error_counts m' !! k = error_counts m !! k.
Proof.
  intros H1 H2. cbv zeta.
  destruct (track_error_core env error context severity m) as [-> _].
  rewrite H1, H2. split.
  - rewrite bump_lookup. by rewrite decide_True.
  - intros k Hk. rewrite bump_lookup. by rewrite decide_False.
Qed.

Lemma X6_track_error_counts_once_witness :
  let m' := fst (track_error all_fail_but_counting (Exn "ValueError" "boom") "db" HIGH
                   empty_monitor) in
  error_counts m' !! "db:ValueError"
    = Some (default 0 (error_counts empty_monitor !! "db:ValueError") + 1) /\
  forall k, k <> "db:ValueError" -> error_counts m' !! k = error_counts empty_monitor !! k.
Proof.
  apply (X6_track_error_counts_once all_fail_but_counting (Exn "ValueError" "boom") "db"
           HIGH empty_monitor); reflexivity.
Defined.

Lemma feed_lookup (env : Env) (context c : string) (bs : gmap string CircuitBreaker) :
  feed env context bs !! c
  = if decide (context = c) then record_failure (now env) <$> bs !! context else bs !! c.
Proof.
  unfold feed. destruct (decide (context = c)) as [<-|Hne].
  - destruct (bs !! context) eqn:E; [by rewrite lookup_insert_eq | by rewrite E].
  - destruct (bs !! context); [by rewrite lookup_insert_ne | done].
Qed.

(** X7.  [track_error] passes the failure to the breaker registered for
    the context, and to no other, exactly when none of the steps before
    that call fails; if one of them fails, the error is never reported to
    any breaker. *)
Theorem X7_track_error_feeds_the_breaker (env : Env) (error : exn) (context : string)
    (severity : ErrorSeverity) (m : ErrorMonitor) :
  let m' := fst (track_error env error context severity m) in
  (recorded env ->
     circuit_breakers m' !! context
       = record_failure (now env) <$> circuit_breakers m !! context /\
     forall c, c <> context -> circuit_breakers m' !! c = circuit_breakers m !! c) /\
  (~ recorded env -> circuit_breakers m' = circuit_breakers m).
Proof.
  cbv zeta. destruct (track_error_core env error context severity m) as [_ ->].
  unfold recorded. split.
  - intros (-> & -> & -> & ->). split.
    + rewrite feed_lookup. by rewrite decide_True.
    + intros c Hc. rewrite feed_lookup. by rewrite decide_False.
  - intros Hnot.
    destruct (faults env DescribeError); [done|].
    destruct (faults env IncrementCount); [done|].
    destruct (faults env StoreLastError); [done|].
    destruct (faults env InvokeBreaker); [done|].
    by destruct Hnot.
Qed.

Definition fault_free : Env :=
  {| now := 7; now_iso := "2024-01-01T00:00:07"; now_stamp := "20240101_000007";
     traceback := "NoneType: None"; faults := fun _ => None |}.

Lemma X7_track_error_feeds_the_breaker_witness :
  recorded fault_free /\
  let m := fst (register_circuit_breaker fault_free "db" 5 60 empty_monitor) in
  let m' := fst (track_error fault_free (Exn "ValueError" "boom") "db" HIGH m) in
  circuit_breakers m' !! "db" = record_failure 7 <$> circuit_breakers m !! "db" /\
  forall c, c <> "db" -> circuit_breakers m' !! c = circuit_breakers m !! c.
Proof.
  assert (H : recorded fault_free) by (by repeat split).
  split; [exact H|].
  apply (proj1 (X7_track_error_feeds_the_breaker fault_free (Exn "ValueError" "boom") "db"
                  HIGH (fst (register_circuit_breaker fault_free "db" 5 60 empty_monitor)))).
  exact H.
Defined.

(** Errors tracked one after the other for one context, each with its own
    surroundings. *)
Definition track_all (context : string) (calls : list (Env * exn * ErrorSeverity))
    (m : ErrorMonitor) : ErrorMonitor :=
  foldl (fun m '(env, error, severity) => fst (track_error env error context severity m))
        m calls.

Lemma track_all_breaker (context : string) (calls : list (Env * exn * ErrorSeverity))
    (m : ErrorMonitor) (cb : CircuitBreaker) :
  Forall (fun c => recorded (fst (fst c))) calls ->
  circuit_breakers m !! context = Some cb ->
  circuit_breakers (track_all context calls m) !! context
  = Some (record_failures (map (fun c => now (fst (fst c))) calls) cb).
Proof.
  intros Hrec. revert m cb.
  induction Hrec as [|[[env error] severity] calls Hr _ IH]; intros m cb Hcb; [done|].
  cbn [track_all foldl map fst]. apply IH.
  destruct (track_error_core env error context severity m) as [_ ->].
  cbn [fst] in Hr. destruct Hr as (-> & -> & -> & ->).
  rewrite feed_lookup, decide_True, Hcb by done. done.
Qed.

(** X8.  Errors tracked for a context trip its breaker at the threshold:
    after a breaker is registered for a new context and [n] errors are
    tracked there, each getting as far as the call into the breaker, the
    breaker has counted [n] failures and is OPEN exactly when [n] is
    positive and has reached the threshold. *)
Theorem X8_tracked_errors_trip_the_breaker (env0 : Env) (context : string)
    (threshold recovery : Z) (calls : list (Env * exn * ErrorSeverity)) (m : ErrorMonitor) :
  circuit_breakers m !! context = None ->
  Forall (fun c => recorded (fst (fst c))) calls ->
  let m1 := fst (register_circuit_breaker env0 context threshold recovery m) in
  exists cb,
    circuit_breakers (track_all context calls m1) !! context = Some cb /\
    failure_count cb = Z.of_nat (length calls) /\
    (state cb = OPEN <-> calls <> [] /\ threshold <= Z.of_nat (length calls)).
Proof.
  intros Hnew Hrec. cbv zeta.
  set (cb0 := Breaker.init (now env0) context threshold recovery 300).
  assert (Hreg : circuit_breakers
            (fst (register_circuit_breaker env0 context threshold recovery m)) !! context
          = Some cb0).
  { unfold register_circuit_breaker, bind, read, modify, ret. rewrite Hnew. cbn.
    apply lookup_insert_eq. }
  eexists. split; [by apply track_all_breaker|].
  destruct (record_failures_spec (map (fun c => now (fst (fst c))) calls) cb0) as [Hc Hs];
    [cbn; lia|].
  rewrite length_map in Hc, Hs.
  change (failure_count cb0) with 0 in Hc, Hs.
  change (failure_threshold cb0) with threshold in Hs.
  change (state cb0) with CLOSED in Hs.
  rewrite Hc, Hs. split; [lia|].
  destruct calls as [|c calls]; [split; [done | by intros [? _]]|].
  cbn [map]. destruct (0 + Z.of_nat (length (c :: calls)) >=? threshold) eqn:E;
    rewrite Z.geb_leb in E.
  - apply Z.leb_le in E. split; [intros _; split; [done | lia] | done].
  - apply Z.leb_gt in E. split; [done | intros [_ ?]; lia].
Qed.

Lemma X8_tracked_errors_trip_the_breaker_witness :
  let calls := replicate 5 (fault_free, Exn "ValueError" "boom", HIGH) in
  let m1 := fst (register_circuit_breaker fault_free "db" 5 60 empty_monitor) in
  exists cb,
    circuit_breakers (track_all "db" calls m1) !! "db" = Some cb /\
    failure_count cb = Z.of_nat (length calls) /\
    (state cb = OPEN <-> calls <> [] /\ 5 <= Z.of_nat (length calls)).
Proof.
  apply (X8_tracked_errors_trip_the_breaker fault_free "db" 5 60
           (replicate 5 (fault_free, Exn "ValueError" "boom", HIGH)) empty_monitor).
  - reflexivity.
  - repeat constructor.
Defined.

End Monitor.

(** ** Failover orchestrator ([ConnectionManager], connection_manager.py) *)

Module Orchestrator.
Import Monitor.
Local Open Scope eff_scope.

Inductive Dependency := Supabase | Pinecone.

(** Which constructor produced the object handed to the caller: the primary
    client of [supabase_init] / [pinecone_init], a client built from the
    backup credentials, or the local fallback engine. *)
Inductive Client :=
| PrimaryClient (d : Dependency)
| BackupClient (d : Dependency)
| LocalFallback (d : Dependency).

(** Every attempt the orchestrator makes to reach something outside the
    process. *)
Inductive io_event :=
| Construct (c : Client)
| Probe (c : Client).

Record Health := {
  healthy : bool;
  last_check : option string;
  last_success : option string;
  failure_count : Z
}.

Definition initial_health : Health :=
  {| healthy := false; last_check := None; last_success := None; failure_count := 0 |}.

Record World := {
  monitor : ErrorMonitor;
  connection_health : Dependency -> Health;
  io : list io_event;
  log : list (LogLevel * string)
}.

Definition set_monitor (m : ErrorMonitor) (w : World) : World :=
  {| monitor := m; connection_health := connection_health w; io := io w; log := log w |}.

Definition Dependency_eqb (a b : Dependency) : bool :=
  match a, b with
  | Supabase, Supabase | Pinecone, Pinecone => true
  | _, _ => false
  end.

Definition set_health (d : Dependency) (f : Health -> Health) (w : World) : World :=
  {| monitor := monitor w;
     connection_health := fun d' =>
       if Dependency_eqb d d' then f (connection_health w d') else connection_health w d';
     io := io w; log := log w |}.

Definition add_io (e : io_event) (w : World) : World :=
  {| monitor := monitor w; connection_health := connection_health w;
     io := io w ++ [e]; log := log w |}.

Definition add_log (l : LogLevel) (msg : string) (w : World) : World :=
  {| monitor := monitor w; connection_health := connection_health w;
     io := io w; log := log w ++ [(l, msg)] |}.

(** What the outside world answers during one call: the monitor's
    surroundings, whether building each client and probing it succeeds, and
    the backup credentials held by the key manager (empty when unset). *)
Record Net := {
  menv : Monitor.Env;
  construct : Client -> outcome unit;
  probe : Client -> outcome unit;
  get_backup_key : string -> string
}.

Definition truthy (s : string) : bool := negb (String.eqb s "").

Section Ladder.
Variable net : Net.

(** A call into the [error_monitor] singleton. *)
Definition on_monitor {A} (m : M ErrorMonitor A) : M World A :=
  fun w => let '(mon, r) := m (monitor w) in (set_monitor mon w, r).

Definition logger (l : LogLevel) (msg : string) : M World unit :=
  modify (add_log l msg).

(** Building a client, or running its probe: an attempt at I/O whose
    result the surroundings decide. *)
Definition do_construct (c : Client) : M World Client :=
  modify (add_io (Construct c)) ;;
  match construct net c with
  | Ok _ => ret c
  | Raised e => raise e
  end.

Definition do_probe (c : Client) : M World unit :=
  modify (add_io (Probe c)) ;;
  match probe net c with
  | Ok _ => ret tt
  | Raised e => raise e
  end.

(** [_test_supabase_connection] *)
Definition _test_supabase_connection (client : Client) : M World bool :=
  try_except
    (do_probe client ;; ret true)
    (fun e =>
       logger LError ("Supabase connection test failed: " +:+ exn_msg e) ;;
       raise e).

(** [_get_supabase_fallback] *)
Definition _get_supabase_fallback : M World Client :=
  let backup_url := get_backup_key net "SUPABASE_URL" in
  let backup_key := get_backup_key net "SUPABASE_KEY" in
  r <- (if truthy backup_url && truthy backup_key then
          try_except
            (client <- do_construct (BackupClient Supabase) ;;
             _test_supabase_connection client ;;
             logger LInfo "Using backup Supabase credentials successfully" ;;
             ret (Some client))
            (fun e =>
               logger LError ("Backup Supabase connection failed: " +:+ exn_msg e) ;;
               ret None)
        else ret None) ;;
  match r with
  | Some client => ret client
  | None =>
      logger LWarning "Using SQLite local fallback for Supabase" ;;
      do_construct (LocalFallback Supabase)
  end.

(** [get_supabase_client] *)
Definition get_supabase_client (use_fallback : bool) : M World Client :=
  closed <- on_monitor (circuit_is_closed (menv net) "supabase_connection") ;;
  if negb closed then
    if negb use_fallback then raise (RuntimeError "Supabase circuit breaker is open")
    else _get_supabase_fallback
  else
    try_except
      (modify (set_health Supabase (fun h =>
         {| healthy := healthy h; last_check := Some (now_iso (menv net));
            last_success := last_success h; failure_count := failure_count h |})) ;;
       client <- do_construct (PrimaryClient Supabase) ;;
       _test_supabase_connection client ;;
       modify (set_health Supabase (fun h =>
         {| healthy := true; last_check := last_check h;
            last_success := Some (now_iso (menv net)); failure_count := 0 |})) ;;
       on_monitor (record_success (menv net) "supabase_connection") ;;
       ret client)
      (fun e =>
         on_monitor (track_error (menv net) e "supabase_connection" HIGH) ;;
         modify (set_health Supabase (fun h =>
           {| healthy := false; last_check := last_check h;
              last_success := last_success h; failure_count := failure_count h + 1 |})) ;;
         if use_fallback then
           logger LWarning "Using Supabase fallback mechanism" ;;
           _get_supabase_fallback
         else raise e).

(** [_test_pinecone_connection] *)
Definition _test_pinecone_connection (client : Client) : M World bool :=
  try_except
    (do_probe client ;; ret true)
    (fun e =>
       logger LError ("Pinecone connection test failed: " +:+ exn_msg e) ;;
       raise e).

(** [_get_pinecone_fallback] *)
Definition _get_pinecone_fallback : M World Client :=
  let backup_key := get_backup_key net "PINECONE_API_KEY" in
  r <- (if truthy backup_key then
          try_except
            (client <- do_construct (BackupClient Pinecone) ;;
             do_probe client ;;
             logger LInfo "Using backup Pinecone credentials successfully" ;;
             ret (Some client))
            (fun e =>
               logger LError ("Backup Pinecone connection failed: " +:+ exn_msg e) ;;
               ret None)
        else ret None) ;;
  match r with
  | Some client => ret client
  | None =>
      logger LWarning "Using local fallback for Pinecone" ;;
      do_construct (LocalFallback Pinecone)
  end.

(** [get_pinecone_client] *)
Definition get_pinecone_client (use_fallback : bool) : M World Client :=
  closed <- on_monitor (circuit_is_closed (menv net) "pinecone_connection") ;;
  if negb closed then
    if negb use_fallback then raise (RuntimeError "Pinecone circuit breaker is open")
    else _get_pinecone_fallback
  else
    try_except
      (modify (set_health Pinecone (fun h =>
         {| healthy := healthy h; last_check := Some (now_iso (menv net));
            last_success := last_success h; failure_count := failure_count h |})) ;;
       client <- do_construct (PrimaryClient Pinecone) ;;
       _test_pinecone_connection client ;;
       modify (set_health Pinecone (fun h =>
         {| healthy := true; last_check := last_check h;
            last_success := Some (now_iso (menv net)); failure_count := 0 |})) ;;
       on_monitor (record_success (menv net) "pinecone_connection") ;;
       ret client)
      (fun e =>
         on_monitor (track_error (menv net) e "pinecone_connection" HIGH) ;;
         modify (set_health Pinecone (fun h =>
           {| healthy := false; last_check := last_check h;
              last_success := last_success h; failure_count := failure_count h + 1 |})) ;;
         if use_fallback then
           logger LWarning "Using Pinecone fallback mechanism" ;;
           _get_pinecone_fallback
         else raise e).
End Ladder.

(** *** Properties *)

Lemma allow_request_false (t : Z) (cb cb' : Breaker.CircuitBreaker) :
  Breaker.allow_request t cb = (false, cb') -> cb' = cb.
Proof.
  unfold Breaker.allow_request.
  destruct (Breaker.state cb); [congruence | | congruence].
  destruct (_ >? _); congruence.
Qed.

Lemma circuit_is_closed_total (env : Monitor.Env) (context : string) (m : ErrorMonitor) :
  exists m' b, circuit_is_closed env context m = (m', Ok b).
Proof.
  unfold circuit_is_closed, bind, read.
  destruct (circuit_breakers m !! context) as [cb|]; [|by eexists _, _].
  destruct (Breaker.allow_request (now env) cb) as [allowed cb']. by eexists _, _.
Qed.

(** A refusal by the breaker leaves the monitor exactly as it was. *)
Lemma circuit_is_closed_refusal (env : Monitor.Env) (context : string) (m : ErrorMonitor) :
  snd (circuit_is_closed env context m) = Ok false ->
  circuit_is_closed env context m = (m, Ok false).
Proof.
  unfold circuit_is_closed, bind, read.
  destruct (circuit_breakers m !! context) as [cb|] eqn:Hcb; [|discriminate].
  destruct (Breaker.allow_request (now env) cb) as [allowed cb'] eqn:Hallow.
  cbn. intros [= ->]. apply allow_request_false in Hallow as ->.
  unfold modify, ret, set_circuit_breakers. rewrite (insert_id _ _ _ Hcb).
  by destruct m.
Qed.

Lemma set_monitor_same (w : World) : set_monitor (monitor w) w = w.
Proof. by destruct w. Qed.

(** What "no silent degradation" means for one [get_*_client] method called
    with [use_fallback = False], from any world and under any answers of
    the surroundings: a returned client is the primary one; the only I/O
    attempted is building and probing the primary; when the breaker refuses,
    the call raises the "circuit open" error and the world is untouched;
    when the breaker lets the call through and building or probing the primary
    raises [e], the call raises that same [e]. *)
Definition no_silent_degradation (context : string) (primary : Client) (msg : string)
    (get_client : Net -> bool -> M World Client) : Prop :=
  forall (net : Net) (w : World),
    let gate := snd (circuit_is_closed (menv net) context (monitor w)) in
    let r := get_client net false w in
    (forall c, snd r = Ok c -> c = primary) /\
    (forall ev, ev ∈ io (fst r) ->
       ev ∈ io w \/ ev = Construct primary \/ ev = Probe primary) /\
    (gate = Ok false -> r = (w, Raised (RuntimeError msg))) /\
    (forall e, gate = Ok true ->
       construct net primary = Raised e \/
       (construct net primary = Ok tt /\ probe net primary = Raised e) ->
       snd r = Raised e).

Lemma elem_of_snoc {A} (l : list A) (x y : A) : y ∈ l ++ [x] -> y ∈ l \/ y = x.
Proof. rewrite elem_of_app, list_elem_of_singleton. tauto. Qed.

Ltac run_ladder H :=
  unfold _test_supabase_connection, _test_pinecone_connection, do_construct, do_probe,
    try_except, bind, modify, ret, raise, logger, on_monitor in H; cbn in H.

Ltac track_step H :=
  match type of H with
  | context [track_error ?env ?e ?ctx ?sev ?m] =>
      let Ht := fresh "Htrack" in
      destruct (track_error_never_raises env e ctx sev m) as (? & [] & Ht);
      rewrite Ht in H; cbn in H
  end.

(** The two methods have the same shape, so one script settles both: split
    on the breaker's answer, then on the results of building and probing
    the primary, using that [track_error] returns normally. *)
Ltac no_fallback get ctx primary :=
  let Hr := fresh "Hr" in
  unfold no_silent_degradation; intros net w; cbv zeta;
  remember (get net false w) as r eqn:Hr;
  unfold get in Hr; unfold bind at 1 in Hr; unfold on_monitor at 1 in Hr;
  destruct (circuit_is_closed_total (menv net) ctx (monitor w))
    as (mon & closed & Hgate);
  pose proof (circuit_is_closed_refusal (menv net) ctx (monitor w)) as Hrefuse;
  rewrite Hgate in Hr, Hrefuse; rewrite !Hgate; cbn [snd] in *;
  destruct closed; cbn [negb] in Hr;
  [ run_ladder Hr;
    destruct (construct net primary) as [[]|e1]; cbn in Hr;
      [destruct (probe net primary) as [[]|e2]; cbn in Hr |];
      try track_step Hr; subst r; cbn;
    repeat split; try discriminate; try congruence;
    first [ solve [intros ev Hev; repeat (apply elem_of_snoc in Hev as [Hev | ->]); auto]
          | solve [intros e _ [? | [? ?]]; congruence] ]
  | specialize (Hrefuse eq_refl); injection Hrefuse as ->;
    rewrite set_monitor_same in Hr; subst r; cbn;
    repeat split; try discriminate; auto ].

Lemma supabase_no_fallback :
  no_silent_degradation "supabase_connection" (PrimaryClient Supabase)
    "Supabase circuit breaker is open" get_supabase_client.
Proof. no_fallback get_supabase_client "supabase_connection" (PrimaryClient Supabase). Qed.

Lemma pinecone_no_fallback :
  no_silent_degradation "pinecone_connection" (PrimaryClient Pinecone)
    "Pinecone circuit breaker is open" get_pinecone_client.
Proof. no_fallback get_pinecone_client "pinecone_connection" (PrimaryClient Pinecone). Qed.

(** C5.  With [use_fallback = False] neither [get_supabase_client] nor
    [get_pinecone_client] ever hands back a backup-credential client or the
    local fallback engine, nor tries to build or probe one.  If the breaker
    refuses the request the call raises "... circuit breaker is open" and
    nothing at all has changed, so no I/O was attempted; if the breaker
    lets it through and the primary cannot be built or fails its probe, the
    exception it raised is the one the caller receives. *)
Theorem C5_no_fallback_no_silent_degradation :
  no_silent_degradation "supabase_connection" (PrimaryClient Supabase)
    "Supabase circuit breaker is open" get_supabase_client /\
  no_silent_degradation "pinecone_connection" (PrimaryClient Pinecone)
    "Pinecone circuit breaker is open" get_pinecone_client.
Proof. split; [apply supabase_no_fallback | apply pinecone_no_fallback]. Qed.

(** A concrete outage: every construction succeeds, every probe fails, and
    no backup credentials are configured. *)
Definition quiet : Monitor.Env :=
  {| now := 10; now_iso := "2024-01-01T00:00:10"; now_stamp := "20240101_000010";
     traceback := "NoneType: None"; faults := fun _ => None |}.

Definition outage : Net :=
  {| menv := quiet;
     construct := fun _ => Ok tt;
     probe := fun _ => Raised (Exn "ConnectionError" "unreachable");
     get_backup_key := fun _ => "" |}.

(** [ConnectionManager.__init__] on a fresh monitor. *)
Definition started : World :=
  {| monitor :=
       fst ((register_circuit_breaker quiet "supabase_connection" 5 60 ;;
             register_circuit_breaker quiet "pinecone_connection" 5 60)%eff empty_monitor);
     connection_health := fun _ => initial_health;
     io := []; log := [] |}.

(** The world after five failed attempts to get the Supabase client. *)
Definition tripped : World :=
  Nat.iter 5 (fun w => fst (get_supabase_client outage false w)) started.

Lemma C5_no_fallback_no_silent_degradation_witness :
  get_supabase_client outage false tripped
    = (tripped, Raised (RuntimeError "Supabase circuit breaker is open")) /\
  snd (get_pinecone_client outage false tripped)
    = Raised (Exn "ConnectionError" "unreachable").
Proof.
  destruct C5_no_fallback_no_silent_degradation as [Hs Hp]. split.
  - apply (Hs outage tripped). vm_compute. reflexivity.
  - apply (Hp outage tripped); [vm_compute; reflexivity |].
    right. split; reflexivity.
Defined.

(** *** The ladder as the design describes it *)

(** Whether backup credentials are configured for a dependency: a URL and
    a key for Supabase, an API key for Pinecone. *)
Definition has_backup (net : Net) (d : Dependency) : bool :=
  match d with
  | Supabase => truthy (get_backup_key net "SUPABASE_URL")
                && truthy (get_backup_key net "SUPABASE_KEY")
  | Pinecone => truthy (get_backup_key net "PINECONE_API_KEY")
  end.

(** Building a client and probing it: the attempts made and whether the
    client is usable. *)
Definition attempt (net : Net) (c : Client) : list io_event * outcome unit :=
  match construct net c with
  | Raised e => ([Construct c], Raised e)
  | Ok _ => ([Construct c; Probe c], probe net c)
  end.

(** Steps 4 and 5 of the design: the secondary credentials if configured
    and alive, otherwise the local engine. *)
Definition lower_rungs (net : Net) (d : Dependency) : list io_event * outcome Client :=
  let '(tried, usable) :=
    if has_backup net d then attempt net (BackupClient d) else ([], Raised (Exn "" "")) in
  match usable with
  | Ok _ => (tried, Ok (BackupClient d))
  | Raised _ =>
      (tried ++ [Construct (LocalFallback d)],
       match construct net (LocalFallback d) with
       | Ok _ => Ok (LocalFallback d)
       | Raised e => Raised e
       end)
  end.

Definition circuit_open (d : Dependency) : exn :=
  RuntimeError (match d with
                | Supabase => "Supabase circuit breaker is open"
                | Pinecone => "Pinecone circuit breaker is open"
                end).

(** Steps 1 to 5 of the design, given the breaker's answer: the I/O
    attempted, in order, and what the caller gets. *)
Definition ladder (net : Net) (d : Dependency) (allowed use_fallback : bool)
    : list io_event * outcome Client :=
  if negb allowed then
    if use_fallback then lower_rungs net d else ([], Raised (circuit_open d))
  else
    let '(tried, usable) := attempt net (PrimaryClient d) in
    match usable with
    | Ok _ => (tried, Ok (PrimaryClient d))
    | Raised e =>
        if use_fallback
        then (tried ++ fst (lower_rungs net d), snd (lower_rungs net d))
        else (tried, Raised e)
    end.

Definition context_of (d : Dependency) : string :=
  match d with
  | Supabase => "supabase_connection"
  | Pinecone => "pinecone_connection"
  end.

Definition get_client (d : Dependency) : Net -> bool -> M World Client :=
  match d with
  | Supabase => get_supabase_client
  | Pinecone => get_pinecone_client
  end.

(** The breaker's answer to the call, read off the monitor. *)
Definition allowed (net : Net) (d : Dependency) (w : World) : bool :=
  match snd (circuit_is_closed (menv net) (context_of d) (monitor w)) with
  | Ok b => b
  | Raised _ => true
  end.

Lemma app_snoc_assoc {A} (l k : list A) (x : A) : (l ++ k) ++ [x] = l ++ (k ++ [x]).
Proof. by rewrite <-app_assoc. Qed.

Ltac oracle net :=
  match goal with
  | |- context [construct net ?c] =>
      let E := fresh "Hc" in destruct (construct net c) as [[]|?] eqn:E; cbn
  | |- context [probe net ?c] =>
      let E := fresh "Hp" in destruct (probe net c) as [[]|?] eqn:E; cbn
  | |- context [truthy (get_backup_key net ?k)] =>
      let E := fresh "Hk" in destruct (truthy (get_backup_key net k)) eqn:E; cbn
  | |- context [track_error ?env ?e ?ctx ?sev ?m] =>
      let Ht := fresh "Htrack" in
      destruct (track_error_never_raises env e ctx sev m) as (? & [] & Ht);
      rewrite Ht; cbn
  end.

Ltac climb get d :=
  let Hr := fresh "Hr" in
  intros net w use_fallback; cbv zeta;
  unfold allowed; cbn [get_client context_of];
  destruct (circuit_is_closed_total (menv net) (context_of d) (monitor w))
    as (mon & closed & Hgate);
  cbn [context_of] in Hgate; rewrite Hgate; cbn [snd];
  remember (get net use_fallback w) as r eqn:Hr; revert Hr;
  unfold get; unfold bind at 1; unfold on_monitor at 1; rewrite Hgate;
  unfold ladder, lower_rungs, attempt, has_backup, circuit_open,
    _get_supabase_fallback, _get_pinecone_fallback,
    _test_supabase_connection, _test_pinecone_connection, do_construct, do_probe,
    try_except, bind, modify, ret, raise, logger, on_monitor;
  destruct closed, use_fallback; cbn;
  repeat oracle net;
  intros ->; cbn; rewrite <-?app_assoc, ?app_nil_r; done.

Lemma supabase_ladder :
  forall (net : Net) (w : World) (use_fallback : bool),
    let r := get_client Supabase net use_fallback w in
    let l := ladder net Supabase (allowed net Supabase w) use_fallback in
    snd r = snd l /\ io (fst r) = io w ++ fst l.
Proof. climb get_supabase_client Supabase. Qed.

Lemma pinecone_ladder :
  forall (net : Net) (w : World) (use_fallback : bool),
    let r := get_client Pinecone net use_fallback w in
    let l := ladder net Pinecone (allowed net Pinecone w) use_fallback in
    snd r = snd l /\ io (fst r) = io w ++ fst l.
Proof. climb get_pinecone_client Pinecone. Qed.

Lemma get_client_ladder (d : Dependency) (net : Net) (w : World) (use_fallback : bool) :
  let r := get_client d net use_fallback w in
  let l := ladder net d (allowed net d w) use_fallback in
  snd r = snd l /\ io (fst r) = io w ++ fst l.
Proof. destruct d; [apply supabase_ladder | apply pinecone_ladder]. Qed.

(** X9.  Both [get_*_client] methods climb the ladder of the design, for
    either value of [use_fallback]: what the caller receives, and the
    clients built and probed on the way, in order, are those of the five
    steps (breaker check; primary; secondary credentials if configured;
    local engine), whatever the state of the monitor and whichever of its
    recording steps fail. *)
Theorem X9_get_client_follows_the_ladder (d : Dependency) (net : Net) (w : World)
    (use_fallback : bool) :
  snd (get_client d net use_fallback w)
    = snd (ladder net d (allowed net d w) use_fallback) /\
  io (fst (get_client d net use_fallback w))
    = io w ++ fst (ladder net d (allowed net d w) use_fallback).
Proof. apply get_client_ladder. Qed.

(** X10.  With [use_fallback = True] the only exception that can reach the
    caller is the one raised while building the local engine: failures of
    the primary and of the secondary credentials are absorbed. *)
Theorem X10_only_the_local_engine_can_fail (d : Dependency) (net : Net) (w : World)
    (e : exn) :
  snd (get_client d net true w) = Raised e ->
  construct net (LocalFallback d) = Raised e.
Proof.
  destruct (get_client_ladder d net w true) as [-> _].
  unfold ladder, lower_rungs, attempt.
  destruct (allowed net d w), (has_backup net d); cbn;
    repeat match goal with
           | |- context [construct net ?c] => destruct (construct net c) as [[]|?]; cbn
           | |- context [probe net ?c] => destruct (probe net c) as [[]|?]; cbn
           end; congruence.
Qed.

(** A net on which nothing can be built, not even the local engine. *)
Definition nothing_works : Net :=
  {| menv := quiet;
     construct := fun c => match c with
                           | LocalFallback _ => Raised (Exn "OSError" "read-only file system")
                           | _ => Raised (Exn "ConnectionError" "unreachable")
                           end;
     probe := fun _ => Raised (Exn "ConnectionError" "unreachable");
     get_backup_key := fun _ => "backup" |}.

Lemma X10_only_the_local_engine_can_fail_witness :
  snd (get_client Supabase nothing_works true started)
    = Raised (Exn "OSError" "read-only file system") /\
  construct nothing_works (LocalFallback Supabase)
    = Raised (Exn "OSError" "read-only file system").
Proof.
  assert (H : snd (get_client Supabase nothing_works true started)
              = Raised (Exn "OSError" "read-only file system"))
    by (vm_compute; reflexivity).
  split; [exact H|].
  apply (X10_only_the_local_engine_can_fail Supabase nothing_works started _ H).
Defined.

(** X11.  A breaker that refuses shields the primary.  The call adds to
    the log of attempts exactly those of the lower rungs when fallback is
    requested, and nothing otherwise; among what it adds there is neither
    the building nor the probing of the primary client. *)
Theorem X11_open_breaker_shields_the_primary (d : Dependency) (net : Net) (w : World)
    (use_fallback : bool) :
  allowed net d w = false ->
  let attempted := if use_fallback then fst (lower_rungs net d) else [] in
  io (fst (get_client d net use_fallback w)) = io w ++ attempted /\
  Forall (fun ev => ev <> Construct (PrimaryClient d) /\ ev <> Probe (PrimaryClient d))
         attempted.
Proof.
  intros Hgate attempted. destruct (get_client_ladder d net w use_fallback) as [_ ->].
  rewrite Hgate. unfold attempted, ladder. cbn [negb].
  split; [by destruct use_fallback|].
  destruct use_fallback; [|constructor].
  unfold lower_rungs, attempt.
  destruct (has_backup net d); cbn;
    repeat match goal with
           | |- context [construct net ?c] => destruct (construct net c) as [[]|?]; cbn
           | |- context [probe net ?c] => destruct (probe net c) as [[]|?]; cbn
           end;
    repeat constructor; discriminate.
Qed.

Lemma X11_open_breaker_shields_the_primary_witness :
  allowed outage Supabase tripped = false /\
  let attempted := fst (lower_rungs outage Supabase) in
  io (fst (get_client Supabase outage true tripped)) = io tripped ++ attempted /\
  Forall (fun ev => ev <> Construct (PrimaryClient Supabase) /\
                    ev <> Probe (PrimaryClient Supabase))
         attempted.
Proof.
  assert (H : allowed outage Supabase tripped = false) by (vm_compute; reflexivity).
  split; [exact H|].
  apply (X11_open_breaker_shields_the_primary Supabase outage tripped true H).
Defined.

Lemma Dependency_eqb_eq (a b : Dependency) : Dependency_eqb a b = true <-> a = b.
Proof. destruct a, b; cbn; split; congruence. Qed.

(** The breaker of a context once a request has been let through and its
    success recorded. *)
Definition probed (t : Z) (cb : Breaker.CircuitBreaker) : Breaker.CircuitBreaker :=
  Breaker.record_success t (snd (Breaker.allow_request t cb)).

Lemma probed_closed (t : Z) (cb : Breaker.CircuitBreaker) :
  fst (Breaker.allow_request t cb) = true ->
  Breaker.state (probed t cb) = Breaker.CLOSED /\
  (Breaker.state cb <> Breaker.CLOSED -> Breaker.failure_count (probed t cb) = 0).
Proof.
  unfold probed, Breaker.allow_request, Breaker.record_success.
  destruct (Breaker.state cb) eqn:Hs; cbn.
  - rewrite Hs. cbn. by rewrite Hs.
  - destruct (_ >? _); [|discriminate]. cbn. done.
  - rewrite Hs. cbn. done.
Qed.

Ltac through_gate net d w :=
  unfold allowed, get_client; cbn [context_of];
  unfold get_supabase_client, get_pinecone_client;
  unfold on_monitor, circuit_is_closed, bind, read;
  destruct (circuit_breakers (monitor w) !! context_of d) as [cb|] eqn:Hcb;
  cbn [context_of] in Hcb; rewrite Hcb;
  [destruct (Breaker.allow_request (now (menv net)) cb) as [ok cb'] eqn:Hallow|];
  cbn [modify ret snd fst].

(** After a call in which the breaker lets the request through and the
    primary is built and answers its probe. *)
Lemma primary_success (d : Dependency) (net : Net) (w : World) (use_fallback : bool) :
  allowed net d w = true ->
  construct net (PrimaryClient d) = Ok tt ->
  probe net (PrimaryClient d) = Ok tt ->
  let w' := fst (get_client d net use_fallback w) in
  connection_health w' d
    = {| healthy := true; last_check := Some (now_iso (menv net));
         last_success := Some (now_iso (menv net)); failure_count := 0 |} /\
  (forall d', d' <> d -> connection_health w' d' = connection_health w d') /\
  circuit_breakers (monitor w') !! context_of d
    = probed (now (menv net)) <$> circuit_breakers (monitor w) !! context_of d /\
  error_counts (monitor w') = error_counts (monitor w).
Proof.
  destruct d;
    [through_gate net Supabase w | through_gate net Pinecone w];
    intros Hok Hc Hp; cbn in Hok; try subst ok;
    unfold _test_supabase_connection, _test_pinecone_connection, do_construct, do_probe,
      try_except, bind, modify, ret, raise, logger, on_monitor, Monitor.record_success;
    cbn; rewrite Hc; cbn; rewrite Hp; cbn.
  all: rewrite ?lookup_insert_eq; cbn; rewrite ?lookup_insert_eq, ?Hcb; cbn.
  all: unfold probed; rewrite ?Hallow; cbn [snd].
  all: split_and!; try done.
  all: intros d' Hd'; by destruct d'.
Qed.

Ltac tracked :=
  match goal with
  | |- context [track_error ?env ?e ?ctx ?sev ?m] =>
      let Ht := fresh "Htrack" in
      let m1 := fresh "m1" in
      destruct (track_error_never_raises env e ctx sev m) as (m1 & [] & Ht);
      rewrite !Ht; cbn
  end.

Ltac down net :=
  repeat match goal with
         | |- context [construct net ?c] => destruct (construct net c) as [[]|?]; cbn
         | |- context [probe net ?c] => destruct (probe net c) as [[]|?]; cbn
         | |- context [truthy (get_backup_key net ?k)] =>
             destruct (truthy (get_backup_key net k)); cbn
         end.

(** After a call in which the breaker lets the request through and the
    primary cannot be built or fails its probe with [e]. *)
Lemma primary_failure (d : Dependency) (net : Net) (w : World) (use_fallback : bool)
    (e : exn) :
  allowed net d w = true ->
  construct net (PrimaryClient d) = Raised e \/
  (construct net (PrimaryClient d) = Ok tt /\ probe net (PrimaryClient d) = Raised e) ->
  let w' := fst (get_client d net use_fallback w) in
  connection_health w' d
    = {| healthy := false; last_check := Some (now_iso (menv net));
         last_success := last_success (connection_health w d);
         failure_count := failure_count (connection_health w d) + 1 |} /\
  (forall d', d' <> d -> connection_health w' d' = connection_health w d') /\
  monitor w'
    = fst (track_error (menv net) e (context_of d) HIGH
             (fst (circuit_is_closed (menv net) (context_of d) (monitor w)))).
Proof.
  destruct d;
    [through_gate net Supabase w | through_gate net Pinecone w];
    intros Hok Hfail; cbn in Hok; try subst ok;
    unfold _get_supabase_fallback, _get_pinecone_fallback,
      _test_supabase_connection, _test_pinecone_connection, do_construct, do_probe,
      try_except, bind, modify, ret, raise, logger, on_monitor, Monitor.record_success;
    cbn; (destruct Hfail as [Hc | [Hc Hp]]; rewrite Hc; cbn; [|rewrite Hp; cbn]);
    tracked; destruct use_fallback; cbn; down net.
  all: split_and!; try done.
  all: intros d' Hd'; by destruct d'.
Qed.

Lemma allowed_lookup (net : Net) (d : Dependency) (w : World) (cb : Breaker.CircuitBreaker) :
  circuit_breakers (monitor w) !! context_of d = Some cb ->
  allowed net d w = fst (Breaker.allow_request (now (menv net)) cb).
Proof.
  intros Hcb. unfold allowed, circuit_is_closed, bind, read. rewrite Hcb.
  by destruct (Breaker.allow_request _ cb).
Qed.

(** X12.  When the breaker lets the request through and the primary is
    built and answers its probe, the caller gets the primary client, the
    dependency is marked healthy with its failure count back at zero, and
    its breaker is CLOSED afterwards -- with a cleared failure count if
    it was recovering. *)
Theorem X12_successful_probe_closes_the_breaker (d : Dependency) (net : Net) (w : World)
    (use_fallback : bool) (cb : Breaker.CircuitBreaker) :
  circuit_breakers (monitor w) !! context_of d = Some cb ->
  allowed net d w = true ->
  construct net (PrimaryClient d) = Ok tt ->
  probe net (PrimaryClient d) = Ok tt ->
  let r := get_client d net use_fallback w in
  snd r = Ok (PrimaryClient d) /\
  healthy (connection_health (fst r) d) = true /\
  failure_count (connection_health (fst r) d) = 0 /\
  exists cb',
    circuit_breakers (monitor (fst r)) !! context_of d = Some cb' /\
    Breaker.state cb' = Breaker.CLOSED /\
    (Breaker.state cb <> Breaker.CLOSED -> Breaker.failure_count cb' = 0).
Proof.
  intros Hcb Hok Hc Hp. cbv zeta.
  destruct (primary_success d net w use_fallback Hok Hc Hp) as (Hh & _ & Hb & _).
  destruct (get_client_ladder d net w use_fallback) as [-> _].
  rewrite Hh, Hb, Hcb, Hok. unfold ladder, attempt. rewrite Hc, Hp. cbn.
  split_and!; try done. eexists. split; [done|].
  apply probed_closed. by rewrite <-(allowed_lookup net d w).
Qed.

(** A net on which everything works, read at tick 100, and the world in
    which five failed attempts have tripped the Supabase breaker. *)
Definition later : Monitor.Env :=
  {| now := 100; now_iso := "2024-01-01T00:01:40"; now_stamp := "20240101_000140";
     traceback := "NoneType: None"; faults := fun _ => None |}.

Definition recovered : Net :=
  {| menv := later; construct := fun _ => Ok tt; probe := fun _ => Ok tt;
     get_backup_key := fun _ => "" |}.

Definition tripped_breaker : Breaker.CircuitBreaker :=
  default (Breaker.init 0 "" 0 0 0)
    (circuit_breakers (monitor tripped) !! "supabase_connection").

Lemma X12_successful_probe_closes_the_breaker_witness :
  Breaker.state tripped_breaker = Breaker.OPEN /\
  let r := get_client Supabase recovered true tripped in
  snd r = Ok (PrimaryClient Supabase) /\
  healthy (connection_health (fst r) Supabase) = true /\
  failure_count (connection_health (fst r) Supabase) = 0 /\
  exists cb',
    circuit_breakers (monitor (fst r)) !! "supabase_connection" = Some cb' /\
    Breaker.state cb' = Breaker.CLOSED /\
    (Breaker.state tripped_breaker <> Breaker.CLOSED -> Breaker.failure_count cb' = 0).
Proof.
  split; [vm_compute; reflexivity|].
  apply (X12_successful_probe_closes_the_breaker Supabase recovered tripped true
           tripped_breaker); vm_compute; reflexivity.
Defined.

Lemma gate_effect (env : Monitor.Env) (context : string) (m : ErrorMonitor) :
  let m' := fst (circuit_is_closed env context m) in
  error_counts m' = error_counts m /\
  circuit_breakers m' !! context
    = (fun cb => snd (Breaker.allow_request (now env) cb)) <$> circuit_breakers m !! context.
Proof.
  cbv zeta. unfold circuit_is_closed, bind, read.
  destruct (circuit_breakers m !! context) as [cb|] eqn:Hcb; cbn; [|by rewrite Hcb].
  destruct (Breaker.allow_request (now env) cb) as [ok cb'] eqn:Ha. cbn.
  by rewrite lookup_insert_eq.
Qed.

(** X13.  When the breaker lets the request through and the primary cannot
    be built or fails its probe, then -- with or without fallback -- the
    dependency is marked unhealthy, its failure count goes up by one, the
    other dependency's health is untouched, and, provided the monitor gets
    as far as its call into the breaker, the error is counted once under
    [context:type] and the context's breaker records the failure. *)
Theorem X13_failed_probe_is_recorded (d : Dependency) (net : Net) (w : World)
    (use_fallback : bool) (e : exn) :
  allowed net d w = true ->
  construct net (PrimaryClient d) = Raised e \/
  (construct net (PrimaryClient d) = Ok tt /\ probe net (PrimaryClient d) = Raised e) ->
  let w' := fst (get_client d net use_fallback w) in
  let error_key := context_of d +:+ ":" +:+ exn_type e in
  healthy (connection_health w' d) = false /\
  failure_count (connection_health w' d) = failure_count (connection_health w d) + 1 /\
  (forall d', d' <> d -> connection_health w' d' = connection_health w d') /\
  (recorded (menv net) ->
     error_counts (monitor w') !! error_key
       = Some (default 0 (error_counts (monitor w) !! error_key) + 1) /\
     circuit_breakers (monitor w') !! context_of d
       = (fun cb => Breaker.record_failure (now (menv net))
                      (snd (Breaker.allow_request (now (menv net)) cb)))
         <$> circuit_breakers (monitor w) !! context_of d).
Proof.
  intros Hok Hfail. cbv zeta.
  destruct (primary_failure d net w use_fallback e Hok Hfail) as (Hh & Hother & Hm).
  rewrite Hh, Hm. split_and!; try done.
  intros (H1 & H2 & H3 & H4).
  destruct (track_error_core (menv net) e (context_of d) HIGH
              (fst (circuit_is_closed (menv net) (context_of d) (monitor w)))) as [-> ->].
  destruct (gate_effect (menv net) (context_of d) (monitor w)) as [Hcounts Hbreaker].
  rewrite H1, H2, H3, H4, Hcounts. split.
  - by rewrite bump_lookup, decide_True.
  - rewrite feed_lookup, decide_True, Hbreaker by done.
    by destruct (circuit_breakers (monitor w) !! context_of d).
Qed.

Lemma X13_failed_probe_is_recorded_witness :
  let w' := fst (get_client Supabase outage true started) in
  healthy (connection_health w' Supabase) = false /\
  failure_count (connection_health w' Supabase)
    = failure_count (connection_health started Supabase) + 1 /\
  (forall d', d' <> Supabase -> connection_health w' d' = connection_health started d') /\
  (recorded quiet ->
     error_counts (monitor w') !! "supabase_connection:ConnectionError"
       = Some (default 0 (error_counts (monitor started)
                            !! "supabase_connection:ConnectionError") + 1) /\
     circuit_breakers (monitor w') !! "supabase_connection"
       = (fun cb => Breaker.record_failure 10 (snd (Breaker.allow_request 10 cb)))
         <$> circuit_breakers (monitor started) !! "supabase_connection").
Proof.
  apply (X13_failed_probe_is_recorded Supabase outage started true
           (Exn "ConnectionError" "unreachable")).
  - vm_compute. reflexivity.
  - right. split; reflexivity.
Defined.

(** *** Health reporting *)

(** The dictionary returned by [get_connection_health]; the breaker
    states are read from the breakers registered by [__init__]. *)
Record HealthReport := {
  supabase : Health;
  pinecone : Health;
  supabase_circuit : option Breaker.CircuitState;
  pinecone_circuit : option Breaker.CircuitState
}.

(** [get_connection_health] *)
Definition get_connection_health : M World HealthReport :=
  (w <- read ;;
   ret {| supabase := connection_health w Supabase;
          pinecone := connection_health w Pinecone;
          supabase_circuit :=
            Breaker.state <$> circuit_breakers (monitor w) !! "supabase_connection";
          pinecone_circuit :=
            Breaker.state <$> circuit_breakers (monitor w) !! "pinecone_connection" |})%eff.

(** [check_all_connections]: the health report, or the message of the
    [{"status": "error"}] answer. *)
Definition check_all_connections (net : Net) : M World (HealthReport + string) :=
  try_except
    (try_except
       (get_supabase_client net false ;;
        logger LInfo "Supabase connection is healthy")
       (fun e => logger LError ("Supabase connection check failed: " +:+ exn_msg e)) ;;
     try_except
       (get_pinecone_client net false ;;
        logger LInfo "Pinecone connection is healthy")
       (fun e => logger LError ("Pinecone connection check failed: " +:+ exn_msg e)) ;;
     report <- get_connection_health ;;
     ret (inl report))%eff
    (fun e =>
       (logger LError ("Error checking connections: " +:+ exn_msg e) ;;
        ret (inr (exn_msg e)))%eff).

Definition primary_event (ev : io_event) : Prop :=
  exists d, ev = Construct (PrimaryClient d) \/ ev = Probe (PrimaryClient d).

(** One of the two guarded checks of [check_all_connections]. *)
Lemma guarded_check (d : Dependency) (net : Net) (msg_ok msg_failed : string) (w : World) :
  exists w',
    try_except
      (bind (get_client d net false) (fun _ => logger LInfo msg_ok))
      (fun e => logger LError (msg_failed +:+ exn_msg e)) w = (w', Ok tt) /\
    forall ev, ev ∈ io w' -> ev ∈ io w \/ primary_event ev.
Proof.
  assert (Hio : forall ev, ev ∈ io (fst (get_client d net false w)) ->
                  ev ∈ io w \/ primary_event ev).
  { intros ev Hev.
    assert (H : ev ∈ io w \/ ev = Construct (PrimaryClient d) \/ ev = Probe (PrimaryClient d)).
    { destruct d; [by apply (supabase_no_fallback net w) | by apply (pinecone_no_fallback net w)]. }
    destruct H as [? | H]; [by left | right; by exists d]. }
  unfold try_except, bind, logger, modify.
  destruct (get_client d net false w) as [w1 [c|e]]; cbn in *; eauto.
Qed.

(** X14.  [check_all_connections] never raises and always answers with
    the health report of the world it leaves behind, never with the error
    status; on the way it builds and probes primary clients only. *)
Theorem X14_check_all_connections_reports (net : Net) (w : World) :
  exists w' report,
    check_all_connections net w = (w', Ok (inl report)) /\
    get_connection_health w' = (w', Ok report) /\
    forall ev, ev ∈ io w' -> ev ∈ io w \/ primary_event ev.
Proof.
  destruct (guarded_check Supabase net "Supabase connection is healthy"
              "Supabase connection check failed: " w) as (w1 & H1 & Hio1).
  destruct (guarded_check Pinecone net "Pinecone connection is healthy"
              "Pinecone connection check failed: " w1) as (w2 & H2 & Hio2).
  cbn [get_client] in H1, H2.
  exists w2. eexists. unfold check_all_connections.
  unfold try_except at 1. unfold bind at 1. rewrite H1.
  unfold bind at 1. rewrite H2. cbn. split_and!; [reflexivity | reflexivity |].
  intros ev [Hev | Hev]%Hio2; [by apply Hio1 | by right].
Qed.

End Orchestrator.

(** ** Python containers *)

(** [sorted(l, key=...)] and [list.sort(key=...)] are stable: elements with
    equal keys keep their relative order.  For a total preorder there is
    exactly one such result; it is computed here by insertion.  [le x y]
    says that [x] may stand before [y]. *)
Section StableSort.
Context {A : Type}.
Variable le : A -> A -> bool.

Fixpoint sort_insert (x : A) (l : list A) : list A :=
  match l with
  | [] => [x]
  | y :: l' => if le x y then x :: y :: l' else y :: sort_insert x l'
  end.

Definition stable_sort (l : list A) : list A := foldr sort_insert [] l.
End StableSort.

(** A [dict] with string keys, as the list of its items in insertion order. *)
Section Dict.
Context {A : Type}.

Fixpoint dict_get (k : string) (d : list (string * A)) : option A :=
  match d with
  | [] => None
  | (k', v) :: d' => if String.eqb k k' then Some v else dict_get k d'
  end.

(** [k in d] *)
Definition dict_mem (k : string) (d : list (string * A)) : bool :=
  match dict_get k d with Some _ => true | None => false end.

(** [d[k] = v]: an existing key keeps its place, a new one goes last. *)
Fixpoint dict_set (k : string) (v : A) (d : list (string * A)) : list (string * A) :=
  match d with
  | [] => [(k, v)]
  | (k', v') :: d' =>
      if String.eqb k k' then (k, v) :: d' else (k', v') :: dict_set k v d'
  end.

Definition dict_remove (k : string) (d : list (string * A)) : list (string * A) :=
  List.filter (fun p => negb (String.eqb k (fst p))) d.

(** [del d[k]]: [None] stands for the [KeyError] of a missing key. *)
Definition dict_del (k : string) (d : list (string * A)) : option (list (string * A)) :=
  if dict_mem k d then Some (dict_remove k d) else None.

Definition dict_keys (d : list (string * A)) : list string := map fst d.
End Dict.

Section StableSortFacts.
Context {A : Type}.
Variable le : A -> A -> bool.

Lemma sort_insert_Permutation (x : A) (l : list A) : sort_insert le x l ≡ₚ x :: l.
Proof.
  induction l as [|y l IH]; cbn; [done|].
  destruct (le x y); [done|]. rewrite IH. apply Permutation_swap.
Qed.

Lemma stable_sort_Permutation (l : list A) : stable_sort le l ≡ₚ l.
Proof.
  induction l as [|x l IH]; cbn; [done|].
  rewrite sort_insert_Permutation. by rewrite IH.
Qed.
End StableSortFacts.

Section DictFacts.
Context {A : Type}.
Implicit Types (d : list (string * A)) (k j : string).

Lemma dict_get_set_eq k (v : A) d : dict_get k (dict_set k v d) = Some v.
Proof.
  induction d as [|[k' v'] d IH]; cbn.
  - by rewrite String.eqb_refl.
  - destruct (String.eqb k k') eqn:E; cbn; rewrite ?String.eqb_refl, ?E; done.
Qed.

Lemma dict_get_set_ne k j (v : A) d : k ≠ j -> dict_get j (dict_set k v d) = dict_get j d.
Proof.
  intros Hne. induction d as [|[k' v'] d IH]; cbn.
  - destruct (String.eqb j k) eqn:E; [|done]. apply String.eqb_eq in E. congruence.
  - destruct (String.eqb k k') eqn:E; cbn.
    + apply String.eqb_eq in E as <-.
      destruct (String.eqb j k) eqn:E'; [|done]. apply String.eqb_eq in E'. congruence.
    + by rewrite IH.
Qed.

Lemma dict_get_remove_eq k d : dict_get k (dict_remove k d) = None.
Proof.
  unfold dict_remove. induction d as [|[k' v'] d IH]; cbn; [done|].
  destruct (String.eqb k k') eqn:E; cbn; [done|]. by rewrite E.
Qed.

Lemma dict_get_remove_ne k j d : k ≠ j -> dict_get j (dict_remove k d) = dict_get j d.
Proof.
  intros Hne. unfold dict_remove. induction d as [|[k' v'] d IH]; cbn; [done|].
  destruct (String.eqb k k') eqn:E; cbn.
  - apply String.eqb_eq in E as <-.
    destruct (String.eqb j k) eqn:E'; [|done]. apply String.eqb_eq in E'. congruence.
  - by rewrite IH.
Qed.

Lemma dict_get_None k d : dict_get k d = None <-> k ∉ dict_keys d.
Proof.
  induction d as [|[k' v'] d IH]; cbn.
  - split; [intros _; apply not_elem_of_nil | done].
  - rewrite not_elem_of_cons. destruct (String.eqb k k') eqn:E.
    + apply String.eqb_eq in E. split; [done | tauto].
    + apply String.eqb_neq in E. rewrite IH. tauto.
Qed.

Lemma dict_get_is_Some k d : is_Some (dict_get k d) <-> k ∈ dict_keys d.
Proof.
  rewrite <-not_eq_None_Some, dict_get_None.
  destruct (decide (k ∈ dict_keys d)); tauto.
Qed.

Lemma dict_keys_set k (v : A) d :
  dict_keys (dict_set k v d) = if dict_mem k d then dict_keys d else dict_keys d ++ [k].
Proof.
  unfold dict_mem, dict_keys. induction d as [|[k' v'] d IH]; cbn; [done|].
  destruct (String.eqb k k') eqn:E; cbn.
  - apply String.eqb_eq in E as <-. done.
  - rewrite IH. by destruct (dict_get k d).
Qed.

Lemma NoDup_dict_set k (v : A) d : NoDup (dict_keys d) -> NoDup (dict_keys (dict_set k v d)).
Proof.
  intros Hnd. rewrite dict_keys_set. unfold dict_mem.
  destruct (dict_get k d) eqn:E; [done|].
  apply dict_get_None in E. apply NoDup_app. split_and!; [done | | apply NoDup_singleton].
  intros x Hx ->%list_elem_of_singleton. done.
Qed.

Lemma dict_keys_remove k d :
  dict_keys (dict_remove k d) = List.filter (fun j => negb (String.eqb k j)) (dict_keys d).
Proof.
  unfold dict_remove, dict_keys. induction d as [|[k' v'] d IH]; cbn; [done|].
  destruct (String.eqb k k'); cbn; by rewrite IH.
Qed.

Lemma NoDup_dict_remove k d : NoDup (dict_keys d) -> NoDup (dict_keys (dict_remove k d)).
Proof.
  rewrite dict_keys_remove. induction (dict_keys d) as [|j l IH]; cbn; [done|].
  rewrite NoDup_cons. intros [Hj Hl]. destruct (String.eqb k j); cbn; [by apply IH|].
  apply NoDup_cons. split; [|by apply IH].
  rewrite list_elem_of_In, filter_In, <-list_elem_of_In. tauto.
Qed.
End DictFacts.

Section StableSortOrder.
Context {A : Type}.
Variable le : A -> A -> bool.
Hypothesis le_total : forall x y, le x y = false -> le y x = true.
Hypothesis le_trans : forall x y z, le x y = true -> le y z = true -> le x z = true.

(** The order of the result: sorted by [le], and two elements that [le]
    does not separate stand as they stood in the input, here read off a
    relation [before] by which the input was sorted. *)
Definition ranked_before (before : A -> A -> Prop) (x y : A) : Prop :=
  le x y = true /\ (le y x = true -> before x y).

Lemma sort_insert_StronglySorted (before : A -> A -> Prop) (x : A) (s : list A) :
  StronglySorted (ranked_before before) s ->
  Forall (before x) s ->
  StronglySorted (ranked_before before) (sort_insert le x s).
Proof.
  induction s as [|y s IH]; intros Hs Hx; cbn.
  - repeat constructor.
  - apply StronglySorted_inv in Hs as [Hs Hy].
    apply Forall_cons in Hx as [Hxy Hxs].
    destruct (le x y) eqn:Hle.
    + constructor; [by constructor|].
      constructor; [by split|].
      rewrite Forall_forall in Hy, Hxs |- *. intros z Hz.
      split; [|intros _; by apply Hxs].
      destruct (Hy z Hz) as [Hyz _]. by eapply le_trans.
    + constructor; [by apply IH|].
      rewrite Forall_forall in Hy |- *. intros z Hz.
      rewrite sort_insert_Permutation in Hz. apply elem_of_cons in Hz as [-> | Hz].
      * split; [by apply le_total | congruence].
      * by apply Hy.
Qed.

Lemma stable_sort_StronglySorted (before : A -> A -> Prop) (l : list A) :
  StronglySorted before l ->
  StronglySorted (ranked_before before) (stable_sort le l).
Proof.
  induction l as [|x l IH]; intros Hl; [constructor|].
  apply StronglySorted_inv in Hl as [Hl Hx].
  change (stable_sort le (x :: l)) with (sort_insert le x (stable_sort le l)).
  apply sort_insert_StronglySorted; [by apply IH|].
  rewrite Forall_forall in Hx |- *. intros z Hz. apply Hx.
  by rewrite stable_sort_Permutation in Hz.
Qed.
End StableSortOrder.

Section StableSortMap.
Context {A B : Type}.


End StableSortMap.


(** [l[:k]]: a negative [k] counts from the end. *)
Definition slice_to {A} (k : Z) (l : list A) : list A :=
  if k <? 0 then firstn (length l - Z.to_nat (- k)) l else firstn (Z.to_nat k) l.



(** The same order of the result when the comparison is a total preorder
    only on the elements that are sorted. *)
Section StableSortOn.
Context {A : Type}.
Variable le : A -> A -> bool.
Variable P : A -> Prop.
Hypothesis le_total : forall x y, P x -> P y -> le x y = false -> le y x = true.
Hypothesis le_trans :
  forall x y z, P x -> P y -> P z -> le x y = true -> le y z = true -> le x z = true.

Lemma sort_insert_P (x : A) (s : list A) : P x -> Forall P s -> Forall P (sort_insert le x s).
Proof.
  intros Hx Hs. rewrite Forall_forall in Hs |- *. intros z Hz.
  rewrite sort_insert_Permutation in Hz. apply elem_of_cons in Hz as [-> | Hz]; auto.
Qed.


End StableSortOn.

(** ** Tiered cache ([Cache], cache.py) *)

Module Cache.
Local Open Scope eff_scope.

Section WithValue.
Context {V : Type}.

(** The unpickled content of one cache file. *)
Record DiskEntry := {
  d_key : string;
  d_value : V;
  d_created_at : Z;
  d_expiry : option Z
}.

(** The class-level dictionaries, the instance settings and the cache
    directory (file name without the [.cache] suffix to content). *)
Record Cache := {
  use_disk_cache : bool;
  max_memory_items : Z;
  _memory_cache : list (string * V);
  _expiry_times : list (string * Z);
  cache_dir : gmap string DiskEntry
}.

Definition set_memory (f : list (string * V) -> list (string * V)) (c : Cache) : Cache :=
  {| use_disk_cache := use_disk_cache c; max_memory_items := max_memory_items c;
     _memory_cache := f (_memory_cache c); _expiry_times := _expiry_times c;
     cache_dir := cache_dir c |}.

Definition set_expiry (f : list (string * Z) -> list (string * Z)) (c : Cache) : Cache :=
  {| use_disk_cache := use_disk_cache c; max_memory_items := max_memory_items c;
     _memory_cache := _memory_cache c; _expiry_times := f (_expiry_times c);
     cache_dir := cache_dir c |}.

Definition set_cache_dir (f : gmap string DiskEntry -> gmap string DiskEntry)
    (c : Cache) : Cache :=
  {| use_disk_cache := use_disk_cache c; max_memory_items := max_memory_items c;
     _memory_cache := _memory_cache c; _expiry_times := _expiry_times c;
     cache_dir := f (cache_dir c) |}.

(** [__init__] on empty class-level dictionaries and an empty directory. *)
Definition init (use_disk : bool) (max_items : Z) : Cache :=
  {| use_disk_cache := use_disk; max_memory_items := max_items;
     _memory_cache := []; _expiry_times := []; cache_dir := ∅ |}.

(** [del self._memory_cache[key]] and [del self._expiry_times[key]] *)
Definition del_memory (key : string) : M Cache unit :=
  fun c =>
    match dict_del key (_memory_cache c) with
    | Some d => (set_memory (fun _ => d) c, Ok tt)
    | None => (c, Raised (KeyError key))
    end.

Definition del_expiry (key : string) : M Cache unit :=
  fun c =>
    match dict_del key (_expiry_times c) with
    | Some d => (set_expiry (fun _ => d) c, Ok tt)
    | None => (c, Raised (KeyError key))
    end.

(** The sort key of [_check_memory_cache_size],
    [self._expiry_times.get(k, float('inf'))]; [None] is infinity. *)
Definition expiry_or_inf (c : Cache) (k : string) : option Z :=
  dict_get k (_expiry_times c).

Definition le_inf (a b : option Z) : bool :=
  match a, b with
  | _, None => true
  | None, Some _ => false
  | Some x, Some y => x <=? y
  end.

Fixpoint evict (keys : list string) : M Cache unit :=
  match keys with
  | [] => ret tt
  | key :: rest => del_memory key ;; del_expiry key ;; evict rest
  end.

(** [_check_memory_cache_size] *)
Definition _check_memory_cache_size : M Cache unit :=
  c <- read ;;
  let len := Z.of_nat (length (_memory_cache c)) in
  if len >? max_memory_items c then
    let items_to_remove := len - max_memory_items c in
    let sorted_keys :=
      stable_sort (fun a b => le_inf (expiry_or_inf c a) (expiry_or_inf c b))
        (dict_keys (_expiry_times c)) in
    evict (firstn (Z.to_nat items_to_remove) sorted_keys)
  else ret tt.

(** [if expiry:] is false for [None] and for a zero timestamp. *)
Definition truthy (expiry : option Z) : bool :=
  match expiry with
  | Some e => negb (e =? 0)
  | None => false
  end.

(** [data["expiry"] < time.time()] when the entry has an expiry. *)
Definition expired (now : Z) (expiry : option Z) : bool :=
  match expiry with
  | Some e => e <? now
  | None => false
  end.

Section Call.
(** The hash naming the cache file of a key ([_get_disk_key], the MD5
    hex digest), the clock reading of the call, and the exception, if
    any, with which the call's access to the cache file fails. *)
Variable _get_disk_key : string -> string.
Variable now : Z.
Variable disk_fault : option exn.

Definition disk_access : M Cache unit :=
  match disk_fault with
  | Some e => raise e
  | None => ret tt
  end.

(** [get].  The log line of the [except] branch is not modelled. *)
Definition get (key : string) (default : V) : M Cache V :=
  c <- read ;;
  hit <- (match dict_get key (_memory_cache c) with
          | Some value =>
              if expired now (dict_get key (_expiry_times c)) then
                del_memory key ;; del_expiry key ;; ret None
              else ret (Some value)
          | None => ret None
          end) ;;
  match hit with
  | Some value => ret value
  | None =>
      c <- read ;;
      if use_disk_cache c then
        found <- try_except
          (let disk_key := _get_disk_key key in
           disk_access ;;
           c <- read ;;
           match cache_dir c !! disk_key with
           | Some data =>
               if expired now (d_expiry data) then
                 modify (set_cache_dir (delete disk_key)) ;;
                 ret (Some default)
               else
                 modify (set_memory (dict_set key (d_value data))) ;;
                 match d_expiry data with
                 | Some e => modify (set_expiry (dict_set key e))
                 | None => ret tt
                 end ;;
                 _check_memory_cache_size ;;
                 ret (Some (d_value data))
           | None => ret None
           end)
          (fun e => ret None) ;;
        match found with
        | Some value => ret value
        | None => ret default
        end
      else ret default
  end.

(** [set] *)
Definition set (key : string) (value : V) (expire_in : option Z) : M Cache bool :=
  let expiry := match expire_in with
                | Some d => Some (now + d)
                | None => None
                end in
  modify (set_memory (dict_set key value)) ;;
  match expiry with
  | Some e => if truthy expiry then modify (set_expiry (dict_set key e)) else ret tt
  | None => ret tt
  end ;;
  _check_memory_cache_size ;;
  c <- read ;;
  if use_disk_cache c then
    try_except
      (let disk_key := _get_disk_key key in
       let data := {| d_key := key; d_value := value; d_created_at := now;
                      d_expiry := if truthy expiry then expiry else None |} in
       disk_access ;;
       modify (set_cache_dir <[disk_key := data]>) ;;
       ret true)
      (fun e => ret false)
  else ret true.
End Call.
End WithValue.
Arguments DiskEntry : clear implicits.
Arguments Cache : clear implicits.

(** *** Properties *)

Section CacheFacts.
Context {V : Type}.
Implicit Types (c : Cache V) (k j key : string) (ks : list string).

Definition wf c : Prop :=
  NoDup (dict_keys (_expiry_times c)) /\
  forall k, is_Some (dict_get k (_expiry_times c)) -> is_Some (dict_get k (_memory_cache c)).

Definition without ks c c' : Prop :=
  use_disk_cache c' = use_disk_cache c /\
  max_memory_items c' = max_memory_items c /\
  cache_dir c' = cache_dir c /\
  (forall j, dict_get j (_memory_cache c') =
             if decide (j ∈ ks) then None else dict_get j (_memory_cache c)) /\
  (forall j, dict_get j (_expiry_times c') =
             if decide (j ∈ ks) then None else dict_get j (_expiry_times c)) /\
  (NoDup (dict_keys (_expiry_times c)) -> NoDup (dict_keys (_expiry_times c'))).

Lemma without_nil c : without [] c c.
Proof. unfold without. split_and!; try done. Qed.

Lemma without_wf ks c c' : wf c -> without ks c c' -> wf c'.
Proof.
  intros [Hnd Hsub] (_ & _ & _ & Hm & He & Hnd'). split; [by apply Hnd'|].
  intros k. rewrite Hm, He. destruct (decide (k ∈ ks)); [by intros [? [=]] | apply Hsub].
Qed.

Lemma dict_del_Some {A} k (d : list (string * A)) :
  is_Some (dict_get k d) -> dict_del k d = Some (dict_remove k d).
Proof. intros [v Hv]. unfold dict_del, dict_mem. by rewrite Hv. Qed.

Lemma evict_ok ks c :
  NoDup ks ->
  (forall k, k ∈ ks ->
     is_Some (dict_get k (_memory_cache c)) /\ is_Some (dict_get k (_expiry_times c))) ->
  exists c', evict ks c = (c', Ok tt) /\ without ks c c'.
Proof.
  revert c. induction ks as [|key rest IH]; intros c Hnd Hin.
  - exists c. split; [done | apply without_nil].
  - apply NoDup_cons in Hnd as [Hkey Hrest].
    destruct (Hin key) as [Hm He]; [left|].
    set (c2 := set_expiry (fun _ => dict_remove key (_expiry_times c))
                 (set_memory (fun _ => dict_remove key (_memory_cache c)) c)).
    destruct (IH c2 Hrest) as (c' & Hev & Hw).
    { intros k Hk. assert (key ≠ k) by (intros ->; done).
      cbn. rewrite !dict_get_remove_ne by done. apply Hin. by right. }
    exists c'. split.
    + cbn. unfold bind, del_memory, del_expiry.
      rewrite (dict_del_Some _ _ Hm). cbn. rewrite (dict_del_Some _ _ He). exact Hev.
    + destruct Hw as (H1 & H2 & H3 & H4 & H5 & H6). unfold without.
      split_and!; try done.
      * intros j. rewrite H4. cbn.
        destruct (decide (j ∈ rest)), (decide (j ∈ key :: rest)) as [Hj|Hj];
          rewrite ?elem_of_cons, ?not_elem_of_cons in Hj; try done; try tauto.
        -- destruct Hj as [-> | ?]; [|done]. apply dict_get_remove_eq.
        -- apply dict_get_remove_ne. intros ->. tauto.
      * intros j. rewrite H5. cbn.
        destruct (decide (j ∈ rest)), (decide (j ∈ key :: rest)) as [Hj|Hj];
          rewrite ?elem_of_cons, ?not_elem_of_cons in Hj; try done; try tauto.
        -- destruct Hj as [-> | ?]; [|done]. apply dict_get_remove_eq.
        -- apply dict_get_remove_ne. intros ->. tauto.
      * intros Hc. apply H6. cbn. by apply NoDup_dict_remove.
Qed.

Lemma _check_memory_cache_size_ok c :
  wf c ->
  exists c' ks,
    _check_memory_cache_size c = (c', Ok tt) /\ without ks c c' /\
    (forall k, k ∈ ks -> is_Some (dict_get k (_expiry_times c))) /\
    (Z.of_nat (length (_memory_cache c)) <= max_memory_items c -> ks = []).
Proof.
  intros [Hnd Hsub]. unfold _check_memory_cache_size, bind, read.
  destruct (Z.of_nat (length (_memory_cache c)) >? max_memory_items c) eqn:Hlen.
  - set (ks := firstn _ _).
    assert (Hks : forall k, k ∈ ks -> k ∈ dict_keys (_expiry_times c)).
    { intros k Hk. unfold ks in Hk. apply subseteq_take in Hk.
      by rewrite stable_sort_Permutation in Hk. }
    destruct (evict_ok ks c) as (c' & Hev & Hw).
    + unfold ks. eapply sublist_NoDup; [|apply sublist_take]. by rewrite stable_sort_Permutation.
    + intros k Hk%Hks%dict_get_is_Some. split; [by apply Hsub | done].
    + exists c', ks. split_and!; try done.
      * intros k Hk%Hks. by apply dict_get_is_Some.
      * lia.
  - exists c, []. split_and!; [done | apply without_nil | | done].
    intros k Hk. by apply elem_of_nil in Hk.
Qed.

Section Call.
Variable _get_disk_key : string -> string.

(** The two dictionaries just after [set] has written the entry. *)
Definition written key (value : V) (e : Z) c : Cache V :=
  set_expiry (dict_set key e) (set_memory (dict_set key value) c).

Lemma wf_written key value e c : wf c -> wf (written key value e c).
Proof.
  intros [Hnd Hsub]. split; cbn.
  - by apply NoDup_dict_set.
  - intros k. destruct (decide (key = k)) as [<-|Hne].
    + rewrite !dict_get_set_eq. eauto.
    + rewrite !dict_get_set_ne by done. apply Hsub.
Qed.

Lemma set_ok now fs key value d c :
  wf c -> now + d <> 0 ->
  exists c1 b ks,
    set _get_disk_key now fs key value (Some d) c = (c1, Ok b) /\
    wf c1 /\
    without ks (written key value (now + d) c)
            (set_cache_dir (fun _ => cache_dir c) c1) /\
    (Z.of_nat (length (dict_set key value (_memory_cache c))) <= max_memory_items c ->
       ks = []) /\
    (use_disk_cache c = true -> fs = None ->
       cache_dir c1 !! _get_disk_key key
       = Some {| d_key := key; d_value := value; d_created_at := now;
                 d_expiry := Some (now + d) |}) /\
    (use_disk_cache c = false -> cache_dir c1 = cache_dir c).
Proof.
  intros Hwf Hnz.
  destruct (_check_memory_cache_size_ok (written key value (now + d) c))
    as (c' & ks & Hcheck & Hw & Hks & Hfit); [by apply wf_written|].
  assert (Hwf' : wf c') by (eapply without_wf; [apply wf_written|]; done).
  assert (Htruthy : truthy (Some (now + d)) = true).
  { cbn. apply negb_true_iff, Z.eqb_neq. done. }
  unfold set. rewrite Htruthy. unfold bind at 1. cbn [modify].
  unfold bind at 1. cbn [modify].
  unfold bind at 1. fold (written key value (now + d) c). rewrite Hcheck.
  unfold bind, read.
  pose proof Hw as (Hdisk & Hmax & Hdir & Hm & He & Hnd).
  destruct (use_disk_cache c') eqn:Huse.
  - unfold try_except, disk_access, bind. destruct fs as [e|]; cbn.
    + exists c', false, ks. split_and!; try done.
      unfold without in *; cbn in *; split_and!; (done || congruence).
    + eexists _, true, ks. split_and!; try done.
      * unfold without in *; cbn in *; split_and!; (done || congruence).
      * intros _ _. apply lookup_insert_eq.
      * cbn in Hdisk. congruence.
  - exists c', true, ks. split_and!; try done.
    + unfold without in *; cbn in *; split_and!; (done || congruence).
    + cbn in Hdisk. congruence.
Qed.

Lemma get_memory_hit now fg key dflt value c :
  dict_get key (_memory_cache c) = Some value ->
  expired now (dict_get key (_expiry_times c)) = false ->
  get _get_disk_key now fg key dflt c = (c, Ok value).
Proof.
  intros Hm He. unfold get, bind, read. rewrite Hm, He. reflexivity.
Qed.

Lemma expired_is_Some now (o : option Z) : expired now o = true -> is_Some o.
Proof. destruct o; [eauto | discriminate]. Qed.

Lemma expired_past now e : e < now -> expired now (Some e) = true.
Proof. intros H. by apply Z.ltb_lt. Qed.

Lemma expired_not_yet now e : now <= e -> expired now (Some e) = false.
Proof. intros H. by apply Z.ltb_ge. Qed.

(** The memory phase of [get] when it does not answer: an expired
    entry is dropped from both dictionaries, a missing one changes
    nothing. *)
Definition after_memory_miss key c : Cache V :=
  match dict_get key (_memory_cache c) with
  | Some _ =>
      set_expiry (fun _ => dict_remove key (_expiry_times c))
        (set_memory (fun _ => dict_remove key (_memory_cache c)) c)
  | None => c
  end.

Lemma get_miss now fg key dflt c :
  (is_Some (dict_get key (_memory_cache c)) ->
     expired now (dict_get key (_expiry_times c)) = true) ->
  (use_disk_cache c = true -> fg = None ->
     forall data, cache_dir c !! _get_disk_key key = Some data ->
                  expired now (d_expiry data) = true) ->
  snd (get _get_disk_key now fg key dflt c) = Ok dflt.
Proof.
  intros Hmem Hdisk. unfold get. unfold bind at 1, read at 1.
  set (c1 := after_memory_miss key c).
  assert (Hphase : forall (k : option V -> M (Cache V) V),
    bind (match dict_get key (_memory_cache c) with
          | Some value =>
              if expired now (dict_get key (_expiry_times c))
              then bind (del_memory key) (fun _ => bind (del_expiry key) (fun _ => ret None))
              else ret (Some value)
          | None => ret None
          end) k c = k None c1).
  { intros k. unfold c1, after_memory_miss.
    destruct (dict_get key (_memory_cache c)) as [v|] eqn:Hm; [|done].
    rewrite Hmem by eauto. unfold bind, del_memory, del_expiry.
    rewrite dict_del_Some by (rewrite Hm; eauto). cbn.
    rewrite dict_del_Some by (apply (expired_is_Some now); eauto). done. }
  rewrite Hphase. unfold bind at 1, read.
  assert (Huse : use_disk_cache c1 = use_disk_cache c)
    by (unfold c1, after_memory_miss; by destruct (dict_get key _)).
  assert (Hdir : cache_dir c1 = cache_dir c)
    by (unfold c1, after_memory_miss; by destruct (dict_get key _)).
  rewrite Huse. destruct (use_disk_cache c) eqn:Hu; [|done].
  unfold try_except, disk_access, bind, read. destruct fg as [e|]; [done|]. cbn.
  rewrite Hdir. destruct (cache_dir c !! _get_disk_key key) as [data|] eqn:Hd; [|done].
  rewrite (Hdisk eq_refl eq_refl data eq_refl). done.
Qed.

Lemma get_disk_hit now key dflt data c :
  wf c ->
  dict_get key (_memory_cache c) = None ->
  use_disk_cache c = true ->
  cache_dir c !! _get_disk_key key = Some data ->
  expired now (d_expiry data) = false ->
  snd (get _get_disk_key now None key dflt c) = Ok (d_value data).
Proof.
  intros Hwf Hm Hu Hd He. unfold get, bind at 1, read at 1. rewrite Hm.
  unfold bind at 1, ret at 1. unfold bind at 1, read at 1. rewrite Hu.
  unfold try_except, disk_access, bind, read, ret. rewrite Hd, He. cbn [modify].
  set (c2 := (match d_expiry data with
              | Some e => modify (set_expiry (dict_set key e))
              | None => fun s => (s, Ok tt)
              end) (set_memory (dict_set key (d_value data)) c)).
  assert (Hc2 : exists c3, c2 = (c3, Ok tt) /\ wf c3).
  { unfold c2. destruct Hwf as [Hnd Hsub].
    destruct (d_expiry data) as [e|]; eexists; (split; [reflexivity|]); split; cbn.
    - by apply NoDup_dict_set.
    - intros k. destruct (decide (key = k)) as [<-|Hne].
      + rewrite !dict_get_set_eq. eauto.
      + rewrite !dict_get_set_ne by done. apply Hsub.
    - done.
    - intros k. destruct (decide (key = k)) as [<-|Hne].
      + rewrite !dict_get_set_eq. eauto.
      + rewrite !dict_get_set_ne by done. apply Hsub. }
  destruct Hc2 as (c3 & -> & Hwf3).
  destruct (_check_memory_cache_size_ok c3 Hwf3) as (c4 & ks & -> & _). done.
Qed.

(** The part of [get] that runs once the memory tier has not answered. *)
Definition disk_phase now fg key (dflt : V) : M (Cache V) V :=
  (c <- read ;;
   if use_disk_cache c then
     found <- try_except
       (let disk_key := _get_disk_key key in
        disk_access fg ;;
        c <- read ;;
        match cache_dir c !! disk_key with
        | Some data =>
            if expired now (d_expiry data) then
              modify (set_cache_dir (delete disk_key)) ;;
              ret (Some dflt)
            else
              modify (set_memory (dict_set key (d_value data))) ;;
              match d_expiry data with
              | Some e => modify (set_expiry (dict_set key e))
              | None => ret tt
              end ;;
              _check_memory_cache_size ;;
              ret (Some (d_value data))
        | None => ret None
        end)
       (fun e => ret None) ;;
     match found with
     | Some value => ret value
     | None => ret dflt
     end
   else ret dflt)%eff.

Lemma disk_phase_sound now fg key dflt c c' value :
  disk_phase now fg key dflt c = (c', Ok value) ->
  value = dflt \/
  (exists data, cache_dir c !! _get_disk_key key = Some data /\
                d_value data = value /\ expired now (d_expiry data) = false).
Proof.
  unfold disk_phase, bind at 1, read at 1.
  destruct (use_disk_cache c); [|intros [= <- <-]; by left].
  unfold try_except, disk_access, bind at 1, bind at 1.
  destruct fg as [e|]; cbn [raise ret]; [intros [= <- <-]; by left|].
  unfold bind at 1, read at 1.
  destruct (cache_dir c !! _get_disk_key key) as [data|] eqn:Hd;
    [|intros [= <- <-]; by left].
  destruct (expired now (d_expiry data)) eqn:He; [intros [= <- <-]; by left|].
  unfold bind at 1, modify at 1. unfold bind at 1.
  destruct (d_expiry data) as [e|] eqn:Hexp; cbn [modify ret]; unfold bind at 1;
    match goal with
    | |- context [_check_memory_cache_size ?s] =>
        destruct (_check_memory_cache_size s) as [c3 [[]|e3]]
    end; intros [= <- <-]; (by left) || (right; exists data; rewrite Hexp; done).
Qed.

(** Whatever [get] returns is the default, or the memory entry of the
    key, unexpired, or the content of its cache file, unexpired. *)
Lemma get_sound now fg key dflt c c' value :
  get _get_disk_key now fg key dflt c = (c', Ok value) ->
  value = dflt \/
  (dict_get key (_memory_cache c) = Some value /\
   expired now (dict_get key (_expiry_times c)) = false) \/
  (exists data, cache_dir c !! _get_disk_key key = Some data /\
                d_value data = value /\ expired now (d_expiry data) = false).
Proof.
  change (get _get_disk_key now fg key dflt) with
    (c <- read ;;
     hit <- (match dict_get key (_memory_cache c) with
             | Some value =>
                 if expired now (dict_get key (_expiry_times c)) then
                   del_memory key ;; del_expiry key ;; ret None
                 else ret (Some value)
             | None => ret None
             end) ;;
     match hit with
     | Some value => ret value
     | None => disk_phase now fg key dflt
     end)%eff.
  unfold bind at 1, read at 1.
  destruct (dict_get key (_memory_cache c)) as [v|] eqn:Hm.
  - destruct (expired now (dict_get key (_expiry_times c))) eqn:He.
    + unfold bind, del_memory, del_expiry.
      destruct (dict_del key (_memory_cache c)); [|discriminate]. cbv beta iota.
      cbn [_expiry_times set_memory].
      destruct (dict_del key (_expiry_times c)); [|discriminate]. cbv beta iota.
      unfold ret at 1. cbv beta iota.
      intros [H | H]%disk_phase_sound; [by left | right; right; exact H].
    + cbn. intros [= <- <-]. right; left. done.
  - unfold bind, ret. intros [H | H]%disk_phase_sound; [by left | right; right; exact H].
Qed.

(** C7 (as amended).  From a well-formed cache and a non-negative clock
    reading, [set(k, v, 60)] returns; a [get(k)] within the next 60
    ticks returns [v] provided the memory tier is within its bound once
    [k] is inserted, or the disk tier is enabled and neither call's
    file access fails; a [get(k)] more than 60 ticks later returns the
    default provided that, with the disk tier enabled, the file was
    written; and from any cache at any time, a value returned by [get]
    is the default, or the memory entry of the key, unexpired, or the
    content of its cache file, unexpired. *)
Theorem C7_set_then_get :
  (forall (c : Cache V) (now later : Z) (fs fg : option exn) (k : string) (v dflt : V),
     wf c -> 0 <= now ->
     exists c1 b,
       set _get_disk_key now fs k v (Some 60) c = (c1, Ok b) /\ wf c1 /\
       (now <= later <= now + 60 ->
        Z.of_nat (length (dict_set k v (_memory_cache c))) <= max_memory_items c \/
        (use_disk_cache c = true /\ fs = None /\ fg = None) ->
        snd (get _get_disk_key later fg k dflt c1) = Ok v) /\
       (now + 60 < later ->
        (use_disk_cache c = true -> fs = None) ->
        snd (get _get_disk_key later fg k dflt c1) = Ok dflt)) /\
  (forall (c c' : Cache V) (now : Z) (fg : option exn) (k : string) (dflt value : V),
     get _get_disk_key now fg k dflt c = (c', Ok value) ->
     value = dflt \/
     (dict_get k (_memory_cache c) = Some value /\
      expired now (dict_get k (_expiry_times c)) = false) \/
     (exists data, cache_dir c !! _get_disk_key k = Some data /\
                   d_value data = value /\ expired now (d_expiry data) = false)).
Proof.
  split; [|intros; eapply get_sound; eassumption].
  intros c now later fs fg k v dflt Hwf Hnow.
  destruct (set_ok now fs k v 60 c Hwf ltac:(lia))
    as (c1 & b & ks & Hset & Hwf1 & Hw & Hfit & Hfile & Hnofile).
  destruct Hw as (Huse & _ & _ & Hm & He & _). cbn in Huse, Hm, He.
  exists c1, b. split_and!; [done.. | |].
  - intros Hlater Hcase.
    assert (Hin : k ∉ ks -> snd (get _get_disk_key later fg k dflt c1) = Ok v).
    { intros Hk. erewrite get_memory_hit; [done | |].
      - rewrite Hm, decide_False by done. apply dict_get_set_eq.
      - rewrite He, decide_False, dict_get_set_eq by done.
        apply expired_not_yet. lia. }
    destruct (decide (k ∈ ks)) as [Hk|Hk]; [|by apply Hin].
    destruct Hcase as [Hroom | (Hdisk & -> & ->)].
    + rewrite (Hfit Hroom) in Hk. by apply elem_of_nil in Hk.
    + assert (Hmiss : dict_get k (_memory_cache c1) = None)
        by (by rewrite Hm, decide_True).
      assert (Huse1 : use_disk_cache c1 = true) by congruence.
      apply (get_disk_hit later k dflt _ c1 Hwf1 Hmiss Huse1 (Hfile Hdisk eq_refl)).
      apply expired_not_yet. lia.
  - intros Hlater Hwritten. apply get_miss.
    + rewrite Hm, He. destruct (decide (k ∈ ks)); [by intros [? [=]]|].
      rewrite !dict_get_set_eq. intros _. apply expired_past. lia.
    + intros Hdisk -> data. rewrite Hfile by (try apply Hwritten; congruence).
      intros [= <-]. apply expired_past. lia.
Qed.
End Call.
End CacheFacts.

Lemma wf_init {V : Type} (use_disk : bool) (max_items : Z) : wf (@init V use_disk max_items).
Proof. split; [apply NoDup_nil_2 | by intros k [? [=]]]. Qed.

(** With no expiry recorded anywhere, the size check evicts nothing,
    however far the memory tier is over its bound. *)
Lemma no_expiry_no_eviction {V : Type} (c : Cache V) :
  _expiry_times c = [] -> _check_memory_cache_size c = (c, Ok tt).
Proof.
  intros He. unfold _check_memory_cache_size, bind, read. rewrite He.
  destruct (_ >? _); [|done]. cbn. by destruct (Z.to_nat _).
Qed.

(** C2 (the code departs from the claim).  A cache bounded to one memory
    entry receives two entries without expiry.  Only keys of
    [_expiry_times] are candidates for eviction, so nothing is evicted and
    the memory tier holds two entries, one more than its bound. *)
Theorem C2_entries_without_expiry_are_never_evicted :
  let c := fst ((set (fun k => k) 0 None "a" "1" None ;;
                 set (fun k => k) 0 None "b" "2" None)%eff (init false 1)) in
  max_memory_items c = 1 /\
  _memory_cache c = [("a", "1"); ("b", "2")] /\
  length (_memory_cache c) = 2%nat.
Proof. vm_compute. repeat split. Qed.

(** The memory tier of a cache without disk tier, bounded to one entry and
    holding ["a"] until tick 1000. *)
Definition crowded : Cache string :=
  fst (set (fun k => k) 0 None "a" "1" (Some 1000) (init false 1)).

(** C7 as stated fails: the entry just written has the nearest expiry of
    the two, so it is the one evicted, and the read that follows misses. *)
Lemma C7_set_then_get_counterexample :
  snd ((set (fun k => k) 0 None "k" "v" (Some 60) ;;
        get (fun k => k) 0 None "k" "miss")%eff crowded) = Ok "miss" /\
  snd ((set (fun k => k) 0 None "k" "v" (Some 60) ;;
        get (fun k => k) 0 None "k" "miss")%eff crowded) <> Ok "v".
Proof. split; [vm_compute; reflexivity | vm_compute; discriminate]. Qed.

(** A cache with its disk tier whose memory tier, bounded to one entry,
    holds ["a"] until tick 1000. *)
Definition full : Cache string :=
  fst (set (fun k => k) 0 None "a" "1" (Some 1000) (init true 1)).

Lemma full_wf : wf full.
Proof.
  destruct (set_ok (fun k => k) 0 None "a" "1" 1000 (@init string true 1))
    as (c1 & b & ks & Hset & Hwf & _); [apply wf_init | lia |].
  unfold full. rewrite Hset. exact Hwf.
Qed.

(** The entry written at tick 10 is evicted from the full memory tier at
    once; it is read back from its cache file at tick 40 and has expired
    at tick 71. *)
Lemma C7_set_then_get_witness :
  exists c1 b,
    set (fun k => k) 10 None "k" "v" (Some 60) full = (c1, Ok b) /\ wf c1 /\
    dict_get "k" (_memory_cache c1) = None /\
    snd (get (fun k => k) 40 None "k" "miss" c1) = Ok "v" /\
    snd (get (fun k => k) 71 None "k" "miss" c1) = Ok "miss".
Proof.
  destruct (proj1 (C7_set_then_get (fun k => k)) full 10 40 None None "k" "v" "miss"
              full_wf ltac:(lia)) as (c1 & b & Hset & Hwf & Hin & _).
  destruct (proj1 (C7_set_then_get (fun k => k)) full 10 71 None None "k" "v" "miss"
              full_wf ltac:(lia)) as (c1' & b' & Hset' & _ & _ & Hout).
  assert (Hc : c1' = c1) by congruence. rewrite Hc in Hout.
  exists c1, b. split; [exact Hset|]. split; [exact Hwf|]. split.
  - replace c1 with (fst (set (fun k => k) 10 None "k" "v" (Some 60) full))
      by (rewrite Hset; reflexivity).
    vm_compute. reflexivity.
  - split.
    + apply Hin; [lia | right; repeat split; reflexivity].
    + apply Hout; [lia | reflexivity].
Defined.

(** *** Maintenance operations *)

(** [for x in l: body(x)] *)
Fixpoint for_each {S A : Type} (l : list A) (body : A -> M S unit) : M S unit :=
  match l with
  | [] => ret tt
  | x :: l' => body x ;; for_each l' body
  end.

Section Maintenance.
Context {V : Type}.
(** As for [get] and [set]: the hash naming the cache file of a key, the
    clock reading of the call and the exception, if any, with which the
    call's access to the cache directory fails; then, for every cache
    file, the exception with which unpickling it fails and the one with
    which [os.remove] fails. *)
Variable _get_disk_key : string -> string.
Variable now : Z.
Variable disk_fault : option exn.
Variable load_fault remove_fault : string -> option exn.

(** [delete].  The log line of the [except] branch is not modelled. *)
Definition delete (key : string) : M (Cache V) bool :=
  c <- read ;;
  found <- (if dict_mem key (_memory_cache c)
            then del_memory key ;; ret true
            else ret false) ;;
  c <- read ;;
  (if dict_mem key (_expiry_times c) then del_expiry key else ret tt) ;;
  c <- read ;;
  if use_disk_cache c then
    try_except
      (let disk_key := _get_disk_key key in
       disk_access disk_fault ;;
       c <- read ;;
       match cache_dir c !! disk_key with
       | Some _ => modify (set_cache_dir (base.delete disk_key)) ;; ret true
       | None => ret found
       end)
      (fun e => ret found)
  else ret found.

(** [os.remove(cache_file)] *)
Definition os_remove (cache_file : string) : M (Cache V) unit :=
  match remove_fault cache_file with
  | Some e => raise e
  | None => modify (set_cache_dir (base.delete cache_file))
  end.

(** [self.cache_dir.glob("*.cache")], in the order of the directory
    listing. *)
Definition glob (c : Cache V) : list (string * DiskEntry V) := map_to_list (cache_dir c).

(** [clear] *)
Definition clear : M (Cache V) bool :=
  modify (set_memory (fun _ => [])) ;;
  modify (set_expiry (fun _ => [])) ;;
  c <- read ;;
  if use_disk_cache c then
    try_except
      (disk_access disk_fault ;;
       c <- read ;;
       for_each (glob c)
         (fun cache_file => try_except (os_remove (fst cache_file)) (fun e => ret tt)) ;;
       ret true)
      (fun e => ret false)
  else ret true.

(** The first loop of [clean_expired]. *)
Fixpoint remove_expired (expired_keys : list string) (memory_removed : Z)
    : M (Cache V) Z :=
  match expired_keys with
  | [] => ret memory_removed
  | key :: rest =>
      del_memory key ;; del_expiry key ;; remove_expired rest (memory_removed + 1)
  end.

(** The body of its second loop: one cache file, with its content. *)
Definition check_file (cache_file : string * DiskEntry V) (disk_removed : Z)
    : M (Cache V) Z :=
  try_except
    (match load_fault (fst cache_file) with
     | Some e => raise e
     | None => ret tt
     end ;;
     if expired now (d_expiry (snd cache_file)) then
       os_remove (fst cache_file) ;; ret (disk_removed + 1)
     else ret disk_removed)
    (fun e =>
       try_except (os_remove (fst cache_file) ;; ret (disk_removed + 1))
                  (fun _ => ret disk_removed)).

Fixpoint check_files (files : list (string * DiskEntry V)) (disk_removed : Z)
    : M (Cache V) Z :=
  match files with
  | [] => ret disk_removed
  | cache_file :: rest =>
      disk_removed <- check_file cache_file disk_removed ;;
      check_files rest disk_removed
  end.

(** [clean_expired] *)
Definition clean_expired : M (Cache V) (Z * Z) :=
  let current_time := now in
  c <- read ;;
  let expired_keys :=
    map fst (List.filter (fun item => snd item <? current_time) (_expiry_times c)) in
  memory_removed <- remove_expired expired_keys 0 ;;
  c <- read ;;
  if use_disk_cache c then
    disk_removed <- try_except
      (disk_access disk_fault ;;
       c <- read ;;
       check_files (glob c) 0)
      (fun e => ret 0) ;;
    ret (memory_removed, disk_removed)
  else ret (memory_removed, 0).
End Maintenance.

(** *** What the operations return, and the invariant they keep *)

Section MaintenanceFacts.
Context {V : Type}.
Variable _get_disk_key : string -> string.
Implicit Types (c : Cache V) (k j key : string) (ks : list string).

(** What the disk tier answers for a key. *)
Definition disk_value (now : Z) (fg : option exn) key (dflt : V) c : V :=
  if use_disk_cache c then
    match fg with
    | Some _ => dflt
    | None =>
        match cache_dir c !! _get_disk_key key with
        | Some data => if expired now (d_expiry data) then dflt else d_value data
        | None => dflt
        end
    end
  else dflt.

(** What the two tiers answer for a key. *)
Definition value_of (now : Z) (fg : option exn) key (dflt : V) c : V :=
  match dict_get key (_memory_cache c) with
  | Some value =>
      if expired now (dict_get key (_expiry_times c))
      then disk_value now fg key dflt c
      else value
  | None => disk_value now fg key dflt c
  end.

Lemma wf_set_cache_dir f c : wf c -> wf (set_cache_dir f c).
Proof. intros [? ?]. by split. Qed.

Lemma wf_set_memory key (v : V) c : wf c -> wf (set_memory (dict_set key v) c).
Proof.
  intros [Hnd Hsub]. split; [done|]. cbn. intros k Hk.
  destruct (decide (key = k)) as [<-|Hne].
  - rewrite dict_get_set_eq. eauto.
  - rewrite dict_get_set_ne by done. by apply Hsub.
Qed.

Lemma wf_forget key c :
  wf c ->
  wf (set_expiry (fun _ => dict_remove key (_expiry_times c))
        (set_memory (fun _ => dict_remove key (_memory_cache c)) c)).
Proof.
  intros [Hnd Hsub]. split; cbn.
  - by apply NoDup_dict_remove.
  - intros k. destruct (decide (key = k)) as [<-|Hne].
    + rewrite dict_get_remove_eq. by intros [? [=]].
    + rewrite !dict_get_remove_ne by done. apply Hsub.
Qed.

Lemma wf_after_memory_miss key c : wf c -> wf (after_memory_miss key c).
Proof.
  intros Hwf. unfold after_memory_miss.
  destruct (dict_get key (_memory_cache c)); [by apply wf_forget | done].
Qed.

Lemma disk_phase_ok now fg key dflt c :
  wf c ->
  exists c', disk_phase _get_disk_key now fg key dflt c
               = (c', Ok (disk_value now fg key dflt c)) /\ wf c'.
Proof.
  intros Hwf. unfold disk_phase, disk_value, bind at 1, read at 1.
  destruct (use_disk_cache c); [|by exists c].
  unfold try_except, disk_access, bind at 1, bind at 1.
  destruct fg as [e|]; cbn [raise ret]; [by exists c|].
  unfold bind at 1, read at 1.
  destruct (cache_dir c !! _get_disk_key key) as [data|] eqn:Hd; [|by exists c].
  destruct (expired now (d_expiry data)) eqn:He.
  { eexists. split; [reflexivity|]. by apply wf_set_cache_dir. }
  unfold bind at 1, modify at 1. unfold bind at 1.
  assert (Hc2 : exists c3,
    (match d_expiry data with
     | Some e => modify (set_expiry (dict_set key e))
     | None => ret tt
     end) (set_memory (dict_set key (d_value data)) c) = (c3, Ok tt) /\ wf c3).
  { destruct (d_expiry data) as [e|]; eexists; (split; [reflexivity|]).
    - by apply (wf_written key (d_value data) e c).
    - by apply wf_set_memory. }
  destruct Hc2 as (c3 & -> & Hwf3).
  destruct (_check_memory_cache_size_ok c3 Hwf3) as (c4 & ks & Hc & Hw & _).
  unfold bind at 1. rewrite Hc. exists c4. split; [done|]. by eapply without_wf.
Qed.

Lemma get_falls_through now fg key dflt c :
  (is_Some (dict_get key (_memory_cache c)) ->
     expired now (dict_get key (_expiry_times c)) = true) ->
  get _get_disk_key now fg key dflt c
    = disk_phase _get_disk_key now fg key dflt (after_memory_miss key c).
Proof.
  intros Hmem.
  change (get _get_disk_key now fg key dflt) with
    (c <- read ;;
     hit <- (match dict_get key (_memory_cache c) with
             | Some value =>
                 if expired now (dict_get key (_expiry_times c)) then
                   del_memory key ;; del_expiry key ;; ret None
                 else ret (Some value)
             | None => ret None
             end) ;;
     match hit with
     | Some value => ret value
     | None => disk_phase _get_disk_key now fg key dflt
     end)%eff.
  unfold bind at 1, read at 1. unfold after_memory_miss.
  destruct (dict_get key (_memory_cache c)) as [v|] eqn:Hm; [|done].
  rewrite Hmem by eauto. unfold bind, del_memory, del_expiry.
  rewrite dict_del_Some by (rewrite Hm; eauto). cbn.
  rewrite dict_del_Some by (apply (expired_is_Some now); eauto). done.
Qed.

Lemma disk_value_after_memory_miss now fg key dflt c :
  disk_value now fg key dflt (after_memory_miss key c) = disk_value now fg key dflt c.
Proof. unfold after_memory_miss. by destruct (dict_get key (_memory_cache c)). Qed.

(** [get] on a well-formed cache. *)
Lemma get_ok now fg key dflt c :
  wf c ->
  exists c', get _get_disk_key now fg key dflt c = (c', Ok (value_of now fg key dflt c)) /\
             wf c'.
Proof.
  intros Hwf. unfold value_of.
  destruct (dict_get key (_memory_cache c)) as [v|] eqn:Hm.
  - destruct (expired now (dict_get key (_expiry_times c))) eqn:He.
    + rewrite get_falls_through by (by rewrite He).
      rewrite <-(disk_value_after_memory_miss now fg key dflt c).
      apply disk_phase_ok. by apply wf_after_memory_miss.
    + exists c. split; [|done]. by apply get_memory_hit.
  - rewrite get_falls_through by (rewrite Hm; by intros [? [=]]).
    rewrite <-(disk_value_after_memory_miss now fg key dflt c).
    apply disk_phase_ok. by apply wf_after_memory_miss.
Qed.

(** [set] on a well-formed cache, with or without a lifetime. *)
Lemma set_wf now fs key value expire_in c :
  wf c -> exists c' b, set _get_disk_key now fs key value expire_in c = (c', Ok b) /\ wf c'.
Proof.
  intros Hwf. unfold set. unfold bind at 1, modify at 1. unfold bind at 1.
  assert (Hc2 : exists c2,
    (match match expire_in with Some d => Some (now + d) | None => None end with
     | Some e =>
         if truthy match expire_in with Some d => Some (now + d) | None => None end
         then modify (set_expiry (dict_set key e)) else ret tt
     | None => ret tt
     end) (set_memory (dict_set key value) c) = (c2, Ok tt) /\ wf c2).
  { destruct expire_in as [d|]; [destruct (truthy (Some (now + d)))|];
      eexists; (split; [reflexivity|]);
      (by apply (wf_written key value (now + d) c)) || by apply wf_set_memory. }
  destruct Hc2 as (c2 & -> & Hwf2).
  destruct (_check_memory_cache_size_ok c2 Hwf2) as (c3 & ks & Hc & Hw & _).
  assert (Hwf3 : wf c3) by (by eapply without_wf).
  unfold bind at 1. rewrite Hc. unfold bind at 1, read at 1.
  destruct (use_disk_cache c3); [|by exists c3, true].
  unfold try_except, disk_access, bind. destruct fs as [e|]; cbn.
  - by exists c3, false.
  - eexists _, true. split; [reflexivity|]. by apply wf_set_cache_dir.
Qed.

Lemma dict_remove_absent {A} k (d : list (string * A)) :
  dict_mem k d = false -> dict_remove k d = d.
Proof.
  unfold dict_mem, dict_remove. induction d as [|[k' v'] d IH]; cbn; [done|].
  destruct (String.eqb k k'); [done|]. cbn. intros H. by rewrite IH.
Qed.

(** [delete] returns from any cache; whether it found something; what it
    leaves behind. *)
Lemma delete_ok fd key c :
  exists c' found,
    delete _get_disk_key fd key c = (c', Ok found) /\
    use_disk_cache c' = use_disk_cache c /\
    max_memory_items c' = max_memory_items c /\
    _memory_cache c' = dict_remove key (_memory_cache c) /\
    _expiry_times c' = dict_remove key (_expiry_times c) /\
    cache_dir c' = (if use_disk_cache c
                    then match fd with
                         | Some _ => cache_dir c
                         | None => base.delete (_get_disk_key key) (cache_dir c)
                         end
                    else cache_dir c) /\
    found = (dict_mem key (_memory_cache c) ||
             (use_disk_cache c &&
              match fd with
              | Some _ => false
              | None => bool_decide (is_Some (cache_dir c !! _get_disk_key key))
              end)).
Proof.
  destruct (dict_mem key (_memory_cache c)) eqn:Hm;
    destruct (dict_mem key (_expiry_times c)) eqn:He;
    destruct (use_disk_cache c) eqn:Hu;
    try (destruct fd as [e|]);
    try (destruct (cache_dir c !! _get_disk_key key) as [data|] eqn:Hd);
    unfold delete, bind, read, del_memory, del_expiry, dict_del, try_except, disk_access;
    repeat (progress (cbn -[dict_remove]; rewrite ?Hm, ?He, ?Hu, ?Hd));
    eexists _, _; (split; [reflexivity|]); cbn -[dict_remove];
    rewrite ?(dict_remove_absent _ _ Hm), ?(dict_remove_absent _ _ He);
    split_and!; try done;
    try (symmetry; apply delete_id; done);
    try (rewrite bool_decide_true by eauto; done);
    try (rewrite bool_decide_false by (by intros [? [=]]); done).
Qed.

(** X15.  [delete] returns from any cache, whatever happens to its file
    access, answering [True] exactly when the key had a memory entry or,
    the disk tier being enabled and the access to the file working, a
    cache file.  The memory entry of the key is gone afterwards.  Unless
    the access to the file failed, a [get] of the key that follows, at any
    time, returns the default; and on a well-formed cache the answer for a
    key with another cache file is as before. *)
Theorem X15_delete_then_get (c : Cache V) (fd : option exn) (key : string) :
  exists c' found,
    delete _get_disk_key fd key c = (c', Ok found) /\
    (found = true <->
       is_Some (dict_get key (_memory_cache c)) \/
       (use_disk_cache c = true /\ fd = None /\
        is_Some (cache_dir c !! _get_disk_key key))) /\
    dict_get key (_memory_cache c') = None /\
    ((use_disk_cache c = true -> fd = None) ->
     forall now fg dflt, snd (get _get_disk_key now fg key dflt c') = Ok dflt) /\
    (wf c ->
     forall now fg k dflt,
       _get_disk_key k <> _get_disk_key key ->
       snd (get _get_disk_key now fg k dflt c') = snd (get _get_disk_key now fg k dflt c)).
Proof.
  destruct (delete_ok fd key c) as (c' & found & Hdel & Hu & _ & Hm & He & Hdir & Hfound).
  exists c', found. split_and!; [done | | | |].
  - rewrite Hfound, orb_true_iff, andb_true_iff. unfold dict_mem.
    destruct (dict_get key (_memory_cache c)) as [v|]; [split; eauto|].
    destruct (use_disk_cache c), fd as [e|].
    + split; [intros [[=] | [_ [=]]] | intros [[? [=]] | (_ & [=] & _)]].
    + rewrite bool_decide_eq_true. split.
      * intros [[=] | [_ H]]. by right.
      * intros [[? [=]] | (_ & _ & H)]. by right.
    + split; [intros [[=] | [[=] _]] | intros [[? [=]] | ([=] & _)]].
    + split; [intros [[=] | [[=] _]] | intros [[? [=]] | ([=] & _)]].
  - rewrite Hm. apply dict_get_remove_eq.
  - intros Hfd now fg dflt. apply get_miss.
    + rewrite Hm, dict_get_remove_eq. by intros [? [=]].
    + rewrite Hu, Hdir. intros Hdisk _ data. rewrite Hdisk, Hfd, lookup_delete_eq by done.
      discriminate.
  - intros Hwf now fg k dflt Hk.
    assert (Hne : key <> k) by (intros ->; done).
    assert (Hwf' : wf c').
    { destruct Hwf as [Hnd Hsub]. split.
      - rewrite He. by apply NoDup_dict_remove.
      - intros j. rewrite He, Hm. destruct (decide (key = j)) as [<-|Hj].
        + rewrite dict_get_remove_eq. by intros [? [=]].
        + rewrite !dict_get_remove_ne by done. apply Hsub. }
    destruct (get_ok now fg k dflt c Hwf) as (c1 & -> & _).
    destruct (get_ok now fg k dflt c' Hwf') as (c2 & -> & _).
    cbn. f_equal. unfold value_of, disk_value.
    rewrite Hm, He, Hu, Hdir, !dict_get_remove_ne by done.
    assert (Hdel' : base.delete (_get_disk_key key) (cache_dir c) !! _get_disk_key k
                    = cache_dir c !! _get_disk_key k) by (by apply lookup_delete_ne).
    destruct (use_disk_cache c), fd; rewrite ?Hdel'; done.
Qed.

(** One file after another, [clear] removes what [os.remove] lets it. *)
Lemma clear_files rf (files : list (string * DiskEntry V)) c :
  exists c',
    for_each files (fun cache_file =>
                      try_except (os_remove rf (fst cache_file)) (fun e => ret tt)) c
      = (c', Ok tt) /\
    use_disk_cache c' = use_disk_cache c /\
    max_memory_items c' = max_memory_items c /\
    _memory_cache c' = _memory_cache c /\
    _expiry_times c' = _expiry_times c /\
    cache_dir c'
      = foldl (fun d f => if bool_decide (rf (fst f) = None) then base.delete (fst f) d else d)
          (cache_dir c) files.
Proof.
  revert c. induction files as [|f files IH]; intros c; [by exists c|].
  cbn [for_each foldl]. unfold bind at 1, try_except at 1, os_remove at 1.
  destruct (rf (fst f)) as [e|] eqn:Hrf; cbn [raise ret modify].
  - rewrite bool_decide_false by done. apply IH.
  - rewrite bool_decide_true by done.
    destruct (IH (set_cache_dir (base.delete (fst f)) c)) as (c' & -> & ? & ? & ? & ? & Hd).
    exists c'. by rewrite Hd.
Qed.

(** Deleting some files of a listing, in the order of the listing. *)
Lemma lookup_foldl_delete_None {B} (P : string * B -> bool) (files : list (string * B))
    (d : gmap string B) (name : string) :
  d !! name = None ->
  foldl (fun d f => if P f then base.delete (fst f) d else d) d files !! name = None.
Proof.
  revert d. induction files as [|f files IH]; intros d Hd; [done|].
  cbn. apply IH. destruct (P f); [|done].
  destruct (decide (fst f = name)) as [->|Hne];
    [apply lookup_delete_eq | by rewrite lookup_delete_ne].
Qed.

Lemma lookup_foldl_delete_hit {B} (P : string * B -> bool) (files : list (string * B))
    (d : gmap string B) (f : string * B) :
  f ∈ files -> P f = true ->
  foldl (fun d f => if P f then base.delete (fst f) d else d) d files !! fst f = None.
Proof.
  revert d. induction files as [|g files IH]; intros d Hin HP; [by apply elem_of_nil in Hin|].
  apply elem_of_cons in Hin as [<- | Hin]; [|by apply IH].
  cbn. rewrite HP. apply lookup_foldl_delete_None, lookup_delete_eq.
Qed.

Lemma lookup_foldl_delete_miss {B} (P : string * B -> bool) (files : list (string * B))
    (d : gmap string B) (name : string) :
  (forall f, f ∈ files -> fst f = name -> P f = false) ->
  foldl (fun d f => if P f then base.delete (fst f) d else d) d files !! name = d !! name.
Proof.
  revert d. induction files as [|g files IH]; intros d Hall; [done|].
  cbn. rewrite IH by (intros f Hf; apply Hall; by right).
  destruct (P g) eqn:HP; [|done]. apply lookup_delete_ne. intros Hg.
  rewrite (Hall g) in HP; [done | by left | done].
Qed.

(** The same for the listing of a whole directory. *)
Lemma lookup_sweep {B} (P : string * B -> bool) (d : gmap string B) (name : string) :
  foldl (fun d f => if P f then base.delete (fst f) d else d) d (map_to_list d) !! name
    = match d !! name with
      | Some data => if P (name, data) then None else Some data
      | None => None
      end.
Proof.
  destruct (d !! name) as [data|] eqn:Hd; [|by apply lookup_foldl_delete_None].
  destruct (P (name, data)) eqn:HP.
  - apply (lookup_foldl_delete_hit P _ d (name, data)); [|done].
    by apply elem_of_map_to_list.
  - rewrite lookup_foldl_delete_miss; [done|].
    intros [n x] Hf%elem_of_map_to_list Hn. cbn in Hn. subst n.
    rewrite Hd in Hf. injection Hf as <-. done.
Qed.

Lemma clear_ok fault rf c :
  exists c' b,
    clear fault rf c = (c', Ok b) /\
    use_disk_cache c' = use_disk_cache c /\
    max_memory_items c' = max_memory_items c /\
    _memory_cache c' = [] /\ _expiry_times c' = [] /\
    b = negb (use_disk_cache c && bool_decide (is_Some fault)) /\
    forall name,
      cache_dir c' !! name
        = if use_disk_cache c then
            match fault, rf name with
            | None, None => None
            | _, _ => cache_dir c !! name
            end
          else cache_dir c !! name.
Proof.
  unfold clear, bind at 1, modify at 1. unfold bind at 1, modify at 1.
  unfold bind at 1, read at 1. cbn [use_disk_cache set_memory set_expiry].
  destruct (use_disk_cache c) eqn:Hu; [|by eexists _, _].
  unfold try_except, disk_access, bind at 1.
  destruct fault as [e|]; cbn [raise ret]; [by eexists _, _|].
  unfold bind at 1, read at 1. unfold bind at 1.
  destruct (clear_files rf
              (glob (set_expiry (fun _ => []) (set_memory (fun _ => []) c)))
              (set_expiry (fun _ => []) (set_memory (fun _ => []) c)))
    as (c' & Hfe & ? & ? & Hm & He & Hd).
  unfold try_except in Hfe. rewrite Hfe.
  cbn in *. exists c', true. split_and!; try done; try congruence.
  intros name. rewrite Hd. unfold glob. cbn [cache_dir set_memory set_expiry].
  rewrite (lookup_sweep (fun f => bool_decide (rf (fst f) = None))). cbn.
  destruct (cache_dir c !! name), (rf name); done.
Qed.

(** X16.  [clear] returns from any cache and leaves both dictionaries
    empty.  It answers [False] only when the disk tier is enabled and the
    directory cannot be listed: a file that [os.remove] refuses stays in
    place without changing the answer.  Where the disk tier is disabled, or
    the listing worked and the file of the key could be removed, a [get]
    that follows returns the default. *)
Theorem X16_clear_empties_the_cache (c : Cache V) (fault : option exn)
    (rf : string -> option exn) :
  exists c' b,
    clear fault rf c = (c', Ok b) /\
    _memory_cache c' = [] /\ _expiry_times c' = [] /\
    (b = false <-> use_disk_cache c = true /\ is_Some fault) /\
    (forall name, is_Some (rf name) -> cache_dir c' !! name = cache_dir c !! name) /\
    (forall now fg key dflt,
       (use_disk_cache c = true -> fault = None /\ rf (_get_disk_key key) = None) ->
       snd (get _get_disk_key now fg key dflt c') = Ok dflt).
Proof.
  destruct (clear_ok fault rf c) as (c' & b & Hc & Hu & _ & Hm & He & Hb & Hd).
  exists c', b. split_and!; try done.
  - rewrite Hb, negb_false_iff, andb_true_iff, bool_decide_eq_true. done.
  - intros name [e Hrf]. rewrite Hd, Hrf. by destruct (use_disk_cache c), fault.
  - intros now fg key dflt Hok. apply get_miss.
    + rewrite Hm. by intros [? [=]].
    + rewrite Hu. intros Hdisk _ data. rewrite Hd, Hdisk.
      destruct (Hok Hdisk) as [-> ->]. discriminate.
Qed.

Lemma wf_same_dicts c c' :
  _memory_cache c' = _memory_cache c -> _expiry_times c' = _expiry_times c ->
  wf c -> wf c'.
Proof. unfold wf. by intros -> ->. Qed.

(** The first loop of [clean_expired] is an eviction that counts. *)
Lemma remove_expired_evict ks (n : Z) c :
  remove_expired ks n c
    = match evict ks c with
      | (c', Ok _) => (c', Ok (n + Z.of_nat (length ks)))
      | (c', Raised e) => (c', Raised e)
      end.
Proof.
  revert n c. induction ks as [|key rest IH]; intros n c.
  - cbn. unfold ret. do 2 f_equal. lia.
  - cbn [remove_expired evict]. unfold bind.
    destruct (del_memory key c) as [c1 [[]|e]]; [|done].
    destruct (del_expiry key c1) as [c2 [[]|e]]; [|done].
    rewrite IH. destruct (evict rest c2) as [c3 [[]|e]]; [|done].
    do 2 f_equal. cbn [length]. lia.
Qed.

Lemma NoDup_keys_filter {A} (P : string * A -> bool) (d : list (string * A)) :
  NoDup (dict_keys d) -> NoDup (map fst (List.filter P d)).
Proof.
  unfold dict_keys. induction d as [|[k v] d IH]; cbn; [done|].
  rewrite NoDup_cons. intros [Hk Hd]. destruct (P (k, v)); cbn; [|by apply IH].
  apply NoDup_cons. split; [|by apply IH].
  intros (p & Hp & Hin)%list_elem_of_fmap. apply Hk, list_elem_of_fmap.
  exists p. split; [done|]. by apply list_elem_of_In, filter_In in Hin as [Hin%list_elem_of_In _].
Qed.

(** The keys [clean_expired] collects are those whose recorded expiry has
    passed. *)
Lemma expired_keys_spec now (d : list (string * Z)) j :
  NoDup (dict_keys d) ->
  j ∈ map fst (List.filter (fun item => snd item <? now) d)
  <-> expired now (dict_get j d) = true.
Proof.
  unfold dict_keys. induction d as [|[k e] d IH]; cbn.
  - intros _. split; [by intros ?%elem_of_nil | done].
  - rewrite NoDup_cons. intros [Hk Hd]. destruct (String.eqb j k) eqn:E.
    + apply String.eqb_eq in E as ->. cbn. destruct (e <? now); cbn.
      * split; [done | intros _; by left].
      * split; [|done]. intros (p & Hp & Hin)%list_elem_of_fmap. destruct Hk.
        apply list_elem_of_fmap. exists p. split; [done|].
        by apply list_elem_of_In, filter_In in Hin as [Hin%list_elem_of_In _].
    + apply String.eqb_neq in E. rewrite <-(IH Hd).
      destruct (e <? now); cbn; [|done]. rewrite elem_of_cons.
      split; [intros [?|?]; done | by right].
Qed.

(** Files that the second loop of [clean_expired] removes: those that
    [os.remove] lets go and that cannot be read or have expired. *)
Definition doomed (now : Z) (lf rf : string -> option exn)
    (cache_file : string * DiskEntry V) : bool :=
  match rf (fst cache_file) with
  | Some _ => false
  | None =>
      match lf (fst cache_file) with
      | Some _ => true
      | None => expired now (d_expiry (snd cache_file))
      end
  end.

Lemma check_files_ok now lf rf (files : list (string * DiskEntry V)) (n : Z) c :
  exists c',
    check_files now lf rf files n c
      = (c', Ok (n + Z.of_nat (length (List.filter (doomed now lf rf) files)))) /\
    use_disk_cache c' = use_disk_cache c /\
    max_memory_items c' = max_memory_items c /\
    _memory_cache c' = _memory_cache c /\
    _expiry_times c' = _expiry_times c /\
    cache_dir c'
      = foldl (fun d f => if doomed now lf rf f then base.delete (fst f) d else d)
          (cache_dir c) files.
Proof.
  revert n c. induction files as [|f files IH]; intros n c.
  - exists c. cbn. unfold ret. split_and!; try done. do 2 f_equal. lia.
  - cbn [check_files foldl List.filter]. unfold bind at 1.
    assert (Hf : exists c1,
      check_file now lf rf f n c = (c1, Ok (if doomed now lf rf f then n + 1 else n)) /\
      use_disk_cache c1 = use_disk_cache c /\
      max_memory_items c1 = max_memory_items c /\
      _memory_cache c1 = _memory_cache c /\
      _expiry_times c1 = _expiry_times c /\
      cache_dir c1 = if doomed now lf rf f then base.delete (fst f) (cache_dir c)
                     else cache_dir c).
    { unfold check_file, doomed, try_except, bind, os_remove.
      destruct (lf (fst f)) as [e|], (rf (fst f)) as [e'|];
        cbn; try destruct (expired now (d_expiry (snd f))); cbn; by eexists. }
    destruct Hf as (c1 & -> & Hu & Hx & Hm & He & Hd).
    destruct (IH (if doomed now lf rf f then n + 1 else n) c1)
      as (c' & -> & Hu' & Hx' & Hm' & He' & Hd').
    exists c'. split_and!; try congruence.
    destruct (doomed now lf rf f); cbn [length]; do 2 f_equal; lia.
Qed.

(** [clean_expired] on a well-formed cache. *)
Lemma clean_expired_ok now fault lf rf c :
  wf c ->
  exists c' m d,
    clean_expired now fault lf rf c = (c', Ok (m, d)) /\ wf c' /\
    use_disk_cache c' = use_disk_cache c /\
    max_memory_items c' = max_memory_items c /\
    m = Z.of_nat (length (List.filter (fun item => snd item <? now) (_expiry_times c))) /\
    (forall k, dict_get k (_memory_cache c')
               = if expired now (dict_get k (_expiry_times c)) then None
                 else dict_get k (_memory_cache c)) /\
    (forall k, dict_get k (_expiry_times c')
               = if expired now (dict_get k (_expiry_times c)) then None
                 else dict_get k (_expiry_times c)) /\
    d = (if use_disk_cache c then
           match fault with
           | Some _ => 0
           | None => Z.of_nat (length (List.filter (doomed now lf rf) (glob c)))
           end
         else 0) /\
    (forall name,
       cache_dir c' !! name
         = if use_disk_cache c then
             match fault with
             | Some _ => cache_dir c !! name
             | None =>
                 match cache_dir c !! name with
                 | Some data => if doomed now lf rf (name, data) then None else Some data
                 | None => None
                 end
             end
           else cache_dir c !! name).
Proof.
  intros Hwf. pose proof Hwf as [Hnd Hsub].
  set (ks := map fst (List.filter (fun item => snd item <? now) (_expiry_times c))).
  assert (Hks : forall k, k ∈ ks <-> expired now (dict_get k (_expiry_times c)) = true)
    by (intros k; by apply expired_keys_spec).
  destruct (evict_ok ks c) as (c1 & Hev & Hw).
  { by apply NoDup_keys_filter. }
  { intros k Hk%Hks%expired_is_Some. split; [by apply Hsub | done]. }
  assert (Hwf1 : wf c1) by (by eapply without_wf).
  destruct Hw as (Hu & Hx & Hdir & Hm & He & _).
  assert (Hm' : forall k, dict_get k (_memory_cache c1)
                          = if expired now (dict_get k (_expiry_times c)) then None
                            else dict_get k (_memory_cache c)).
  { intros k. rewrite Hm. destruct (decide (k ∈ ks)) as [Hk|Hk].
    - apply Hks in Hk. by rewrite Hk.
    - destruct (expired now (dict_get k (_expiry_times c))) eqn:E; [|done].
      by apply Hks in E. }
  assert (He' : forall k, dict_get k (_expiry_times c1)
                          = if expired now (dict_get k (_expiry_times c)) then None
                            else dict_get k (_expiry_times c)).
  { intros k. rewrite He. destruct (decide (k ∈ ks)) as [Hk|Hk].
    - apply Hks in Hk. by rewrite Hk.
    - destruct (expired now (dict_get k (_expiry_times c))) eqn:E; [|done].
      by apply Hks in E. }
  unfold clean_expired. unfold bind at 1, read at 1. fold ks.
  unfold bind at 1. rewrite remove_expired_evict, Hev.
  unfold bind at 1, read at 1. rewrite Hu.
  assert (Hlen : 0 + Z.of_nat (length ks)
                 = Z.of_nat (length (List.filter (fun item => snd item <? now)
                                                 (_expiry_times c))))
    by (unfold ks; rewrite length_map; lia).
  destruct (use_disk_cache c) eqn:Hdisk.
  - unfold bind at 1, try_except, disk_access. destruct fault as [e|].
    + unfold bind, raise, ret. exists c1, (0 + Z.of_nat (length ks)), 0.
      split_and!; try done. intros name. by rewrite Hdir.
    + unfold bind at 1, ret at 1. unfold bind at 1, read at 1.
      destruct (check_files_ok now lf rf (glob c1) 0 c1)
        as (c2 & -> & Hu2 & Hx2 & Hm2 & He2 & Hd2).
      unfold ret. eexists c2, _, _. split; [reflexivity|].
      assert (Hglob : glob c1 = glob c) by (unfold glob; by rewrite Hdir).
      split_and!; try congruence.
      * by apply (wf_same_dicts c1).
      * intros k. by rewrite Hm2.
      * intros k. by rewrite He2.
      * rewrite Hglob. lia.
      * intros name. rewrite Hd2, Hglob, Hdir. apply lookup_sweep.
  - unfold ret. exists c1, (0 + Z.of_nat (length ks)), 0.
    split_and!; try done. intros name. by rewrite Hdir.
Qed.

(** X17.  On a well-formed cache [clean_expired] returns.  Its first
    count is the number of recorded expiry times that have passed, and
    exactly the keys of those lose their memory entry and their expiry.
    With the disk tier enabled and the directory listed, its second count
    is the number of files that [os.remove] lets go and that have expired
    or cannot be read, and exactly those are removed; otherwise the count
    is zero and the directory is untouched. *)
Theorem X17_clean_expired_removes_what_it_counts (c : Cache V) (now : Z)
    (fault : option exn) (lf rf : string -> option exn) :
  wf c ->
  exists c' memory_removed disk_removed,
    clean_expired now fault lf rf c = (c', Ok (memory_removed, disk_removed)) /\
    memory_removed
      = Z.of_nat (length (List.filter (fun item => snd item <? now) (_expiry_times c))) /\
    (forall k, dict_get k (_memory_cache c')
               = if expired now (dict_get k (_expiry_times c)) then None
                 else dict_get k (_memory_cache c)) /\
    (forall k, dict_get k (_expiry_times c')
               = if expired now (dict_get k (_expiry_times c)) then None
                 else dict_get k (_expiry_times c)) /\
    (use_disk_cache c = true -> fault = None ->
       disk_removed = Z.of_nat (length (List.filter (doomed now lf rf) (glob c))) /\
       forall name data,
         cache_dir c !! name = Some data ->
         cache_dir c' !! name = if doomed now lf rf (name, data) then None else Some data) /\
    (use_disk_cache c = false \/ is_Some fault ->
       disk_removed = 0 /\ cache_dir c' = cache_dir c).
Proof.
  intros Hwf.
  destruct (clean_expired_ok now fault lf rf c Hwf)
    as (c' & m & d & Hc & _ & _ & _ & Hm & Hmem & Hexp & Hd & Hdir).
  exists c', m, d. split_and!; try done.
  - intros Hu ->. rewrite Hu in Hd, Hdir. split; [done|].
    intros name data Hname. by rewrite Hdir, Hname.
  - intros Hoff. split.
    + destruct Hoff as [Hu | [e ->]]; [by rewrite Hu in Hd|].
      by destruct (use_disk_cache c).
    + apply map_eq. intros name. rewrite Hdir.
      destruct Hoff as [Hu | [e ->]]; [by rewrite Hu|]. by destruct (use_disk_cache c).
Qed.

(** X18.  Cleaning is invisible to readers: on a well-formed cache whose
    files can all be read, a [get] at the clock reading of the clean-up
    returns the same value after [clean_expired] as before it, whatever
    else fails. *)
Theorem X18_clean_expired_is_invisible (c : Cache V) (now : Z)
    (fault fg : option exn) (lf rf : string -> option exn) (key : string) (dflt : V) :
  wf c ->
  (forall name, lf name = None) ->
  snd (get _get_disk_key now fg key dflt (fst (clean_expired now fault lf rf c)))
    = snd (get _get_disk_key now fg key dflt c).
Proof.
  intros Hwf Hlf.
  destruct (clean_expired_ok now fault lf rf c Hwf)
    as (c' & m & d & -> & Hwf' & Hu & _ & _ & Hmem & Hexp & _ & Hdir).
  cbn [fst].
  destruct (get_ok now fg key dflt c Hwf) as (c1 & -> & _).
  destruct (get_ok now fg key dflt c' Hwf') as (c2 & -> & _).
  cbn. f_equal.
  assert (Hdisk : disk_value now fg key dflt c' = disk_value now fg key dflt c).
  { unfold disk_value. rewrite Hu, Hdir.
    destruct (use_disk_cache c); [|done]. destruct fg; [done|].
    destruct fault; [done|].
    destruct (cache_dir c !! _get_disk_key key) as [data|]; [|done].
    unfold doomed. rewrite Hlf. cbn.
    destruct (rf (_get_disk_key key)); [done|].
    by destruct (expired now (d_expiry data)) eqn:E; [|rewrite E]. }
  unfold value_of. rewrite Hmem, Hexp, Hdisk.
  destruct (expired now (dict_get key (_expiry_times c))) eqn:E.
  - by destruct (dict_get key (_memory_cache c)).
  - by rewrite E.
Qed.

(** *** The memory tier stays a dictionary *)

(** [m] leaves the keys of the memory tier distinct. *)
Definition keeps_keys {A} (m : M (Cache V) A) : Prop :=
  forall c c' r, m c = (c', r) ->
    NoDup (dict_keys (_memory_cache c)) -> NoDup (dict_keys (_memory_cache c')).

Lemma keeps_keys_ret {A} (a : A) : keeps_keys (ret a).
Proof. by intros c c' r [= <- <-]. Qed.

Lemma keeps_keys_raise {A} (e : exn) : keeps_keys (@raise _ A e).
Proof. by intros c c' r [= <- <-]. Qed.

Lemma keeps_keys_read : keeps_keys read.
Proof. by intros c c' r [= <- <-]. Qed.

Lemma keeps_keys_bind {A B} (m : M (Cache V) A) (k : A -> M (Cache V) B) :
  keeps_keys m -> (forall a, keeps_keys (k a)) -> keeps_keys (bind m k).
Proof.
  intros Hm Hk c c' r. unfold bind. destruct (m c) as [c1 [a|e]] eqn:E.
  - intros Hka Hnd. eapply Hk; [exact Hka|]. by eapply Hm.
  - intros [= <- <-]. by eapply Hm.
Qed.

Lemma keeps_keys_try_except {A} (body : M (Cache V) A) (handler : exn -> M (Cache V) A) :
  keeps_keys body -> (forall e, keeps_keys (handler e)) -> keeps_keys (try_except body handler).
Proof.
  intros Hb Hh c c' r. unfold try_except. destruct (body c) as [c1 [a|e]] eqn:E.
  - intros [= <- <-]. by eapply Hb.
  - intros Hhe Hnd. eapply Hh; [exact Hhe|]. by eapply Hb.
Qed.

Lemma keeps_keys_modify (f : Cache V -> Cache V) :
  (forall c, NoDup (dict_keys (_memory_cache c)) -> NoDup (dict_keys (_memory_cache (f c)))) ->
  keeps_keys (modify f).
Proof. intros Hf c c' r [= <- <-]. apply Hf. Qed.

Lemma keeps_keys_del_memory key : keeps_keys (del_memory key).
Proof.
  intros c c' r. unfold del_memory, dict_del.
  destruct (dict_mem key (_memory_cache c)); intros [= <- <-]; [|done].
  cbn. apply NoDup_dict_remove.
Qed.

Lemma keeps_keys_del_expiry key : keeps_keys (del_expiry key).
Proof.
  intros c c' r. unfold del_expiry, dict_del.
  by destruct (dict_mem key (_expiry_times c)); intros [= <- <-].
Qed.

Lemma keeps_keys_for_each {A} (l : list A) (body : A -> M (Cache V) unit) :
  (forall x, keeps_keys (body x)) -> keeps_keys (for_each l body).
Proof.
  intros Hb. induction l as [|x l IH]; cbn; [apply keeps_keys_ret|].
  apply keeps_keys_bind; [apply Hb | by intros _].
Qed.

Lemma keeps_keys_evict ks : keeps_keys (evict ks).
Proof.
  induction ks as [|key rest IH]; cbn [evict]; [apply keeps_keys_ret|].
  apply keeps_keys_bind; [apply keeps_keys_del_memory | intros _].
  apply keeps_keys_bind; [apply keeps_keys_del_expiry | by intros _].
Qed.

Ltac keeps_keys :=
  repeat first
    [ match goal with H : _ |- keeps_keys _ => simple apply H end
    | apply keeps_keys_ret | apply keeps_keys_raise | apply keeps_keys_read
    | apply keeps_keys_del_memory | apply keeps_keys_del_expiry
    | apply keeps_keys_evict
    | apply keeps_keys_bind | apply keeps_keys_try_except
    | apply keeps_keys_modify; intros ? ?; cbn;
      solve [done | by apply NoDup_dict_set | apply NoDup_nil_2]
    | match goal with
      | |- keeps_keys (if ?x then _ else _) => destruct x
      | |- keeps_keys (match ?x with _ => _ end) => destruct x
      | |- keeps_keys (let _ := _ in _) => cbv zeta
      | |- keeps_keys _ => fail 1
      | |- forall _, _ => intro
      end ].

Lemma keeps_keys_check_memory_cache_size : keeps_keys (@_check_memory_cache_size V).
Proof. unfold _check_memory_cache_size. keeps_keys. Qed.

Lemma keeps_keys_get now fg key dflt : keeps_keys (get _get_disk_key now fg key dflt).
Proof.
  unfold get, disk_access. pose proof keeps_keys_check_memory_cache_size. keeps_keys.
Qed.

Lemma keeps_keys_set now fs key value expire_in :
  keeps_keys (set _get_disk_key now fs key value expire_in).
Proof.
  unfold set, disk_access. pose proof keeps_keys_check_memory_cache_size. keeps_keys.
Qed.

Lemma keeps_keys_delete fd key : keeps_keys (delete _get_disk_key fd key).
Proof. unfold delete, disk_access. keeps_keys. Qed.

Lemma keeps_keys_clear fault rf : keeps_keys (clear fault rf).
Proof.
  unfold clear, disk_access. keeps_keys.
  apply keeps_keys_for_each. intros f. unfold os_remove. keeps_keys.
Qed.

Lemma keeps_keys_remove_expired ks n : keeps_keys (remove_expired ks n).
Proof. revert n. induction ks as [|key rest IH]; intros n; cbn [remove_expired]; keeps_keys. Qed.

Lemma keeps_keys_check_files now lf rf files n : keeps_keys (check_files now lf rf files n).
Proof.
  revert n. induction files as [|f files IH]; intros n; cbn [check_files]; keeps_keys.
  all: unfold check_file, os_remove; keeps_keys.
Qed.

Lemma keeps_keys_clean_expired now fault lf rf : keeps_keys (clean_expired now fault lf rf).
Proof.
  unfold clean_expired, disk_access.
  pose proof keeps_keys_remove_expired. pose proof keeps_keys_check_files. keeps_keys.
Qed.

(** The calls a client can make, each with the clock reading and the
    faults it meets. *)
Inductive call :=
| DoGet (now : Z) (fault : option exn) (key : string) (default : V)
| DoSet (now : Z) (fault : option exn) (key : string) (value : V) (expire_in : option Z)
| DoDelete (fault : option exn) (key : string)
| DoClear (fault : option exn) (rf : string -> option exn)
| DoCleanExpired (now : Z) (fault : option exn) (lf rf : string -> option exn).

Definition perform (op : call) : M (Cache V) unit :=
  match op with
  | DoGet now fault key default => get _get_disk_key now fault key default ;; ret tt
  | DoSet now fault key value expire_in =>
      set _get_disk_key now fault key value expire_in ;; ret tt
  | DoDelete fault key => delete _get_disk_key fault key ;; ret tt
  | DoClear fault rf => clear fault rf ;; ret tt
  | DoCleanExpired now fault lf rf => clean_expired now fault lf rf ;; ret tt
  end.

Lemma perform_ok op c :
  wf c -> NoDup (dict_keys (_memory_cache c)) ->
  exists c', perform op c = (c', Ok tt) /\ wf c' /\ NoDup (dict_keys (_memory_cache c')).
Proof.
  intros Hwf Hnd. destruct op as [now fg key dflt | now fs key v ttl | fd key | f rf | now f lf rf];
    unfold perform, bind.
  - destruct (get_ok now fg key dflt c Hwf) as (c' & Hc & Hwf'). rewrite Hc.
    exists c'. split_and!; [done..|]. by eapply keeps_keys_get.
  - destruct (set_wf now fs key v ttl c Hwf) as (c' & b & Hc & Hwf'). rewrite Hc.
    exists c'. split_and!; [done..|]. by eapply keeps_keys_set.
  - destruct (delete_ok fd key c) as (c' & b & Hc & _ & _ & Hm & He & _). rewrite Hc.
    exists c'. split_and!; [done | | by eapply keeps_keys_delete].
    destruct Hwf as [Hnde Hsub]. split.
    + rewrite He. by apply NoDup_dict_remove.
    + intros j. rewrite He, Hm. destruct (decide (key = j)) as [<-|Hj].
      * rewrite dict_get_remove_eq. by intros [? [=]].
      * rewrite !dict_get_remove_ne by done. apply Hsub.
  - destruct (clear_ok f rf c) as (c' & b & Hc & _ & _ & Hm & He & _). rewrite Hc.
    exists c'. split_and!; [done | | by eapply keeps_keys_clear].
    split; rewrite He; [apply NoDup_nil_2 | by intros k [? [=]]].
  - destruct (clean_expired_ok now f lf rf c Hwf) as (c' & m & d & Hc & Hwf' & _). rewrite Hc.
    exists c'. split_and!; [done..|]. by eapply keeps_keys_clean_expired.
Qed.

(** X19.  The cache never raises: from an empty cache, every sequence
    of [get], [set], [delete], [clear] and [clean_expired] calls, at any
    clock readings and under any disk faults, returns normally.  The
    unguarded [del] statements are safe because along the way every key
    with a recorded expiry has a memory entry. *)
Theorem X19_the_cache_never_raises (use_disk : bool) (max_items : Z) (ops : list call) :
  exists c,
    for_each ops perform (init use_disk max_items) = (c, Ok tt) /\
    (forall k, is_Some (dict_get k (_expiry_times c)) ->
               is_Some (dict_get k (_memory_cache c))) /\
    NoDup (dict_keys (_memory_cache c)) /\ NoDup (dict_keys (_expiry_times c)).
Proof.
  assert (H : forall c0, wf c0 -> NoDup (dict_keys (_memory_cache c0)) ->
    exists c, for_each ops perform c0 = (c, Ok tt) /\ wf c /\
              NoDup (dict_keys (_memory_cache c))).
  { induction ops as [|op ops IH]; intros c0 Hwf Hnd; [by exists c0|].
    cbn [for_each]. unfold bind.
    destruct (perform_ok op c0 Hwf Hnd) as (c1 & -> & Hwf1 & Hnd1). by apply IH. }
  destruct (H (init use_disk max_items)) as (c & Hc & [Hnde Hsub] & Hnd).
  - apply wf_init.
  - apply NoDup_nil_2.
  - by exists c.
Qed.

(** *** Eviction *)

Lemma dict_remove_length {A} k (d : list (string * A)) :
  NoDup (dict_keys d) -> dict_mem k d = true ->
  S (length (dict_remove k d)) = length d.
Proof.
  unfold dict_keys, dict_mem. induction d as [|[k' v'] d IH]; cbn; [done|].
  rewrite NoDup_cons. intros [Hk Hd]. destruct (String.eqb k k') eqn:E; cbn.
  - intros _. apply String.eqb_eq in E as <-.
    f_equal. change (List.filter _ d) with (dict_remove k d).
    rewrite dict_remove_absent; [done|]. unfold dict_mem.
    destruct (dict_get k d) eqn:Hg; [|done].
    destruct Hk. apply dict_get_is_Some. eauto.
  - intros Hm. f_equal. by apply IH.
Qed.

Lemma evict_length ks c c' :
  evict ks c = (c', Ok tt) ->
  NoDup (dict_keys (_memory_cache c)) ->
  (length (_memory_cache c') + length ks = length (_memory_cache c))%nat.
Proof.
  revert c. induction ks as [|key rest IH]; intros c.
  - intros [= <-] _. cbn. lia.
  - cbn [evict]. unfold bind, del_memory, del_expiry, dict_del.
    destruct (dict_mem key (_memory_cache c)) eqn:Hm; [|discriminate]. cbn [_expiry_times set_memory].
    destruct (dict_mem key (_expiry_times c)) eqn:He; [|discriminate].
    intros Hev Hnd. apply IH in Hev; [|by apply NoDup_dict_remove].
    cbn in Hev |- *. pose proof (dict_remove_length key _ Hnd Hm). lia.
Qed.

Lemma StronglySorted_True {A} (l : list A) : StronglySorted (fun _ _ => True) l.
Proof.
  induction l as [|x l IH]; constructor; [done|]. by apply Forall_forall.
Qed.

Lemma le_inf_total (a b : option Z) : le_inf a b = false -> le_inf b a = true.
Proof.
  destruct a as [x|], b as [y|]; cbn; try done.
  intros H%Z.leb_gt. apply Z.leb_le. lia.
Qed.

Lemma le_inf_trans (a b c : option Z) :
  le_inf a b = true -> le_inf b c = true -> le_inf a c = true.
Proof.
  destruct a as [x|], b as [y|], c as [z|]; cbn; try done.
  intros H1%Z.leb_le H2%Z.leb_le. apply Z.leb_le. lia.
Qed.

(** X20.  When the memory tier of a well-formed cache is over its bound,
    [_check_memory_cache_size] evicts the entries whose expiry comes
    first: it returns, every key it evicts had an expiry no later than
    that of any key that keeps one, and the tier is left with the larger
    of its bound and the number of entries without expiry.  Within the
    bound nothing changes. *)
Theorem X20_eviction_takes_the_earliest_expiry (c : Cache V) :
  wf c -> NoDup (dict_keys (_memory_cache c)) ->
  let len := Z.of_nat (length (_memory_cache c)) in
  let timed := Z.of_nat (length (_expiry_times c)) in
  exists c' ks,
    _check_memory_cache_size c = (c', Ok tt) /\
    (forall k, dict_get k (_memory_cache c')
               = if decide (k ∈ ks) then None else dict_get k (_memory_cache c)) /\
    (forall k, dict_get k (_expiry_times c')
               = if decide (k ∈ ks) then None else dict_get k (_expiry_times c)) /\
    Z.of_nat (length (_memory_cache c'))
      = Z.max (Z.min len (max_memory_items c)) (len - timed) /\
    (forall k j ek ej,
       k ∈ ks -> dict_get k (_expiry_times c) = Some ek ->
       dict_get j (_expiry_times c') = Some ej -> ek <= ej).
Proof.
  intros Hwf Hndm len timed. pose proof Hwf as [Hnd Hsub].
  assert (Hsize : (length (_expiry_times c) <= length (_memory_cache c))%nat).
  { rewrite <-(length_map fst (_expiry_times c)), <-(length_map fst (_memory_cache c)).
    apply submseteq_length, NoDup_submseteq; [done|].
    intros k Hk. apply dict_get_is_Some, Hsub, dict_get_is_Some, Hk. }
  unfold _check_memory_cache_size, bind, read. fold len.
  destruct (len >? max_memory_items c) eqn:Hlen.
  - set (le := fun a b : string => le_inf (expiry_or_inf c a) (expiry_or_inf c b)).
    set (sorted := stable_sort le (dict_keys (_expiry_times c))).
    set (n := Z.to_nat (len - max_memory_items c)).
    assert (Hperm : sorted ≡ₚ dict_keys (_expiry_times c))
      by apply stable_sort_Permutation.
    assert (Hks : forall k, k ∈ take n sorted -> k ∈ dict_keys (_expiry_times c)).
    { intros k Hk. apply subseteq_take in Hk. by rewrite Hperm in Hk. }
    destruct (evict_ok (take n sorted) c) as (c' & Hev & Hw).
    { eapply sublist_NoDup; [|apply sublist_take]. by rewrite Hperm. }
    { intros k Hk%Hks%dict_get_is_Some. split; [by apply Hsub | done]. }
    exists c', (take n sorted). destruct Hw as (_ & _ & _ & Hm & He & _).
    split_and!; [done.. | |].
    + pose proof (evict_length _ _ _ Hev Hndm) as Hl.
      rewrite length_take in Hl.
      assert (length sorted = length (_expiry_times c)) as Hs.
      { rewrite Hperm. unfold dict_keys. apply length_map. }
      rewrite Hs in Hl. apply Z.gtb_lt in Hlen. unfold timed. subst n. lia.
    + intros k j ek ej Hk Hek Hej.
      rewrite He in Hej. destruct (decide (j ∈ take n sorted)) as [|Hj]; [done|].
      assert (Hjs : j ∈ drop n sorted).
      { assert (j ∈ sorted) as Hin.
        { rewrite Hperm. apply dict_get_is_Some. eauto. }
        rewrite <-(take_drop n sorted) in Hin. apply elem_of_app in Hin as [|]; done. }
      pose proof (stable_sort_StronglySorted le
                    (fun x y => le_inf_total _ _)
                    (fun x y z => le_inf_trans _ _ _)
                    (fun _ _ => True) (dict_keys (_expiry_times c))
                    (StronglySorted_True _)) as Hsorted.
      fold sorted in Hsorted. rewrite <-(take_drop n sorted) in Hsorted.
      apply StronglySorted_app in Hsorted as (Hcross & _ & _).
      destruct (Hcross k j Hk Hjs) as [Hle _].
      unfold le, expiry_or_inf in Hle. rewrite Hek, Hej in Hle. by apply Z.leb_le.
  - exists c, []. rewrite Z.gtb_ltb in Hlen. apply Z.ltb_ge in Hlen.
    split_and!; [done | done | done | unfold timed; lia |].
    intros k j ek ej Hk. by apply elem_of_nil in Hk.
Qed.
End MaintenanceFacts.

(** A cache bounded to one memory entry that holds three: ["a"] until
    tick 50, with its file, ["b"] until tick 20 and ["c"] for ever. *)
Definition stocked : Cache string :=
  {| use_disk_cache := true; max_memory_items := 1;
     _memory_cache := [("a", "1"); ("b", "2"); ("c", "3")];
     _expiry_times := [("a", 50); ("b", 20)];
     cache_dir := {[ "a" := {| d_key := "a"; d_value := "1"; d_created_at := 0;
                               d_expiry := Some 50 |} ]} |}.

Lemma stocked_wf : wf stocked.
Proof.
  split; cbn.
  - apply NoDup_cons. split; [by intros [=]%list_elem_of_singleton | apply NoDup_singleton].
  - intros k. destruct (String.eqb k "a"); [intros _; by eexists|].
    destruct (String.eqb k "b"); [intros _; by eexists|]. by intros [? [=]].
Qed.

Lemma stocked_keys : NoDup (dict_keys (_memory_cache stocked)).
Proof.
  apply (bool_decide_unpack _). vm_compute. exact I.
Qed.

Lemma X15_delete_then_get_witness :
  (exists c' found,
     delete (fun k => k) (Some (Exn "OSError" "disk")) "a" stocked = (c', Ok found) /\
     found = true /\ dict_get "a" (_memory_cache c') = None) /\
  (exists c' found,
     delete (fun k => k) None "a" stocked = (c', Ok found) /\
     found = true /\
     forall now fg dflt, snd (get (fun k => k) now fg "a" dflt c') = Ok dflt).
Proof.
  split.
  - destruct (X15_delete_then_get (fun k => k) stocked (Some (Exn "OSError" "disk")) "a")
      as (c' & found & Hdel & Hfound & Hmem & _).
    exists c', found. split; [exact Hdel|]. split; [|exact Hmem].
    apply Hfound. left. exists "1". reflexivity.
  - destruct (X15_delete_then_get (fun k => k) stocked None "a")
      as (c' & found & Hdel & Hfound & _ & Hget & _).
    exists c', found. split; [exact Hdel|]. split.
    + apply Hfound. left. exists "1". reflexivity.
    + apply Hget. reflexivity.
Defined.

Lemma X17_clean_expired_removes_what_it_counts_witness :
  exists c' memory_removed disk_removed,
    clean_expired 30 None (fun _ => None) (fun _ => None) stocked
      = (c', Ok (memory_removed, disk_removed)) /\
    memory_removed
      = Z.of_nat (length (List.filter (fun item => snd item <? 30) (_expiry_times stocked))) /\
    (forall k, dict_get k (_memory_cache c')
               = if expired 30 (dict_get k (_expiry_times stocked)) then None
                 else dict_get k (_memory_cache stocked)) /\
    (forall k, dict_get k (_expiry_times c')
               = if expired 30 (dict_get k (_expiry_times stocked)) then None
                 else dict_get k (_expiry_times stocked)) /\
    (use_disk_cache stocked = true -> @None exn = None ->
       disk_removed
         = Z.of_nat (length (List.filter (doomed 30 (fun _ => None) (fun _ => None))
                                         (glob stocked))) /\
       forall name data,
         cache_dir stocked !! name = Some data ->
         cache_dir c' !! name
           = if doomed 30 (fun _ => None) (fun _ => None) (name, data) then None
             else Some data) /\
    (use_disk_cache stocked = false \/ is_Some (@None exn) ->
       disk_removed = 0 /\ cache_dir c' = cache_dir stocked).
Proof.
  apply (X17_clean_expired_removes_what_it_counts stocked 30 None
           (fun _ => None) (fun _ => None)).
  apply stocked_wf.
Defined.

Lemma X18_clean_expired_is_invisible_witness :
  snd (get (fun k => k) 30 None "b" "miss"
         (fst (clean_expired 30 None (fun _ => None) (fun _ => None) stocked)))
    = snd (get (fun k => k) 30 None "b" "miss" stocked).
Proof.
  apply (X18_clean_expired_is_invisible (fun k => k) stocked 30 None None
           (fun _ => None) (fun _ => None) "b" "miss").
  - apply stocked_wf.
  - reflexivity.
Defined.

Lemma X20_eviction_takes_the_earliest_expiry_witness :
  let len := Z.of_nat (length (_memory_cache stocked)) in
  let timed := Z.of_nat (length (_expiry_times stocked)) in
  exists c' (ks : list string),
    _check_memory_cache_size stocked = (c', Ok tt) /\
    (forall k, dict_get k (_memory_cache c')
               = if decide (k ∈ ks) then None else dict_get k (_memory_cache stocked)) /\
    (forall k, dict_get k (_expiry_times c')
               = if decide (k ∈ ks) then None else dict_get k (_expiry_times stocked)) /\
    Z.of_nat (length (_memory_cache c'))
      = Z.max (Z.min len (max_memory_items stocked)) (len - timed) /\
    (forall k j ek ej,
       k ∈ ks -> dict_get k (_expiry_times stocked) = Some ek ->
       dict_get j (_expiry_times c') = Some ej -> ek <= ej).
Proof.
  apply (X20_eviction_takes_the_earliest_expiry stocked).
  - apply stocked_wf.
  - apply stocked_keys.
Defined.

End Cache.


(** ** Python's [<] on floats *)

Module FloatOrder.
Import SpecFloat.







End FloatOrder.


(** ** Local fallback vector index ([pinecone_fallback.py]) *)

Module VectorIndex.

(** The engine is written against NumPy doubles.  Everything but the
    arithmetic is independent of the number type, so the vector components
    [Num], the scores [Score], the similarity kernel and Python's [<] on
    scores are parameters here; [Doubles] below supplies the source's
    instance over IEEE binary64.  [Val] is the type of metadata values,
    which the code compares with [!=]. *)
Section Engine.
Context {Val : Type} `{EqDecision Val}.
Context {Num Score : Type}.
Variable _calculate_similarity : list Num -> list Num -> string -> Score.
Variable lt : Score -> Score -> bool.

(** A row of the SQLite table [vectors].  The table is the list of its rows
    in ascending [rowid], the order in which a full scan returns them. *)
Record Row := {
  rowid : Z;
  id : string;
  values : list Num;
  metadata : list (string * Val);
  namespace : string
}.

Record Match := {
  m_id : string;
  m_score : Score;
  m_metadata : option (list (string * Val))
}.

Record QueryResponse := {
  matches : list Match;
  r_namespace : string
}.

Definition max_rowid (vectors : list Row) : Z :=
  foldr (fun r acc => Z.max (rowid r) acc) 0 vectors.

(** [_save_vector]: [INSERT OR REPLACE] drops the row holding the same
    [id], if any, and stores the new row under a fresh, largest [rowid]. *)
Definition _save_vector (id0 : string) (vector : list Num)
    (metadata0 : list (string * Val)) (namespace0 : string)
    (vectors : list Row) : list Row :=
  List.filter (fun r => negb (String.eqb (id r) id0)) vectors
  ++ [{| rowid := max_rowid vectors + 1; id := id0; values := vector;
         metadata := metadata0; namespace := namespace0 |}].

(** [LocalPineconeIndex.upsert] of vectors given as (id, values, metadata);
    an empty id or an empty value list is skipped. *)
Definition upsert (items : list (string * list Num * list (string * Val)))
    (namespace0 : string) (vectors : list Row) : list Row :=
  foldl (fun tbl '(id0, vals, md) =>
           if String.eqb id0 "" || (match vals with [] => true | _ => false end)
           then tbl
           else _save_vector id0 vals md namespace0 tbl)
        vectors items.

(** [_get_all_vectors]: the rows of the namespace, or every row when the
    namespace is the empty string, as a dictionary from id to
    (vector, metadata). *)
Definition _get_all_vectors (namespace0 : string) (vectors : list Row)
    : list (string * (list Num * list (string * Val))) :=
  let results :=
    if negb (String.eqb namespace0 "")
    then List.filter (fun r => String.eqb (namespace r) namespace0) vectors
    else vectors in
  foldl (fun d r => dict_set (id r) (values r, metadata r) d) [] results.

(** [_match_filter], of a metadata that is a JSON object, as [upsert]
    stores for every vector given with its metadata or without; on a
    metadata that is no object the source's [key not in metadata] may
    raise. *)
Fixpoint _match_filter (metadata0 : list (string * Val))
    (filter : list (string * Val)) : bool :=
  match filter with
  | [] => true
  | (key, value) :: rest =>
      match dict_get key metadata0 with
      | None => false
      | Some v => if decide (v = value) then _match_filter metadata0 rest else false
      end
  end.

(** [if filter and not self._match_filter(metadata, filter): continue] *)
Definition kept (filter : option (list (string * Val)))
    (metadata0 : list (string * Val)) : bool :=
  match filter with
  | None | Some [] => true
  | Some f => _match_filter metadata0 f
  end.

(** [similarities.sort(key=lambda x: x[1], reverse=True)]: an entry may
    stand before another unless its score is the smaller one.  Sorted by
    insertion below, which is what every stable sort returns as long as
    [<] is a strict weak order on the scores at hand; it is not one when a
    score is NaN. *)
Definition by_score_desc (x y : string * Score * list (string * Val)) : bool :=
  negb (lt (snd (fst x)) (snd (fst y))).

(** [LocalPineconeIndex.query] for an index whose configured metric is
    [metric]. *)
Definition query (metric : string) (vectors : list Row)
    (vector : list Num) (top_k : Z) (namespace0 : string)
    (include_metadata : bool) (filter : option (list (string * Val)))
    : QueryResponse :=
  let all_vectors := _get_all_vectors namespace0 vectors in
  match all_vectors with
  | [] => {| matches := []; r_namespace := namespace0 |}
  | _ =>
      let similarities :=
        omap (fun '(id0, (vec, md)) =>
                if kept filter md
                then Some (id0, _calculate_similarity vector vec metric, md)
                else None)
             all_vectors in
      let similarities := stable_sort by_score_desc similarities in
      {| matches :=
           map (fun '(id0, score, md) =>
                  {| m_id := id0; m_score := score;
                     m_metadata := if include_metadata then Some md else None |})
               (slice_to top_k similarities);
         r_namespace := namespace0 |}
  end.
End Engine.

Arguments Row : clear implicits.
Arguments Match : clear implicits.
Arguments QueryResponse : clear implicits.

(** *** Properties of the engine *)

Section EngineFacts.
Context {Val : Type} `{EqDecision Val}.
Context {Num Score : Type}.
Variable _calculate_similarity : list Num -> list Num -> string -> Score.
Variable lt : Score -> Score -> bool.
Implicit Types (r : Row Val Num) (vectors : list (Row Val Num)).














Lemma filter_all {B} (p : B -> bool) (l : list B) :
  (forall x, p x = true) -> List.filter p l = l.
Proof. intros Hp. induction l as [|x l IH]; cbn; [done|]. by rewrite Hp, IH. Qed.

Lemma NoDup_map_filter {B C} (f : B -> C) (p : B -> bool) (l : list B) :
  NoDup (map f l) -> NoDup (map f (List.filter p l)).
Proof.
  induction l as [|x l IH]; cbn; [done|].
  intros [Hx Hl]%NoDup_cons. destruct (p x); cbn; [|by apply IH].
  apply NoDup_cons. split; [|by apply IH].
  intros (z & Hz1 & [Hz2 _]%filter_In)%list_elem_of_In%in_map_iff.
  apply Hx, list_elem_of_In, in_map_iff. eauto.
Qed.







(** The scores that [<] orders: among them [lt] is asymmetric, and each
    of them stands above the smaller or below the larger of two that [lt]
    separates. *)
Variable ordered : Score -> Prop.
Hypothesis lt_asym :
  forall a b, ordered a -> ordered b -> lt a b = true -> lt b a = false.
Hypothesis lt_cotrans :
  forall a b c, ordered a -> ordered b -> ordered c ->
    lt a c = true -> lt a b = true \/ lt b c = true.


End EngineFacts.


(** *** The source's arithmetic, over IEEE binary64 *)

Module Doubles.

Definition zero : float := 0%float.
Definition one : float := 1%float.

(** [np.dot] of two one-dimensional arrays of equal length; [None] is the
    [ValueError] of misaligned shapes.  The products are summed left to
    right here; NumPy may add them in another order, and the sum may then
    differ in its last bits.  The examples below use vectors whose sums
    are exact in any order, and the ranking theorem holds of every kernel
    that returns a binary64 number. *)
Definition dot (a b : list float) : option float :=
  if Nat.eqb (length a) (length b)
  then Some (foldl (fun acc '(x, y) => PrimFloat.add acc (PrimFloat.mul x y))
                   zero (zip a b))
  else None.

(** [np.linalg.norm] of a one-dimensional array. *)
Definition norm (a : list float) : float :=
  PrimFloat.sqrt (foldl (fun acc x => PrimFloat.add acc (PrimFloat.mul x x)) zero a).

(** [a_array - b_array]: element-wise, a one-element array being broadcast
    against the other; [None] is the [ValueError] of any other mismatch. *)
Definition sub (a b : list float) : option (list float) :=
  if Nat.eqb (length a) (length b)
  then Some (zip_with PrimFloat.sub a b)
  else match a, b with
       | [x], _ => Some (map (fun y => PrimFloat.sub x y) b)
       | _, [y] => Some (map (fun x => PrimFloat.sub x y) a)
       | _, _ => None
       end.

(** [_cosine_similarity]; the [except] branch returns [0.0]. *)
Definition _cosine_similarity (a b : list float) : float :=
  let a_norm := norm a in
  let b_norm := norm b in
  if PrimFloat.eqb a_norm zero || PrimFloat.eqb b_norm zero then zero
  else match dot a b with
       | Some d => PrimFloat.div d (PrimFloat.mul a_norm b_norm)
       | None => zero
       end.

(** [_euclidean_similarity] *)
Definition _euclidean_similarity (a b : list float) : float :=
  match sub a b with
  | Some diff => PrimFloat.div one (PrimFloat.add one (norm diff))
  | None => zero
  end.

(** [_calculate_similarity] *)
Definition _calculate_similarity (a b : list float) (metric : string) : float :=
  if String.eqb metric "cosine" then _cosine_similarity a b
  else if String.eqb metric "euclidean" then _euclidean_similarity a b
  else _cosine_similarity a b.

(** [LocalPineconeIndex.query] as the source runs it. *)
Definition query {Val : Type} `{EqDecision Val} :=
  VectorIndex.query (Val := Val) _calculate_similarity PrimFloat.ltb.

End Doubles.

(** Components and tables of the examples. *)
Definition f0 : float := 0%float.
Definition f1 : float := 1%float.







(** An integer instance of the engine: the score is the dot product. *)
Definition dotZ (a b : list Z) (_ : string) : Z :=
  foldr Z.add 0 (zip_with Z.mul a b).

Definition abcZ : list (Row string Z) :=
  upsert [("A", [1; 0], []); ("B", [0; 1], []); ("C", [1; 0], [])] "" [].

(** *** The client, its cache and the index methods *)

Module Client.

Section Engine.
Context {Val : Type} `{EqDecision Val}.
Context {Num Score : Type}.
Variable _calculate_similarity : list Num -> list Num -> string -> Score.
Variable lt : Score -> Score -> bool.

(** An entry of [vector_cache]: (vector, metadata, namespace). *)
Definition Entry : Type := list Num * list (string * Val) * string.

(** [LocalPineconeFallback]: the table [vectors] of its database and its
    [vector_cache].  Every private method opens a connection of its own;
    its [db_fault] says whether the database fails it.  One client is
    modelled, alone on its database file, and the values and metadata it is
    handed are not altered by the caller afterwards: the source caches the
    caller's own list and dict, not a copy, and every client built over the
    same file has a cache of its own. *)
Record Client := {
  vectors : list (Row Val Num);
  vector_cache : gmap string Entry
}.

(** [_save_vector] *)
Definition _save_vector (db_fault : bool) (id0 : string) (vector : list Num)
    (metadata0 : list (string * Val)) (namespace0 : string) (cl : Client)
    : Client * bool :=
  if db_fault then (cl, false)
  else
    ({| vectors := VectorIndex._save_vector id0 vector metadata0 namespace0 (vectors cl);
        vector_cache := <[id0 := (vector, metadata0, namespace0)]> (vector_cache cl) |},
     true).

(** [_get_vector] *)
Definition _get_vector (db_fault : bool) (id0 : string) (cl : Client)
    : Client * option Entry :=
  match vector_cache cl !! id0 with
  | Some hit => (cl, Some hit)
  | None =>
      if db_fault then (cl, None)
      else
        match List.find (fun r => String.eqb (id r) id0) (vectors cl) with
        | None => (cl, None)
        | Some result =>
            let entry := (values result, metadata result, namespace result) in
            ({| vectors := vectors cl;
                vector_cache := <[id0 := entry]> (vector_cache cl) |},
             Some entry)
        end
  end.

(** [_get_all_vectors]: the dictionary is the one computed from the
    table; every row read is also cached, under the namespace of the
    call. *)
Definition _get_all_vectors (db_fault : bool) (namespace0 : string) (cl : Client)
    : Client * list (string * (list Num * list (string * Val))) :=
  if db_fault then (cl, [])
  else
    let results :=
      if negb (String.eqb namespace0 "")
      then List.filter (fun r => String.eqb (namespace r) namespace0) (vectors cl)
      else vectors cl in
    ({| vectors := vectors cl;
        vector_cache :=
          foldl (fun cache r => <[id r := (values r, metadata r, namespace0)]> cache)
                (vector_cache cl) results |},
     VectorIndex._get_all_vectors namespace0 (vectors cl)).

(** [_delete_vector] *)
Definition _delete_vector (db_fault : bool) (id0 : string) (cl : Client)
    : Client * bool :=
  if db_fault then (cl, false)
  else
    ({| vectors := List.filter (fun r => negb (String.eqb (id r) id0)) (vectors cl);
        vector_cache := base.delete id0 (vector_cache cl) |},
     true).

(** [LocalPineconeIndex].  In the methods that loop, [db_fault k] says
    whether the database fails the [k]-th turn of the loop. *)

Definition valid (item : string * list Num * list (string * Val)) : bool :=
  negb (String.eqb (fst (fst item)) "" ||
        match snd (fst item) with [] => true | _ => false end).

Fixpoint upsert_loop (db_fault : nat -> bool) (k : nat)
    (items : list (string * list Num * list (string * Val))) (namespace0 : string)
    (cl : Client) (upserted_count : Z) : Client * Z :=
  match items with
  | [] => (cl, upserted_count)
  | item :: rest =>
      if valid item then
        let '(cl', saved) :=
          _save_vector (db_fault k) (fst (fst item)) (snd (fst item)) (snd item)
            namespace0 cl in
        upsert_loop db_fault (S k) rest namespace0 cl'
          (if saved then upserted_count + 1 else upserted_count)
      else upsert_loop db_fault (S k) rest namespace0 cl upserted_count
  end.

(** [upsert]: the client it leaves and [upsertedCount]. *)
Definition upsert (db_fault : nat -> bool)
    (items : list (string * list Num * list (string * Val))) (namespace0 : string)
    (cl : Client) : Client * Z :=
  upsert_loop db_fault 0 items namespace0 cl 0.

Fixpoint fetch_loop (db_fault : nat -> bool) (k : nat) (ids : list string)
    (namespace0 : string) (cl : Client)
    (found : list (string * (list Num * list (string * Val))))
    : Client * list (string * (list Num * list (string * Val))) :=
  match ids with
  | [] => (cl, found)
  | id0 :: rest =>
      let '(cl', result) := _get_vector (db_fault k) id0 cl in
      match result with
      | Some (vector, metadata0, vector_namespace) =>
          if negb (String.eqb namespace0 "") &&
             negb (String.eqb vector_namespace namespace0)
          then fetch_loop db_fault (S k) rest namespace0 cl' found
          else fetch_loop db_fault (S k) rest namespace0 cl'
                 (dict_set id0 (vector, metadata0) found)
      | None => fetch_loop db_fault (S k) rest namespace0 cl' found
      end
  end.

(** [fetch]: the client it leaves and the dictionary ["vectors"], from
    id to (values, metadata). *)
Definition fetch (db_fault : nat -> bool) (ids : list string) (namespace0 : string)
    (cl : Client) : Client * list (string * (list Num * list (string * Val))) :=
  fetch_loop db_fault 0 ids namespace0 cl [].

Fixpoint delete_loop (db_fault : nat -> bool) (k : nat) (ids : list string)
    (cl : Client) (deleted_count : Z) : Client * Z :=
  match ids with
  | [] => (cl, deleted_count)
  | id0 :: rest =>
      let '(cl', deleted) := _delete_vector (db_fault k) id0 cl in
      delete_loop db_fault (S k) rest cl'
        (if deleted then deleted_count + 1 else deleted_count)
  end.

(** [delete]: the client it leaves, [deletedCount] and whether the
    answer carries an ["error"]. *)
Definition delete (db_fault : nat -> bool) (ids : option (list string))
    (namespace0 : string) (delete_all : bool) (cl : Client) : Client * (Z * bool) :=
  if delete_all then
    if db_fault 0%nat then (cl, (0, true))
    else
      let hit r :=
        if negb (String.eqb namespace0 "") then String.eqb (namespace r) namespace0
        else true in
      ({| vectors := List.filter (fun r => negb (hit r)) (vectors cl);
          vector_cache := ∅ |},
       (Z.of_nat (length (List.filter hit (vectors cl))), false))
  else
    match ids with
    | Some (id0 :: rest) =>
        let '(cl', deleted_count) := delete_loop db_fault 0 (id0 :: rest) cl 0 in
        (cl', (deleted_count, false))
    | _ => (cl, (0, false))
    end.

(** [query] *)
Definition query (db_fault : bool) (metric : string) (vector : list Num)
    (top_k : Z) (namespace0 : string) (include_metadata : bool)
    (filter : option (list (string * Val))) (cl : Client)
    : Client * QueryResponse Val Score :=
  let '(cl', all_vectors) := _get_all_vectors db_fault namespace0 cl in
  match all_vectors with
  | [] => (cl', {| matches := []; r_namespace := namespace0 |})
  | _ =>
      (cl', VectorIndex.query _calculate_similarity lt metric (vectors cl) vector top_k
              namespace0 include_metadata filter)
  end.
End Engine.

Arguments Client : clear implicits.
Arguments Entry : clear implicits.

(** *** Properties of the client *)

Section ClientFacts.
Context {Val : Type} `{EqDecision Val}.
Context {Num : Type}.
Implicit Types (cl : Client Val Num) (r : Row Val Num)
  (items : list (string * list Num * list (string * Val))).

(** The last valid item of a batch that carries a given id. *)
Fixpoint last_write (id0 : string) items : option (list Num * list (string * Val)) :=
  match items with
  | [] => None
  | item :: rest =>
      match last_write id0 rest with
      | Some w => Some w
      | None =>
          if valid item && String.eqb (fst (fst item)) id0
          then Some (snd (fst item), snd item)
          else None
      end
  end.

Lemma upsert_loop_table (f : nat -> bool) k items namespace0 cl (n : Z) :
  (forall k, f k = false) ->
  vectors (fst (upsert_loop f k items namespace0 cl n))
    = VectorIndex.upsert items namespace0 (vectors cl) /\
  snd (upsert_loop f k items namespace0 cl n)
    = n + Z.of_nat (length (List.filter valid items)).
Proof.
  intros Hf. revert k cl n. induction items as [|[[i v] m] items IH]; intros k cl n.
  - cbn. split; [done | lia].
  - change (VectorIndex.upsert ((i, v, m) :: items) namespace0 (vectors cl))
      with (VectorIndex.upsert items namespace0
              (if String.eqb i "" || match v with [] => true | _ :: _ => false end
               then vectors cl
               else VectorIndex._save_vector i v m namespace0 (vectors cl))).
    cbn [upsert_loop List.filter fst snd].
    assert (Hval : valid (i, v, m)
                   = negb (String.eqb i "" || match v with [] => true | _ :: _ => false end))
      by reflexivity.
    rewrite !Hval.
    destruct (String.eqb i "" || match v with [] => true | _ :: _ => false end); cbn [negb].
    + apply IH.
    + unfold _save_vector. rewrite Hf. destruct (IH (S k)
        {| vectors := VectorIndex._save_vector i v m namespace0 (vectors cl);
           vector_cache := <[i := (v, m, namespace0)]> (vector_cache cl) |} (n + 1))
        as [-> ->].
      split; [done|]. cbn [length]. lia.
Qed.

Lemma upsert_loop_cache (f : nat -> bool) k items namespace0 cl (n : Z) (id0 : string) :
  (forall k, f k = false) ->
  vector_cache (fst (upsert_loop f k items namespace0 cl n)) !! id0
    = match last_write id0 items with
      | Some (vector, metadata0) => Some (vector, metadata0, namespace0)
      | None => vector_cache cl !! id0
      end.
Proof.
  intros Hf. revert k cl n. induction items as [|item items IH]; intros k cl n; [done|].
  cbn [upsert_loop last_write]. destruct (valid item) eqn:Hv.
  - unfold _save_vector. rewrite Hf, IH.
    destruct (last_write id0 items) as [[v m]|]; [done|]. cbn.
    destruct (String.eqb (fst (fst item)) id0) eqn:E.
    + apply String.eqb_eq in E as <-. apply lookup_insert_eq.
    + apply String.eqb_neq in E. by apply lookup_insert_ne.
  - rewrite IH. by destruct (last_write id0 items) as [[v m]|].
Qed.

(** [_get_vector] adds to the cache, under the id asked for, and changes
    nothing else. *)
Lemma _get_vector_table (b : bool) (id0 : string) cl : vectors (fst (_get_vector b id0 cl)) = vectors cl.
Proof.
  unfold _get_vector. destruct (vector_cache cl !! id0); [done|].
  destruct b; [done|]. by destruct (List.find _ _).
Qed.

Lemma _get_vector_hit (b : bool) (id0 : string) cl (e : Entry Val Num) :
  vector_cache cl !! id0 = Some e -> _get_vector b id0 cl = (cl, Some e).
Proof. intros He. unfold _get_vector. by rewrite He. Qed.

Lemma _get_vector_other (b : bool) (id0 : string) cl (id1 : string) :
  id1 <> id0 ->
  vector_cache (fst (_get_vector b id0 cl)) !! id1 = vector_cache cl !! id1.
Proof.
  intros Hne. unfold _get_vector. destruct (vector_cache cl !! id0); [done|].
  destruct b; [done|]. destruct (List.find _ _); [|done]. cbn. by apply lookup_insert_ne.
Qed.

(** A namespace check that lets the entry through. *)
Definition passes (namespace0 vector_namespace : string) : bool :=
  String.eqb namespace0 "" || String.eqb vector_namespace namespace0.

Lemma decide_elem_of_cons_ne {B} (x y : string) (l : list string) (a b : B) :
  y <> x ->
  (if decide (x ∈ y :: l) then a else b) = (if decide (x ∈ l) then a else b).
Proof.
  intros Hne. destruct (decide (x ∈ l)) as [Hin|Hin].
  - rewrite decide_True; [done | by right].
  - rewrite decide_False; [done|]. intros [->|?]%elem_of_cons; done.
Qed.

(** [fetch] on an id that is cached. *)
Lemma fetch_loop_hit (f : nat -> bool) k (ids : list string) namespace0 cl found (id0 : string)
    (vector : list Num) (metadata0 : list (string * Val)) (cached : string) :
  vector_cache cl !! id0 = Some (vector, metadata0, cached) ->
  dict_get id0 (snd (fetch_loop f k ids namespace0 cl found))
    = if decide (id0 ∈ ids) then
        if passes namespace0 cached then Some (vector, metadata0) else dict_get id0 found
      else dict_get id0 found.
Proof.
  revert k cl found. induction ids as [|id1 ids IH]; intros k cl found Hc; [done|].
  cbn [fetch_loop]. destruct (decide (id1 = id0)) as [->|Hne].
  - rewrite (_get_vector_hit _ _ _ _ Hc). rewrite decide_True by left.
    assert (Hskip : negb (String.eqb namespace0 "") && negb (String.eqb cached namespace0)
                    = negb (passes namespace0 cached)).
    { unfold passes. by destruct (String.eqb namespace0 ""), (String.eqb cached namespace0). }
    rewrite Hskip. destruct (passes namespace0 cached) eqn:Hp; cbn [negb].
    + rewrite (IH _ _ _ Hc), dict_get_set_eq. by destruct (decide (id0 ∈ ids)).
    + rewrite (IH _ _ _ Hc). by destruct (decide (id0 ∈ ids)).
  - assert (Hc' : vector_cache (fst (_get_vector (f k) id1 cl)) !! id0
                  = Some (vector, metadata0, cached))
      by (rewrite _get_vector_other; done).
    destruct (_get_vector (f k) id1 cl) as [cl' [[[v m] c]|]]; cbn [fst] in Hc'.
    + rewrite decide_elem_of_cons_ne by done.
      destruct (_ && _); rewrite (IH _ _ _ Hc'), ?dict_get_set_ne by done; done.
    + rewrite decide_elem_of_cons_ne by done. by rewrite (IH _ _ _ Hc').
Qed.

(** [fetch] on an id that is neither cached nor stored. *)
Lemma fetch_loop_absent (f : nat -> bool) k (ids : list string) namespace0 cl found (id0 : string) :
  vector_cache cl !! id0 = None ->
  (forall r, r ∈ vectors cl -> id r <> id0) ->
  dict_get id0 (snd (fetch_loop f k ids namespace0 cl found)) = dict_get id0 found.
Proof.
  revert k cl found. induction ids as [|id1 ids IH]; intros k cl found Hc Ht; [done|].
  cbn [fetch_loop]. destruct (decide (id1 = id0)) as [->|Hne].
  - assert (Hg : _get_vector (f k) id0 cl = (cl, None)).
    { unfold _get_vector. rewrite Hc. destruct (f k); [done|].
      destruct (List.find _ _) as [r|] eqn:Hfind; [|done].
      apply find_some in Hfind as [Hr%list_elem_of_In Hid%String.eqb_eq].
      by destruct (Ht r Hr). }
    rewrite Hg. by apply IH.
  - assert (Hc' : vector_cache (fst (_get_vector (f k) id1 cl)) !! id0 = None)
      by (rewrite _get_vector_other; done).
    assert (Ht' : forall r, r ∈ vectors (fst (_get_vector (f k) id1 cl)) -> id r <> id0)
      by (by rewrite _get_vector_table).
    destruct (_get_vector (f k) id1 cl) as [cl' [[[v m] c]|]]; cbn [fst] in Hc', Ht'.
    + destruct (_ && _); rewrite (IH _ _ _ Hc' Ht'), ?dict_get_set_ne by done; done.
    + by apply IH.
Qed.

Lemma last_write_none (id0 : string) items :
  (forall item, item ∈ items -> fst (fst item) <> id0) -> last_write id0 items = None.
Proof.
  induction items as [|item items IH]; intros Hall; [done|].
  cbn. rewrite IH by (intros x Hx; apply Hall; by right).
  assert (String.eqb (fst (fst item)) id0 = false) as ->
    by (apply String.eqb_neq, Hall; by left).
  by rewrite andb_false_r.
Qed.

Lemma last_write_split (id0 : string) (vector : list Num) (metadata0 : list (string * Val))
    (before after : list (string * list Num * list (string * Val))) :
  id0 <> "" -> vector <> [] ->
  (forall item, item ∈ after -> fst (fst item) <> id0) ->
  last_write id0 (before ++ (id0, vector, metadata0) :: after) = Some (vector, metadata0).
Proof.
  intros Hid Hv Hafter. induction before as [|b before IH]; cbn.
  - rewrite last_write_none by done. unfold valid. cbn.
    apply String.eqb_neq in Hid. rewrite Hid, String.eqb_refl. by destruct vector.
  - cbn in IH. by rewrite IH.
Qed.

(** X21.  What was upserted can be fetched: when no save fails,
    [upsert] counts the items that have an id and values, leaves the table
    that the table-level [upsert] computes, and a [fetch] that follows --
    whether or not the database answers it -- returns, for an id of the
    batch, the values and metadata of the last item written under it,
    provided the id is asked for and the namespace asked for is empty or
    the one written to; otherwise it returns nothing for that id. *)
Theorem X21_upsert_then_fetch (cl : Client Val Num)
    (before after : list (string * list Num * list (string * Val)))
    (id0 : string) (vector : list Num) (metadata0 : list (string * Val))
    (namespace0 asked : string) (f fg : nat -> bool) (ids : list string) :
  (forall k, f k = false) ->
  id0 <> "" -> vector <> [] ->
  (forall item, item ∈ after -> fst (fst item) <> id0) ->
  let items := before ++ (id0, vector, metadata0) :: after in
  let r := upsert f items namespace0 cl in
  snd r = Z.of_nat (length (List.filter valid items)) /\
  vectors (fst r) = VectorIndex.upsert items namespace0 (vectors cl) /\
  dict_get id0 (snd (fetch fg ids asked (fst r)))
    = if decide (id0 ∈ ids /\ (asked = "" \/ namespace0 = asked))
      then Some (vector, metadata0) else None.
Proof.
  intros Hf Hid Hv Hafter items r. unfold r, upsert.
  destruct (upsert_loop_table f 0 items namespace0 cl 0 Hf) as [Ht Hn].
  split_and!; [by rewrite Hn | done |].
  pose proof (upsert_loop_cache f 0 items namespace0 cl 0 id0 Hf) as Hc.
  unfold items in Hc at 2. rewrite last_write_split in Hc by done.
  unfold fetch. rewrite (fetch_loop_hit _ _ _ _ _ _ _ _ _ _ Hc). cbn [dict_get].
  unfold passes.
  destruct (decide (id0 ∈ ids)) as [Hin|Hin].
  - destruct (String.eqb asked "") eqn:E1; cbn [orb].
    + apply String.eqb_eq in E1. rewrite decide_True; [done | by auto].
    + apply String.eqb_neq in E1. destruct (String.eqb namespace0 asked) eqn:E2.
      * apply String.eqb_eq in E2. rewrite decide_True; [done | by auto].
      * apply String.eqb_neq in E2. rewrite decide_False; [done|].
        by intros [_ [?|?]].
  - rewrite decide_False; [done | by intros [? _]].
Qed.

(** Caching every row of a scan under one namespace. *)
Lemma scan_cache_other (namespace0 : string) (rows : list (Row Val Num))
    (cache : gmap string (Entry Val Num)) (i : string) :
  (forall r, r ∈ rows -> id r <> i) ->
  foldl (fun cache r => <[id r := (values r, metadata r, namespace0)]> cache) cache rows !! i
    = cache !! i.
Proof.
  revert cache. induction rows as [|r rows IH]; intros cache Hall; [done|].
  cbn. rewrite IH by (intros x Hx; apply Hall; by right).
  apply lookup_insert_ne, Hall. by left.
Qed.

Lemma scan_cache_row (namespace0 : string) (rows : list (Row Val Num))
    (cache : gmap string (Entry Val Num)) r :
  NoDup (map id rows) -> r ∈ rows ->
  foldl (fun cache r => <[id r := (values r, metadata r, namespace0)]> cache) cache rows
    !! id r
    = Some (values r, metadata r, namespace0).
Proof.
  revert cache. induction rows as [|r1 rows IH]; intros cache Hnd Hr;
    [by apply elem_of_nil in Hr|].
  cbn in Hnd. apply NoDup_cons in Hnd as [Hr1 Hnd]. cbn.
  apply elem_of_cons in Hr as [->|Hr]; [|by apply IH].
  rewrite scan_cache_other; [apply lookup_insert_eq|].
  intros x Hx Heq. apply Hr1. rewrite <-Heq. apply list_elem_of_fmap. eauto.
Qed.

Lemma find_by_id (rows : list (Row Val Num)) r :
  NoDup (map id rows) -> r ∈ rows ->
  List.find (fun x => String.eqb (id x) (id r)) rows = Some r.
Proof.
  induction rows as [|r1 rows IH]; intros Hnd Hr; [by apply elem_of_nil in Hr|].
  cbn in Hnd. apply NoDup_cons in Hnd as [Hr1 Hnd]. cbn.
  apply elem_of_cons in Hr as [->|Hr]; [by rewrite String.eqb_refl|].
  destruct (String.eqb (id r1) (id r)) eqn:E; [|by apply IH].
  apply String.eqb_eq in E. destruct Hr1. rewrite E. apply list_elem_of_fmap. eauto.
Qed.

Lemma filter_filter_and {B} (p q : B -> bool) (l : list B) :
  List.filter q (List.filter p l) = List.filter (fun x => p x && q x) l.
Proof.
  induction l as [|x l IH]; cbn; [done|].
  destruct (p x); cbn; [destruct (q x)|]; by rewrite IH.
Qed.

Lemma filter_ext_bool {B} (p q : B -> bool) (l : list B) :
  (forall x, p x = q x) -> List.filter p l = List.filter q l.
Proof. intros Hpq. induction l as [|x l IH]; cbn; [done|]. by rewrite Hpq, IH. Qed.

(** The loop of [delete] over its ids, when the database answers. *)
Lemma delete_loop_ok (f : nat -> bool) k (ids : list string) cl (n : Z) :
  (forall k, f k = false) ->
  snd (delete_loop f k ids cl n) = n + Z.of_nat (length ids) /\
  vectors (fst (delete_loop f k ids cl n))
    = List.filter (fun r => negb (bool_decide (id r ∈ ids))) (vectors cl) /\
  forall i, vector_cache (fst (delete_loop f k ids cl n)) !! i
            = if decide (i ∈ ids) then None else vector_cache cl !! i.
Proof.
  intros Hf. revert k cl n. induction ids as [|id1 ids IH]; intros k cl n.
  - cbn. split_and!; [lia | by rewrite filter_all | done].
  - cbn [delete_loop]. unfold _delete_vector. rewrite Hf.
    destruct (IH (S k)
      {| vectors := List.filter (fun r => negb (String.eqb (id r) id1)) (vectors cl);
         vector_cache := base.delete id1 (vector_cache cl) |} (n + 1)) as (-> & -> & Hc).
    split_and!.
    + cbn [length]. lia.
    + cbn [vectors]. rewrite filter_filter_and. apply filter_ext_bool. intros r.
      destruct (String.eqb (id r) id1) eqn:E; cbn.
      * apply String.eqb_eq in E. rewrite bool_decide_true; [done | rewrite E; left].
      * apply String.eqb_neq in E. f_equal. apply bool_decide_ext.
        rewrite elem_of_cons. split; [by right | by intros [?|?]].
    + intros i. rewrite Hc. cbn [vector_cache].
      destruct (decide (i = id1)) as [->|Hne].
      * rewrite lookup_delete_eq, (decide_True (P := id1 ∈ id1 :: ids)) by left.
        by destruct (decide (id1 ∈ ids)).
      * rewrite lookup_delete_ne by done. symmetry. by apply decide_elem_of_cons_ne.
Qed.

(** X23.  [delete] by ids, when the database answers: [deletedCount] is
    the number of ids asked for, whether or not a row existed under them;
    the namespace argument plays no part; the rows under these ids are
    gone, the others stay in place; and a [fetch] that follows finds
    nothing under a deleted id, whatever it asks for. *)
Theorem X23_delete_by_ids (cl : Client Val Num) (ids : list string) (namespace0 : string)
    (f : nat -> bool) :
  (forall k, f k = false) ->
  let r := delete f (Some ids) namespace0 false cl in
  snd r = (Z.of_nat (length ids), false) /\
  vectors (fst r)
    = List.filter (fun row => negb (bool_decide (id row ∈ ids))) (vectors cl) /\
  forall (fg : nat -> bool) (wanted : list string) (asked id0 : string),
    id0 ∈ ids -> dict_get id0 (snd (fetch fg wanted asked (fst r))) = None.
Proof.
  intros Hf r.
  assert (Hr : r = (fst (delete_loop f 0 ids cl 0), (snd (delete_loop f 0 ids cl 0), false))).
  { unfold r, delete. destruct ids as [|id1 ids]; [reflexivity|].
    by destruct (delete_loop f 0 (id1 :: ids) cl 0). }
  destruct (delete_loop_ok f 0 ids cl 0 Hf) as (Hn & Ht & Hc).
  rewrite Hr. cbn [fst snd]. split_and!; [by rewrite Hn | done |].
  intros fg wanted asked id0 Hin. unfold fetch. rewrite fetch_loop_absent; [done | |].
  - by rewrite Hc, decide_True.
  - rewrite Ht. intros row [_ Hrow]%list_elem_of_In%filter_In Heq.
    apply negb_true_iff, bool_decide_eq_false in Hrow. by rewrite Heq in Hrow.
Qed.
End ClientFacts.

Section HistoryFacts.
Context {Val : Type} `{EqDecision Val}.
Context {Num Score : Type}.
Variable _calculate_similarity : list Num -> list Num -> string -> Score.
Variable lt : Score -> Score -> bool.
Implicit Types (cl : Client Val Num) (r : Row Val Num).

Lemma query_client (b : bool) (metric : string) (vector : list Num) (top_k : Z)
    (namespace0 : string) (include_metadata : bool)
    (filter : option (list (string * Val))) cl :
  fst (query _calculate_similarity lt b metric vector top_k namespace0 include_metadata
         filter cl)
    = fst (_get_all_vectors b namespace0 cl).
Proof. unfold query. by destruct (_get_all_vectors b namespace0 cl) as [cl' [|p l]]. Qed.

(** X22.  A query over every namespace hides namespaced vectors from
    [fetch]: it caches each row it reads under the empty namespace of the
    call, so that, for a row stored in a namespace of its own, a [fetch]
    of its id in that namespace comes back empty afterwards -- although
    the table is unchanged, and although the same [fetch] on a client that
    has not cached the row returns it. *)
Theorem X22_unfiltered_query_hides_namespaced_vectors (cl : Client Val Num)
    (r : Row Val Num) (metric : string) (vector : list Num) (top_k : Z)
    (include_metadata : bool) (filter : option (list (string * Val)))
    (fg : nat -> bool) :
  NoDup (map id (vectors cl)) -> r ∈ vectors cl -> namespace r <> "" ->
  let cl' := fst (query _calculate_similarity lt false metric vector top_k ""
                    include_metadata filter cl) in
  vectors cl' = vectors cl /\
  snd (fetch fg [id r] (namespace r) cl') = [] /\
  (vector_cache cl !! id r = None -> fg 0%nat = false ->
   snd (fetch fg [id r] (namespace r) cl) = [(id r, (values r, metadata r))]).
Proof.
  intros Hnd Hr Hns cl'. unfold cl'. rewrite query_client.
  unfold _get_all_vectors. cbn [fst negb String.eqb vectors]. split_and!; [done | |].
  - unfold fetch. cbn [fetch_loop].
    erewrite _get_vector_hit; [|cbn [vector_cache]; by apply scan_cache_row].
    apply String.eqb_neq in Hns. rewrite Hns. cbn [negb andb].
    assert (String.eqb "" (namespace r) = false) as ->; [|done].
    rewrite String.eqb_sym. exact Hns.
  - intros Hc Hfg. unfold fetch. cbn [fetch_loop]. unfold _get_vector.
    rewrite Hc, Hfg, find_by_id by done. rewrite String.eqb_refl, andb_false_r. done.
Qed.

(** X25.  [delete] with [delete_all], when the database answers, ignores
    the ids: it removes the rows of the namespace -- every row for the
    empty namespace -- and counts them, and it empties the whole cache, so
    that a row that is left is fetched again from the table, in the
    namespace it is stored in. *)
Theorem X25_delete_all (cl : Client Val Num) (ids : option (list string))
    (namespace0 : string) (f : nat -> bool) :
  f 0%nat = false ->
  let hit r := (String.eqb namespace0 "" || String.eqb (namespace r) namespace0) in
  let out := delete f ids namespace0 true cl in
  snd out = (Z.of_nat (length (List.filter hit (vectors cl))), false) /\
  vectors (fst out) = List.filter (fun r => negb (hit r)) (vectors cl) /\
  vector_cache (fst out) = ∅ /\
  (NoDup (map id (vectors cl)) ->
   forall (fg : nat -> bool) r,
     fg 0%nat = false -> r ∈ vectors (fst out) ->
     snd (fetch fg [id r] (namespace r) (fst out)) = [(id r, (values r, metadata r))]).
Proof.
  intros Hf hit out. unfold out, delete. rewrite Hf. cbn [fst snd vectors vector_cache].
  assert (Hhit : forall r, (if negb (String.eqb namespace0 "")
                            then String.eqb (namespace r) namespace0 else true) = hit r).
  { intros r. unfold hit. by destruct (String.eqb namespace0 ""). }
  split_and!.
  - do 3 f_equal. by apply filter_ext_bool.
  - apply filter_ext_bool. intros r. by rewrite Hhit.
  - done.
  - intros Hnd fg r Hfg Hr. unfold fetch. cbn [fetch_loop]. unfold _get_vector.
    cbn [vector_cache vectors]. rewrite lookup_empty, Hfg, find_by_id.
    + by rewrite String.eqb_refl, andb_false_r.
    + by apply NoDup_map_filter.
    + done.
Qed.
End HistoryFacts.

(** Clients of the examples, over integer vectors: one just opened over
    an empty database, one over the table [abcZ], and one over a single
    vector stored in the namespace "other". *)
Definition fresh : Client string Z := {| vectors := []; vector_cache := ∅ |}.

Definition over_abc : Client string Z := {| vectors := abcZ; vector_cache := ∅ |}.

Definition x_row : Row string Z :=
  {| rowid := 1; id := "X"; values := [1; 0]; metadata := []; namespace := "other" |}.

Definition over_x : Client string Z := {| vectors := [x_row]; vector_cache := ∅ |}.

Lemma X21_upsert_then_fetch_witness :
  let items := [("A", [1; 0], [])] ++ ("A", [0; 1], [("kind", "clip")]) :: [("B", [1; 1], [])] in
  let r := upsert (fun _ => false) items "videos" fresh in
  snd r = Z.of_nat (length (List.filter valid items)) /\
  vectors (fst r) = VectorIndex.upsert items "videos" (vectors fresh) /\
  dict_get "A" (snd (fetch (fun _ => true) ["A"] "videos" (fst r)))
    = if decide ("A" ∈ ["A"] /\ ("videos" = "" \/ "videos" = "videos"))
      then Some ([0; 1], [("kind", "clip")]) else None.
Proof.
  apply (X21_upsert_then_fetch fresh [("A", [1; 0], [])] [("B", [1; 1], [])]
           "A" [0; 1] [("kind", "clip")] "videos" "videos"
           (fun _ => false) (fun _ => true) ["A"]).
  - reflexivity.
  - discriminate.
  - discriminate.
  - intros item Hitem. apply list_elem_of_singleton in Hitem. rewrite Hitem. discriminate.
Defined.

Lemma X22_unfiltered_query_hides_namespaced_vectors_witness :
  let cl' := fst (query dotZ Z.ltb false "cosine" [1; 0] 10 "" true None over_x) in
  vectors cl' = vectors over_x /\
  snd (fetch (fun _ => false) [id x_row] (namespace x_row) cl') = [] /\
  (vector_cache over_x !! id x_row = None -> false = false ->
   snd (fetch (fun _ => false) [id x_row] (namespace x_row) over_x)
     = [(id x_row, (values x_row, metadata x_row))]).
Proof.
  apply (X22_unfiltered_query_hides_namespaced_vectors dotZ Z.ltb over_x x_row
           "cosine" [1; 0] 10 true None (fun _ => false)).
  - apply NoDup_singleton.
  - left.
  - discriminate.
Defined.

Lemma X23_delete_by_ids_witness :
  let r := delete (fun _ => false) (Some ["A"; "Z"]) "nowhere" false over_abc in
  snd r = (Z.of_nat (length ["A"; "Z"]), false) /\
  vectors (fst r)
    = List.filter (fun row => negb (bool_decide (id row ∈ ["A"; "Z"]))) (vectors over_abc) /\
  forall (fg : nat -> bool) (wanted : list string) (asked id0 : string),
    id0 ∈ ["A"; "Z"] -> dict_get id0 (snd (fetch fg wanted asked (fst r))) = None.
Proof.
  apply (X23_delete_by_ids over_abc ["A"; "Z"] "nowhere" (fun _ => false)).
  reflexivity.
Defined.

Lemma X25_delete_all_witness :
  let hit (r : Row string Z) := (String.eqb "other" "" || String.eqb (namespace r) "other") in
  let out := delete (fun _ => false) (Some ["A"]) "other" true over_abc in
  snd out = (Z.of_nat (length (List.filter hit (vectors over_abc))), false) /\
  vectors (fst out) = List.filter (fun r => negb (hit r)) (vectors over_abc) /\
  vector_cache (fst out) = ∅ /\
  (NoDup (map id (vectors over_abc)) ->
   forall (fg : nat -> bool) r,
     fg 0%nat = false -> r ∈ vectors (fst out) ->
     snd (fetch fg [id r] (namespace r) (fst out)) = [(id r, (values r, metadata r))]).
Proof.
  apply (X25_delete_all over_abc (Some ["A"]) "other" (fun _ => false)).
  reflexivity.
Defined.
End Client.

(** *** Degenerate inputs of the similarity kernel *)

Lemma norm_zeros (n : nat) : Doubles.norm (replicate n Doubles.zero) = Doubles.zero.
Proof.
  unfold Doubles.norm.
  assert (H : foldl (fun acc x => PrimFloat.add acc (PrimFloat.mul x x)) Doubles.zero
                (replicate n Doubles.zero) = Doubles.zero).
  { induction n as [|n IH]; [done|]. cbn [replicate foldl].
    change (PrimFloat.add Doubles.zero (PrimFloat.mul Doubles.zero Doubles.zero))
      with Doubles.zero.
    exact IH. }
  rewrite H. reflexivity.
Qed.

Lemma dot_mismatch (a b : list float) : length a <> length b -> Doubles.dot a b = None.
Proof.
  intros Hne. unfold Doubles.dot.
  destruct (Nat.eqb (length a) (length b)) eqn:E; [|done].
  by apply Nat.eqb_eq in E.
Qed.

(** X26.  Degenerate inputs score zero instead of failing.  Under the
    cosine kernel a vector of zeros scores [0.0] against any vector, of any
    length, and two vectors of different lengths score [0.0]; so they do
    under every metric name other than ["euclidean"].  Under the Euclidean
    kernel two vectors of different lengths score [0.0] unless one of them
    has a single component, which NumPy broadcasts. *)
Theorem X26_degenerate_inputs_score_zero :
  (forall (n : nat) (b : list float),
     Doubles._cosine_similarity (replicate n Doubles.zero) b = Doubles.zero /\
     Doubles._cosine_similarity b (replicate n Doubles.zero) = Doubles.zero) /\
  (forall (a b : list float) (metric : string),
     length a <> length b ->
     Doubles._cosine_similarity a b = Doubles.zero /\
     (metric <> "euclidean" -> Doubles._calculate_similarity a b metric = Doubles.zero) /\
     (length a <> 1%nat -> length b <> 1%nat ->
      Doubles._euclidean_similarity a b = Doubles.zero)).
Proof.
  split.
  - intros n b. unfold Doubles._cosine_similarity. rewrite norm_zeros.
    change (PrimFloat.eqb Doubles.zero Doubles.zero) with true.
    by rewrite orb_true_r.
  - intros a b metric Hne.
    assert (Hcos : Doubles._cosine_similarity a b = Doubles.zero).
    { unfold Doubles._cosine_similarity. rewrite dot_mismatch by done.
      by destruct (_ || _). }
    split_and!; [done | |].
    + intros Hm. unfold Doubles._calculate_similarity.
      destruct (String.eqb metric "cosine"); [done|].
      destruct (String.eqb metric "euclidean") eqn:E; [|done].
      by apply String.eqb_eq in E.
    + intros Ha Hb. unfold Doubles._euclidean_similarity, Doubles.sub.
      destruct (Nat.eqb (length a) (length b)) eqn:E; [by apply Nat.eqb_eq in E|].
      destruct a as [|x [|x' a]], b as [|y [|y' b]]; cbn in *; done.
Qed.

Lemma X26_degenerate_inputs_score_zero_witness :
  Doubles._cosine_similarity [f1; f0] [f1; f0; f1] = Doubles.zero /\
  ("dotproduct" <> "euclidean" ->
   Doubles._calculate_similarity [f1; f0] [f1; f0; f1] "dotproduct" = Doubles.zero) /\
  (length [f1; f0] <> 1%nat -> length [f1; f0; f1] <> 1%nat ->
   Doubles._euclidean_similarity [f1; f0] [f1; f0; f1] = Doubles.zero).
Proof.
  apply (proj2 X26_degenerate_inputs_score_zero [f1; f0] [f1; f0; f1] "dotproduct").
  cbn. lia.
Defined.

End VectorIndex.


(** ** Local fallback structured store ([supabase_fallback.py]) *)

Module Store.

(** Python values that reach the store: [None], [int], [str], and a
    [dict] or [list], represented by its [json.dumps] text. *)
Inductive pyval :=
| PNone
| PInt (z : Z)
| PStr (s : string)
| PDoc (text : string).

(** SQLite storage classes (without REAL and BLOB) and column affinities. *)
Inductive sqlval :=
| SNull
| SInteger (z : Z)
| SText (s : string).

Inductive affinity := TEXT | INTEGER | REAL.

Record Column := {
  c_name : string;
  c_affinity : affinity;
  c_default : sqlval
}.

(** A table: its columns as [PRAGMA table_info] lists them, and its rows in
    scan order, each row giving the value of every column by name. *)
Record Table := {
  columns : list Column;
  rows : list (list (string * sqlval))
}.

Definition col (n : string) (a : affinity) : Column :=
  {| c_name := n; c_affinity := a; c_default := SNull |}.

(** The three [CREATE TABLE] statements of [_initialize_database]. *)
Definition videos_columns : list Column :=
  [ col "id" TEXT; col "filename" TEXT; col "file_path" TEXT; col "title" TEXT;
    col "description" TEXT; col "tags" TEXT; col "duration" REAL;
    col "size_bytes" INTEGER; col "format" TEXT; col "width" INTEGER;
    col "height" INTEGER; col "thumbnail_path" TEXT; col "created_at" TEXT;
    col "updated_at" TEXT; col "user_id" TEXT; col "metadata" TEXT;
    {| c_name := "status"; c_affinity := TEXT; c_default := SText "processed" |} ].

Definition processing_jobs_columns : list Column :=
  [ col "id" TEXT; col "video_id" TEXT; col "job_type" TEXT; col "status" TEXT;
    {| c_name := "progress"; c_affinity := INTEGER; c_default := SInteger 0 |};
    col "started_at" TEXT; col "completed_at" TEXT; col "params" TEXT;
    col "error" TEXT;
    {| c_name := "webhook_sent"; c_affinity := INTEGER; c_default := SInteger 0 |} ].

Definition webhook_events_columns : list Column :=
  [ col "id" TEXT; col "job_id" TEXT; col "event_type" TEXT; col "status" TEXT;
    col "payload" TEXT; col "sent_at" TEXT; col "endpoint" TEXT ].

Definition initial_database : list (string * Table) :=
  [ ("videos", {| columns := videos_columns; rows := [] |});
    ("processing_jobs", {| columns := processing_jobs_columns; rows := [] |});
    ("webhook_events", {| columns := webhook_events_columns; rows := [] |}) ].

(** The state of a [TableQueryBuilder].  A where clause is kept with its
    parameters: [eq] adds ["column = ?"], [in_] adds ["column IN (?, ...)"]. *)
Inductive Clause :=
| Eq (column : string) (value : pyval)
| In (column : string) (values : list pyval).

Inductive Selection :=
| Star
| Columns (names : list string).

Record Builder := {
  table_name : string;
  select_columns : Selection;
  where_clauses : list Clause;
  order_by_clause : option (string * bool);
  limit_clause : option Z;
  offset_clause : option Z
}.

(** [__init__] followed by [reset_query]. *)
Definition new_builder (tn : string) : Builder :=
  {| table_name := tn; select_columns := Star; where_clauses := [];
     order_by_clause := None; limit_clause := None; offset_clause := None |}.

(** [reset_query] *)
Definition reset_query (b : Builder) : Builder := new_builder (table_name b).

(** [LocalSupabaseFallback]: the database file and the builders handed out
    by [table], one per table name, shared by all callers. *)
Record Fallback := {
  db : list (string * Table);
  _tables : list (string * Builder)
}.

Definition initial : Fallback := {| db := initial_database; _tables := [] |}.

Definition OperationalError (msg : string) : exn := Exn "OperationalError" msg.
Definition IntegrityError (msg : string) : exn := Exn "IntegrityError" msg.

Definition to_sql (v : pyval) : sqlval :=
  match v with
  | PNone => SNull
  | PInt z => SInteger z
  | PStr s => SText s
  | PDoc text => SText text
  end.

Definition of_sql (v : sqlval) : pyval :=
  match v with
  | SNull => PNone
  | SInteger z => PInt z
  | SText s => PStr s
  end.

(** SQL [=]: never true of NULL, nor of values of different classes. *)
Definition sql_eq (a b : sqlval) : bool :=
  match a, b with
  | SInteger x, SInteger y => x =? y
  | SText x, SText y => String.eqb x y
  | _, _ => false
  end.

Definition clause_column (c : Clause) : string :=
  match c with
  | Eq column _ | In column _ => column
  end.

(** The column of the table that carries exactly this name.  SQLite
    resolves names more liberally (any letter case, the aliases of the row
    id, qualified names); [unresolvable] below singles out names that it
    rejects. *)
Definition find_column (t : Table) (n : string) : option Column :=
  List.find (fun c => String.eqb (c_name c) n) (columns t).

(** Python truth of a value read back from a row. *)
Definition py_truthy (v : pyval) : bool :=
  match v with
  | PNone => false
  | PInt z => negb (z =? 0)
  | PStr s | PDoc s => negb (String.eqb s "")
  end.

Definition json_columns : list string := ["tags"; "metadata"; "params"; "payload"].

Section Engine.
(** What SQLite and the [json] module contribute: the conversion applied
    to a value bound for a column of a given affinity, the sorter behind
    [ORDER BY column ASC|DESC] (the flag is true for DESC), and
    [json.loads] ([None] when it raises). *)
Variable coerce : affinity -> sqlval -> sqlval.
Variable order_by : string -> bool -> list (list (string * sqlval)) -> list (list (string * sqlval)).
Variable json_loads : string -> option pyval.

Definition cell (row : list (string * sqlval)) (n : string) : sqlval :=
  default SNull (dict_get n row).

(** One where clause on one row; the parameter takes the affinity of the
    column it is compared with. *)
Definition holds (t : Table) (row : list (string * sqlval)) (c : Clause) : bool :=
  match find_column t (clause_column c) with
  | None => false
  | Some column =>
      let bound v := coerce (c_affinity column) (to_sql v) in
      match c with
      | Eq n v => sql_eq (cell row n) (bound v)
      | In n vs => existsb (fun v => sql_eq (cell row n) (bound v)) vs
      end
  end.

Definition where_ok (t : Table) (cs : list Clause) : bool :=
  forallb (fun c => match find_column t (clause_column c) with
                    | Some _ => true | None => false end) cs.

Definition matching (t : Table) (cs : list Clause) (row : list (string * sqlval)) : bool :=
  forallb (holds t row) cs.

(** [LIMIT n OFFSET m]; a negative limit is no limit. *)
Definition limit_offset {A} (lim : Z) (off : option Z) (l : list A) : list A :=
  let l := match off with
           | Some m => skipn (Z.to_nat m) l
           | None => l
           end in
  if lim <? 0 then l else firstn (Z.to_nat lim) l.

(** The statement of [_build_query], run by [_execute_query]: the result
    rows as tuples, or the exception SQLite raises. *)
Definition run_select (b : Builder) (d : list (string * Table))
    : outcome (list (list sqlval)) :=
  match dict_get (table_name b) d with
  | None => Raised (OperationalError "no such table")
  | Some t =>
      let known n := match find_column t n with Some _ => true | None => false end in
      let selected_ok := match select_columns b with
                         | Star => true
                         | Columns names => forallb known names
                         end in
      let order_ok := match order_by_clause b with
                      | Some (n, _) => known n
                      | None => true
                      end in
      if negb (selected_ok && where_ok t (where_clauses b) && order_ok)
      then Raised (OperationalError "no such column")
      else
        let found := List.filter (matching t (where_clauses b)) (rows t) in
        let found := match order_by_clause b with
                     | Some (n, desc) => order_by n desc found
                     | None => found
                     end in
        let project row := match select_columns b with
                           | Star => map snd row
                           | Columns names => map (cell row) names
                           end in
        match limit_clause b, offset_clause b with
        | None, Some _ => Raised (OperationalError "near OFFSET: syntax error")
        | None, None => Ok (map project found)
        | Some n, off => Ok (map project (limit_offset n off found))
        end
  end.

(** [INSERT INTO table (columns) VALUES (...)] on a table whose primary
    key is [id]. *)
Definition run_insert (tn : string) (data : list (string * pyval))
    (d : list (string * Table)) : outcome (list (string * Table)) :=
  match dict_get tn d with
  | None => Raised (OperationalError "no such table")
  | Some t =>
      match data with
      | [] => Raised (OperationalError "near ): syntax error")
      | _ =>
          if negb (forallb (fun kv => match find_column t (fst kv) with
                                      | Some _ => true | None => false end) data)
          then Raised (OperationalError "no such column")
          else
            let row := map (fun c =>
                              (c_name c,
                               match dict_get (c_name c) data with
                               | Some v => coerce (c_affinity c) (to_sql v)
                               | None => c_default c
                               end)) (columns t) in
            if existsb (fun r => sql_eq (cell r "id") (cell row "id")) (rows t)
            then Raised (IntegrityError "UNIQUE constraint failed")
            else Ok (dict_set tn {| columns := columns t; rows := rows t ++ [row] |} d)
      end
  end.

(** [DELETE FROM table WHERE ...] *)
Definition run_delete (b : Builder) (d : list (string * Table))
    : outcome (list (string * Table)) :=
  match dict_get (table_name b) d with
  | None => Raised (OperationalError "no such table")
  | Some t =>
      if negb (where_ok t (where_clauses b))
      then Raised (OperationalError "no such column")
      else Ok (dict_set (table_name b)
                 {| columns := columns t;
                    rows := List.filter (fun r => negb (matching t (where_clauses b) r))
                              (rows t) |} d)
  end.

(** [table]: the shared builder of the table, made on first use. *)
Definition table (tn : string) (w : Fallback) : Fallback :=
  if dict_mem tn (_tables w) then w
  else {| db := db w; _tables := dict_set tn (new_builder tn) (_tables w) |}.

Definition builder (tn : string) (w : Fallback) : Builder :=
  default (new_builder tn) (dict_get tn (_tables w)).

(** A method that changes the builder and returns [self]. *)
Definition chain (tn : string) (f : Builder -> Builder) (w : Fallback) : Fallback :=
  {| db := db w; _tables := dict_set tn (f (builder tn w)) (_tables w) |}.

(** [select], [eq], [in_], [limit], [order], [offset] *)
Definition select (tn : string) (cols : Selection) : Fallback -> Fallback :=
  chain tn (fun b =>
    {| table_name := table_name b; select_columns := cols;
       where_clauses := where_clauses b; order_by_clause := order_by_clause b;
       limit_clause := limit_clause b; offset_clause := offset_clause b |}).

Definition add_clause (c : Clause) (b : Builder) : Builder :=
  {| table_name := table_name b; select_columns := select_columns b;
     where_clauses := where_clauses b ++ [c]; order_by_clause := order_by_clause b;
     limit_clause := limit_clause b; offset_clause := offset_clause b |}.

Definition eq (tn column : string) (value : pyval) : Fallback -> Fallback :=
  chain tn (add_clause (Eq column value)).


Definition limit (tn : string) (n : Z) : Fallback -> Fallback :=
  chain tn (fun b =>
    {| table_name := table_name b; select_columns := select_columns b;
       where_clauses := where_clauses b; order_by_clause := order_by_clause b;
       limit_clause := Some n; offset_clause := offset_clause b |}).



(** The loop of [execute] over one result tuple: the names of
    [PRAGMA table_info], position by position, with the JSON columns
    decoded when they hold a non-empty string that parses. *)
Definition row_dict (names : list string) (row : list sqlval) : list (string * pyval) :=
  foldl (fun d '(col_name, v) =>
           let value := of_sql v in
           let value :=
             if existsb (String.eqb col_name) json_columns && py_truthy value
             then match value with
                  | PStr s => default value (json_loads s)
                  | _ => value
                  end
             else value in
           dict_set col_name value d)
        [] (zip names row).

(** [execute]: the [data] of the response.  The builder is reset only when
    the query succeeded. *)
Definition execute (tn : string) (w : Fallback) : Fallback * list (list (string * pyval)) :=
  match run_select (builder tn w) (db w) with
  | Ok results =>
      let names := match dict_get tn (db w) with
                   | Some t => map c_name (columns t)
                   | None => []
                   end in
      (chain tn reset_query w, map (row_dict names) results)
  | Raised _ => (w, [])
  end.

(** [insert]: dictionaries and lists are stored as their JSON text; the
    response carries the record as it was passed in. *)
Definition insert (tn : string) (data : list (string * pyval)) (w : Fallback)
    : Fallback * list (list (string * pyval)) :=
  match run_insert tn data (db w) with
  | Ok d => ({| db := d; _tables := _tables w |}, [data])
  | Raised _ => (w, [])
  end.

(** [delete]: the where clauses stay on the builder afterwards. *)
Definition delete (tn : string) (w : Fallback) : Fallback * list (list (string * pyval)) :=
  match run_delete (builder tn w) (db w) with
  | Ok d => ({| db := d; _tables := _tables w |}, [])
  | Raised _ => (w, [])
  end.
End Engine.

(** *** Properties *)

Section RoundTrip.
Variable coerce : affinity -> sqlval -> sqlval.
Variable order_by : string -> bool -> list (list (string * sqlval)) -> list (list (string * sqlval)).
Variable json_loads : string -> option pyval.

(** The one property of SQLite the round trip relies on: binding a text
    value for a TEXT column stores that text. *)
Hypothesis coerce_text : forall s, coerce TEXT (SText s) = SText s.

(** The record of the round trip, the three calls made with it, and the
    row that comes back. *)
Definition record : list (string * pyval) := [("id", PStr "1"); ("title", PStr "x")].

Definition insert_record (w : Fallback) :=
  insert coerce "videos" record (table "videos" w).

Definition select_by_id (w : Fallback) :=
  execute coerce order_by json_loads "videos"
    (eq "videos" "id" (PStr "1") (select "videos" Star (table "videos" w))).

Definition delete_by_id (w : Fallback) :=
  delete coerce "videos" (eq "videos" "id" (PStr "1") (table "videos" w)).

Definition stored_record : list (string * pyval) :=
  [ ("id", PStr "1"); ("filename", PNone); ("file_path", PNone); ("title", PStr "x");
    ("description", PNone); ("tags", PNone); ("duration", PNone);
    ("size_bytes", PNone); ("format", PNone); ("width", PNone); ("height", PNone);
    ("thumbnail_path", PNone); ("created_at", PNone); ("updated_at", PNone);
    ("user_id", PNone); ("metadata", PNone); ("status", PStr "processed") ].

(** The builder of the table has nothing pending. *)
Definition idle (tn : string) (w : Fallback) : Prop := builder tn w = new_builder tn.

Lemma builder_chain tn f w : builder tn (chain tn f w) = f (builder tn w).
Proof. unfold builder at 1, chain. cbn. by rewrite dict_get_set_eq. Qed.

Lemma builder_table tn w : builder tn (table tn w) = builder tn w.
Proof.
  unfold table, dict_mem, builder.
  destruct (dict_get tn (_tables w)) eqn:E; cbn; [by rewrite E|].
  by rewrite dict_get_set_eq.
Qed.

Lemma db_table tn w : db (table tn w) = db w.
Proof. unfold table. by destruct (dict_mem tn (_tables w)). Qed.

Lemma sql_eq_text a s : sql_eq a (SText s) = true <-> a = SText s.
Proof.
  destruct a as [|z|s']; cbn; [by split..|].
  rewrite String.eqb_eq. split; [by intros -> | by intros [= ->]].
Qed.

Lemma sql_eq_text_false a s : a <> SText s -> sql_eq a (SText s) = false.
Proof.
  intros Hne. destruct (sql_eq a (SText s)) eqn:E; [|done].
  by apply sql_eq_text in E.
Qed.

Lemma filter_none {A} (p : A -> bool) (l : list A) :
  Forall (fun x => p x = false) l -> List.filter p l = [].
Proof. induction 1 as [|x l Hx _ IH]; cbn; [done|]. by rewrite Hx. Qed.

Lemma existsb_none {A} (p : A -> bool) (l : list A) :
  Forall (fun x => p x = false) l -> existsb p l = false.
Proof. induction 1 as [|x l Hx _ IH]; cbn; [done|]. by rewrite Hx. Qed.

Lemma holds_id (t : Table) (r : list (string * sqlval)) :
  columns t = videos_columns ->
  holds coerce t r (Eq "id" (PStr "1")) = sql_eq (cell r "id") (SText "1").
Proof.
  intros Hc. unfold holds, find_column. rewrite Hc. cbn. by rewrite coerce_text.
Qed.

(** The row [INSERT] builds for the record. *)
Definition stored_row : list (string * sqlval) :=
  [ ("id", SText "1"); ("filename", SNull); ("file_path", SNull); ("title", SText "x");
    ("description", SNull); ("tags", SNull); ("duration", SNull);
    ("size_bytes", SNull); ("format", SNull); ("width", SNull); ("height", SNull);
    ("thumbnail_path", SNull); ("created_at", SNull); ("updated_at", SNull);
    ("user_id", SNull); ("metadata", SNull); ("status", SText "processed") ].

Definition by_id : Clause := Eq "id" (PStr "1").

(** A builder of [videos] on which at most copies of the clause
    [id = "1"] are pending. *)
Definition quiet (b : Builder) : Prop :=
  table_name b = "videos" /\ Forall (fun c => c = by_id) (where_clauses b) /\
  order_by_clause b = None /\ limit_clause b = None /\ offset_clause b = None.

Definition has_id_1 (r : list (string * sqlval)) : bool :=
  sql_eq (cell r "id") (SText "1").

Lemma idle_quiet w : idle "videos" w -> quiet (builder "videos" w).
Proof. intros ->. by repeat split. Qed.

Lemma where_ok_id (t : Table) (cs : list Clause) :
  columns t = videos_columns -> Forall (fun c => c = by_id) cs ->
  where_ok t cs = true.
Proof.
  intros Hc. induction 1 as [|c cs -> _ IH]; [done|].
  cbn. unfold find_column at 1. rewrite Hc. cbn. exact IH.
Qed.

Lemma matching_id (t : Table) (cs : list Clause) (r : list (string * sqlval)) :
  columns t = videos_columns -> Forall (fun c => c = by_id) cs ->
  matching coerce t (cs ++ [by_id]) r = has_id_1 r.
Proof.
  intros Hc Hcs. unfold matching. rewrite forallb_app. cbn [forallb].
  assert (Hh : holds coerce t r by_id = has_id_1 r) by (by apply holds_id).
  rewrite Hh, andb_true_r.
  induction Hcs as [|c cs -> _ IH]; cbn [forallb]; [done|].
  rewrite Hh, <-andb_assoc, IH. by destruct (has_id_1 r).
Qed.

Lemma select_by_id_spec (w : Fallback) (t : Table) :
  dict_get "videos" (db w) = Some t -> columns t = videos_columns ->
  quiet (builder "videos" w) ->
  exists w',
    select_by_id w = (w', map (fun r => row_dict json_loads (map c_name videos_columns) (map snd r))
                            (List.filter has_id_1 (rows t))) /\
    db w' = db w /\ idle "videos" w'.
Proof.
  intros Ht Hc (Hname & Hcs & Hord & Hlim & Hoff).
  unfold select_by_id, execute, eq, select.
  rewrite !builder_chain, builder_table. cbn [db chain]. rewrite db_table.
  unfold run_select. cbn [table_name select_columns where_clauses order_by_clause
                          limit_clause offset_clause add_clause].
  rewrite Hname, Ht, Hord, Hlim, Hoff.
  rewrite where_ok_id by (try apply Forall_app; auto).
  cbn [andb negb]. rewrite Hc.
  eexists. split_and!.
  - f_equal. rewrite map_map. f_equal. apply filter_ext. intros r.
    by apply matching_id.
  - cbn. by rewrite db_table.
  - unfold idle. rewrite builder_chain. unfold reset_query.
    rewrite !builder_chain, builder_table. cbn. by rewrite Hname.
Qed.

Lemma delete_by_id_spec (w : Fallback) (t : Table) :
  dict_get "videos" (db w) = Some t -> columns t = videos_columns ->
  quiet (builder "videos" w) ->
  exists w',
    delete_by_id w = (w', []) /\
    dict_get "videos" (db w')
    = Some {| columns := videos_columns;
              rows := List.filter (fun r => negb (has_id_1 r)) (rows t) |} /\
    quiet (builder "videos" w').
Proof.
  intros Ht Hc (Hname & Hcs & Hord & Hlim & Hoff).
  unfold delete_by_id, delete, eq.
  rewrite !builder_chain, builder_table. cbn [db chain]. rewrite db_table.
  unfold run_delete. cbn [table_name where_clauses add_clause].
  rewrite Hname, Ht.
  rewrite where_ok_id by (try apply Forall_app; auto).
  cbn [negb]. eexists. split_and!; [reflexivity | |].
  - cbn [db]. rewrite dict_get_set_eq, Hc. do 2 f_equal.
    apply filter_ext. intros r. by rewrite matching_id.
  - unfold builder. cbn [_tables chain]. rewrite dict_get_set_eq. cbn [default].
    rewrite builder_table.
    repeat split; cbn; auto. apply Forall_app. auto.
Qed.

Lemma insert_record_spec (w : Fallback) (t : Table) :
  dict_get "videos" (db w) = Some t -> columns t = videos_columns ->
  Forall (fun r => has_id_1 r = false) (rows t) ->
  exists w',
    insert_record w = (w', [record]) /\
    dict_get "videos" (db w')
    = Some {| columns := videos_columns; rows := rows t ++ [stored_row] |} /\
    builder "videos" w' = builder "videos" w.
Proof.
  intros Ht Hc Hfresh. unfold insert_record, insert, run_insert.
  rewrite db_table, Ht. unfold record at 1. unfold find_column. rewrite Hc.
  cbn [forallb fst videos_columns List.find c_name col String.eqb Ascii.eqb
       Bool.eqb andb negb]. cbn -[existsb cell].
  rewrite !coerce_text. fold stored_row.
  change (cell stored_row "id") with (SText "1").
  rewrite existsb_none by exact Hfresh.
  eexists. split_and!; [reflexivity | |].
  - cbn [db]. by rewrite dict_get_set_eq.
  - unfold builder at 1. cbn [_tables]. apply builder_table.
Qed.

Lemma stored_row_dict :
  row_dict json_loads (map c_name videos_columns) (map snd stored_row) = stored_record.
Proof. reflexivity. Qed.

(** C8 (as amended).  In a store whose [videos] table has the columns of
    [_initialize_database] and no row with id "1", and whose [videos]
    builder has nothing pending: the insert succeeds and answers with the
    record; the select by id = "1" returns exactly one record, the stored
    row, which carries the inserted id and title, NULL in every other
    column and the default status; the delete answers with no data; and
    the select repeated after it returns no record. *)
Theorem C8_insert_select_delete (w : Fallback) (t : Table) :
  dict_get "videos" (db w) = Some t ->
  columns t = videos_columns ->
  Forall (fun r => cell r "id" <> SText "1") (rows t) ->
  idle "videos" w ->
  let inserted := insert_record w in
  let selected := select_by_id (fst inserted) in
  let deleted := delete_by_id (fst selected) in
  let selected_again := select_by_id (fst deleted) in
  snd inserted = [record] /\
  snd selected = [stored_record] /\
  dict_get "id" stored_record = dict_get "id" record /\
  dict_get "title" stored_record = dict_get "title" record /\
  snd deleted = [] /\
  snd selected_again = [].
Proof.
  intros Ht Hc Hnone Hidle.
  assert (Hfresh : Forall (fun r => has_id_1 r = false) (rows t)).
  { eapply Forall_impl; [exact Hnone|]. intros r Hr. by apply sql_eq_text_false. }
  destruct (insert_record_spec w t Ht Hc Hfresh) as (w1 & E1 & Ht1 & Hb1).
  destruct (select_by_id_spec w1 _ Ht1 eq_refl) as (w2 & E2 & Hdb2 & Hidle2).
  { rewrite Hb1. by apply idle_quiet. }
  cbn [rows] in E2.
  assert (Ht2 : dict_get "videos" (db w2)
                = Some {| columns := videos_columns; rows := rows t ++ [stored_row] |})
    by (by rewrite Hdb2).
  destruct (delete_by_id_spec w2 _ Ht2 eq_refl (idle_quiet _ Hidle2))
    as (w3 & E3 & Ht3 & Hq3).
  cbn [rows] in Ht3.
  destruct (select_by_id_spec w3 _ Ht3 eq_refl Hq3) as (w4 & E4 & _ & _).
  cbn [rows] in E4.
  cbv zeta. rewrite E1. cbn [fst snd]. rewrite E2. cbn [fst snd]. rewrite E3.
  cbn [fst snd]. rewrite E4. cbn [fst snd].
  rewrite List.filter_app, (filter_none has_id_1 (rows t) Hfresh).
  split_and!; try reflexivity.
  rewrite !List.filter_app.
  assert (Hkeep : List.filter (fun r => negb (has_id_1 r)) (rows t) = rows t).
  { clear -Hfresh. induction Hfresh as [|r l Hr _ IH]; cbn; [done|].
    by rewrite Hr, IH. }
  rewrite Hkeep, (filter_none has_id_1 (rows t) Hfresh). reflexivity.
Qed.
End RoundTrip.


(** An engine that stores values as bound, leaves rows in scan order and
    rejects every JSON text; none of this is exercised by the round trip. *)
Definition as_bound (a : affinity) (v : sqlval) : sqlval := v.
Definition scan_order (n : string) (desc : bool) (l : list (list (string * sqlval))) := l.
Definition no_json (s : string) : option pyval := None.

(** C8 as stated fails: the record read back from the fresh store is the
    whole row of the table, seventeen columns with the default status, not
    the two-field record that was inserted. *)
Lemma C8_insert_select_delete_counterexample :
  snd (select_by_id as_bound scan_order no_json (fst (insert_record as_bound initial)))
    = [stored_record] /\
  stored_record <> record /\
  dict_get "status" stored_record = Some (PStr "processed") /\
  dict_get "status" record = None.
Proof. split_and!; [vm_compute; reflexivity | discriminate | reflexivity | reflexivity]. Qed.

Lemma C8_insert_select_delete_witness :
  let inserted := insert_record as_bound initial in
  let selected := select_by_id as_bound scan_order no_json (fst inserted) in
  let deleted := delete_by_id as_bound (fst selected) in
  let selected_again := select_by_id as_bound scan_order no_json (fst deleted) in
  snd inserted = [record] /\
  snd selected = [stored_record] /\
  dict_get "id" stored_record = dict_get "id" record /\
  dict_get "title" stored_record = dict_get "title" record /\
  snd deleted = [] /\
  snd selected_again = [].
Proof.
  apply (C8_insert_select_delete as_bound scan_order no_json (fun s => eq_refl) initial
           {| columns := videos_columns; rows := [] |}).
  - reflexivity.
  - reflexivity.
  - constructor.
  - reflexivity.
Defined.

(** *** Chained calls on the shared builder *)

(** The chaining methods of [TableQueryBuilder]. *)
Inductive step :=
| DoSelect (columns : Selection)
| DoEq (column : string) (value : pyval)
| DoIn (column : string) (values : list pyval)
| DoLimit (n : Z)
| DoOrder (column : string) (descending : bool)
| DoOffset (m : Z).
















Section Builders.
Variable coerce : affinity -> sqlval -> sqlval.
Variable order_by : string -> bool -> list (list (string * sqlval)) -> list (list (string * sqlval)).
Variable json_loads : string -> option pyval.

(** The calls made on one table: a chaining method, [execute], [delete]
    or [insert]. *)
Inductive op :=
| Chain (s : step)
| Execute
| Delete
| Insert (data : list (string * pyval)).



(** The builder of the table carries the table's name. *)
Definition named (tn : string) (w : Fallback) : Prop := table_name (builder tn w) = tn.

Lemma named_initial tn : named tn initial.
Proof. reflexivity. Qed.



















(** The [id] cell of the row that [INSERT] builds. *)
Lemma cell_new_row (t : Table) (others : list Column) (data : list (string * pyval))
    (s : string) :
  (forall s, coerce TEXT (SText s) = SText s) ->
  columns t = col "id" TEXT :: others ->
  dict_get "id" data = Some (PStr s) ->
  cell (map (fun c => (c_name c,
                       match dict_get (c_name c) data with
                       | Some v => coerce (c_affinity c) (to_sql v)
                       | None => c_default c
                       end)) (columns t)) "id"
    = SText s.
Proof.
  intros coerce_text Hc Hid. rewrite Hc. cbn [map c_name col c_affinity].
  rewrite Hid. cbn [to_sql]. rewrite coerce_text. reflexivity.
Qed.

(** X28.  Ids are unique.  In a table whose first column is the TEXT
    column [id], inserting a record with a string id twice in a row
    changes the store at most once: the second insert answers with no
    data and leaves the store as the first left it, whether the first was
    accepted or not. *)
Theorem X28_repeated_insert_is_rejected (w : Fallback) (tn : string) (t : Table)
    (others : list Column) (data : list (string * pyval)) (s : string) :
  (forall s, coerce TEXT (SText s) = SText s) ->
  dict_get tn (db w) = Some t ->
  columns t = col "id" TEXT :: others ->
  dict_get "id" data = Some (PStr s) ->
  let first := insert coerce tn data w in
  let second := insert coerce tn data (fst first) in
  snd second = [] /\ fst second = fst first.
Proof.
  intros coerce_text Ht Hc Hid first second. unfold second, first, insert.
  destruct (run_insert coerce tn data (db w)) as [d|e] eqn:E; cbn [fst].
  - assert (Hsecond : exists e, run_insert coerce tn data d = Raised e).
    { unfold run_insert in E |- *. rewrite Ht in E.
      destruct data as [|kv data]; [done|].
      destruct (negb (forallb _ (kv :: data))) eqn:Hcols; [done|].
      destruct (existsb _ (rows t)); [done|]. injection E as <-.
      rewrite dict_get_set_eq.
      change (find_column {| columns := columns t; rows := _ |})
        with (find_column t).
      cbn [columns rows]. rewrite Hcols, existsb_app. cbn [existsb].
      rewrite (cell_new_row t others (kv :: data) s) by done.
      match goal with
      | |- context [sql_eq ?x (SText s) || false] =>
          replace x with (SText s)
            by (symmetry; apply (cell_new_row t others (kv :: data) s); done)
      end.
      cbn [sql_eq]. rewrite String.eqb_refl, orb_true_r. eauto. }
    destruct Hsecond as [e He]. cbn [db]. by rewrite He.
  - by rewrite E.
Qed.

(** X30.  LIMIT and OFFSET.  A query with a limit that is not negative
    answers with at most that many records.  A query with an offset and
    no limit is a syntax error to SQLite: it answers with no data and,
    the builder not being reset, leaves the offset pending. *)
Theorem X30_limit_and_offset (w : Fallback) (tn : string) :
  (forall n, limit_clause (builder tn w) = Some n -> 0 <= n ->
     (length (snd (execute coerce order_by json_loads tn w)) <= Z.to_nat n)%nat) /\
  (limit_clause (builder tn w) = None -> is_Some (offset_clause (builder tn w)) ->
     execute coerce order_by json_loads tn w = (w, [])).
Proof.
  split.
  - intros n Hl Hn. unfold execute, run_select.
    destruct (dict_get (table_name (builder tn w)) (db w)) as [t|]; [|cbn; lia].
    destruct (negb _); [cbn; lia|]. rewrite Hl. cbn [snd].
    rewrite !length_map. unfold limit_offset.
    assert ((n <? 0) = false) as -> by (apply Z.ltb_ge; lia).
    rewrite length_take. lia.
  - intros Hl [m Ho]. unfold execute, run_select.
    destruct (dict_get (table_name (builder tn w)) (db w)) as [t|]; [|done].
    destruct (negb _); [done|]. by rewrite Hl, Ho.
Qed.
End Builders.



Lemma X28_repeated_insert_is_rejected_witness :
  let first := insert as_bound "videos" record initial in
  let second := insert as_bound "videos" record (fst first) in
  snd second = [] /\ fst second = fst first.
Proof.
  apply (X28_repeated_insert_is_rejected as_bound initial "videos"
           {| columns := videos_columns; rows := [] |}
           (tl videos_columns) record "1").
  - reflexivity.
  - reflexivity.
  - reflexivity.
  - reflexivity.
Defined.


Lemma X30_limit_and_offset_witness :
  (length (snd (execute as_bound scan_order no_json "videos"
                  (limit "videos" 1 (table "videos" (fst (insert_record as_bound initial))))))
   <= Z.to_nat 1)%nat.
Proof.
  apply (proj1 (X30_limit_and_offset as_bound scan_order no_json
                  (limit "videos" 1 (table "videos" (fst (insert_record as_bound initial))))
                  "videos") 1).
  - reflexivity.
  - lia.
Defined.

End Store.
